(** * Gradient volume: construction and interpolated queries

    A shallow embedding of [src/volume/gradient_volume.cpp].

    - [float] is IEEE-754 binary32, carried by the Standard Library's
      [spec_float] at precision 24 and maximal exponent 128; every
      operation rounds to nearest, ties to even.
    - [int] is a 32-bit integer, carried by [Z]; its arithmetic wraps the
      way two's-complement hardware does ([Int.wrap]).  C++ leaves signed
      overflow undefined, so the theorems about indices assume extents
      whose product is an [int] ([well_sized]).
    - A call either returns, runs into undefined behaviour (an access
      outside an array, a dereferenced end iterator, a float that does not
      fit the integer it is cast to) or throws: the [outcome] monad. *)

From Stdlib Require Import ZArith Bool Lia.
From Stdlib Require Import SpecFloat.
From stdpp Require Import base option list.

Local Open Scope Z_scope.

(* ===================================================================== *)
(** * Outcomes of a call                                                   *)
(* ===================================================================== *)

Inductive outcome (A : Type) : Type :=
  | Ok (a : A)
  | Undefined
  | Thrown.

Arguments Ok {A} a.
Arguments Undefined {A}.
Arguments Thrown {A}.

#[global] Instance outcome_ret : MRet outcome := fun A a => Ok a.

#[global] Instance outcome_bind : MBind outcome := fun A B f m =>
  match m with
  | Ok a => f a
  | Undefined => Undefined
  | Thrown => Thrown
  end.

#[global] Instance outcome_fmap : FMap outcome := fun A B f m =>
  match m with
  | Ok a => Ok (f a)
  | Undefined => Undefined
  | Thrown => Thrown
  end.

Definition returns {A} (m : outcome A) : Prop := ∃ a, m = Ok a.

(* ===================================================================== *)
(** * 32-bit integers                                                      *)
(* ===================================================================== *)

Module Int.

Definition INT_MIN : Z := -2147483648.
Definition INT_MAX : Z := 2147483647.

Definition in_range (z : Z) : Prop := INT_MIN <= z <= INT_MAX.

Definition in_rangeb (z : Z) : bool := (INT_MIN <=? z) && (z <=? INT_MAX).

(** Two's-complement reduction of a mathematical integer to [int]. *)
Definition wrap (z : Z) : Z := (z + 2147483648) mod 4294967296 - 2147483648.

Definition add (a b : Z) : Z := wrap (a + b).
Definition sub (a b : Z) : Z := wrap (a - b).
Definition mul (a b : Z) : Z := wrap (a * b).

(** [static_cast<size_t>(i)] on a 64-bit target. *)
Definition to_size_t (i : Z) : Z := i mod 18446744073709551616.

End Int.

(* ===================================================================== *)
(** * binary32 floating point                                              *)
(* ===================================================================== *)

Module F32.

Definition prec : Z := 24.
Definition emax : Z := 128.

Definition float : Type := spec_float.

Definition add : float → float → float := SFadd prec emax.
Definition sub : float → float → float := SFsub prec emax.
Definition mul : float → float → float := SFmul prec emax.
Definition div : float → float → float := SFdiv prec emax.
Definition sqrt : float → float := SFsqrt prec emax.

Definition ltb : float → float → bool := SFltb.
Definition leb : float → float → bool := SFleb.
Definition eqb : float → float → bool := SFeqb.
(** [a >= b] *)
Definition geb (a b : float) : bool := SFleb b a.

Definition valid : float → bool := valid_binary prec emax.

Definition is_nan (x : float) : bool :=
  match x with S754_nan => true | _ => false end.

Definition is_finite (x : float) : bool :=
  match x with S754_zero _ | S754_finite _ _ _ => true | _ => false end.

(** Literals [0.0f], [0.5f], [1.0f], [2.0f]. *)
Definition zero : float := S754_zero false.
Definition half : float := S754_finite false 8388608 (-24).
Definition one : float := S754_finite false 8388608 (-23).
Definition two : float := S754_finite false 8388608 (-22).

(** Conversion [int -> float] (rounds when the integer needs more than
    24 significant bits). *)
Definition of_int (n : Z) : float := binary_normalize prec emax n 0 false.

(** The signed mantissa of a finite float. *)
Definition signed (s : bool) (m : positive) : Z := cond_Zopp s (Zpos m).

(** Integer parts of the real number [±m * 2^e]. *)
Definition floorZ (s : bool) (m : positive) (e : Z) : Z :=
  if 0 <=? e then Z.shiftl (signed s m) e else Z.shiftr (signed s m) (- e).

Definition ceilZ (s : bool) (m : positive) (e : Z) : Z :=
  - floorZ (negb s) m e.

Definition truncZ (s : bool) (m : positive) (e : Z) : Z :=
  cond_Zopp s (floorZ false m e).

(** [static_cast<int>(x)]: truncation toward zero; undefined when the
    truncated value is not an [int], and for infinities and NaN. *)
Definition to_int (x : float) : outcome Z :=
  match x with
  | S754_zero _ => Ok 0
  | S754_finite s m e =>
      let n := truncZ s m e in
      if Int.in_rangeb n then Ok n else Undefined
  | _ => Undefined
  end.

(** [floor] and [ceil] of the C library: the result is a float again,
    zeros keep the sign of the argument. *)
Definition round_with (rnd : bool → positive → Z → Z) (x : float) : float :=
  match x with
  | S754_finite s m e =>
      if 0 <=? e then x
      else let n := rnd s m e in
           if n =? 0 then S754_zero s else of_int n
  | _ => x
  end.

Definition floor : float → float := round_with floorZ.
Definition ceil : float → float := round_with ceilZ.

End F32.

Abbreviation float := F32.float.

(* ===================================================================== *)
(** * Data model                                                           *)
(* ===================================================================== *)

(** [glm::ivec3], [glm::vec3], [glm::vec2]. *)
Record ivec3 : Type := IVec3 { ix : Z; iy : Z; iz : Z }.
Record vec3 : Type := Vec3 { vx : float; vy : float; vz : float }.
Record vec2 : Type := Vec2 { v2x : float; v2y : float }.

(** The operations of the GLM library the code calls. *)
Module Glm.

(** Componentwise arithmetic of [glm::vec3]. *)
Definition vsub (a b : vec3) : vec3 :=
  Vec3 (F32.sub (vx a) (vx b)) (F32.sub (vy a) (vy b)) (F32.sub (vz a) (vz b)).
Definition vadd (a b : vec3) : vec3 :=
  Vec3 (F32.add (vx a) (vx b)) (F32.add (vy a) (vy b)) (F32.add (vz a) (vz b)).
Definition vscale (a : vec3) (k : float) : vec3 :=
  Vec3 (F32.mul (vx a) k) (F32.mul (vy a) k) (F32.mul (vz a) k).
Definition vadds (a : vec3) (k : float) : vec3 :=
  Vec3 (F32.add (vx a) k) (F32.add (vy a) k) (F32.add (vz a) k).
Definition vsubs (a : vec3) (k : float) : vec3 :=
  Vec3 (F32.sub (vx a) k) (F32.sub (vy a) k) (F32.sub (vz a) k).

(** [glm::vec3(s)] and [glm::vec3(ivec3)]. *)
Definition splat (k : float) : vec3 := Vec3 k k k.
Definition of_ivec3 (d : ivec3) : vec3 :=
  Vec3 (F32.of_int (ix d)) (F32.of_int (iy d)) (F32.of_int (iz d)).

(** [glm::any(glm::lessThan(a, b))], [glm::any(glm::greaterThanEqual(a, b))]. *)
Definition any_lessThan (a b : vec3) : bool :=
  F32.ltb (vx a) (vx b) || F32.ltb (vy a) (vy b) || F32.ltb (vz a) (vz b).
Definition any_greaterThanEqual (a b : vec3) : bool :=
  F32.geb (vx a) (vx b) || F32.geb (vy a) (vy b) || F32.geb (vz a) (vz b).

(** [glm::dot(a, b)] multiplies componentwise and adds left to right;
    [glm::length(v)] is [sqrt(dot(v, v))]. *)
Definition dot (a b : vec3) : float :=
  F32.add (F32.add (F32.mul (vx a) (vx b)) (F32.mul (vy a) (vy b)))
          (F32.mul (vz a) (vz b)).
Definition length (v : vec3) : float := F32.sqrt (dot v v).

End Glm.

(** Modelled from the spec: [struct GradientVoxel] is declared in
    [gradient_volume.h], which is not among the sources.  The spec gives a
    voxel a direction and a magnitude; the code reads and writes them as
    [dir] and [magnitude], and builds voxels as [{ v, length }]. *)
Record GradientVoxel : Type := mkVoxel { dir : vec3; magnitude : float }.

(** Modelled from the spec: the default value of a voxel, which a fresh
    [std::vector<GradientVoxel>] holds, is [{direction = 0, magnitude = 0}].
    It is also what the queries return out of range:
    [{ glm::vec3(0.0f), 0.0f }]. *)
Definition zeroVoxel : GradientVoxel := mkVoxel (Glm.splat F32.zero) F32.zero.

(** Modelled from the spec: [class Volume] is not among the sources.  The
    gradient volume reads its dimensions, [dims()], and the scalar at an
    integer position, [getVoxel(x, y, z)]; the scalar is a [float], as the
    division by [2.0f] has it. *)
Record Volume : Type := mkVolume { vol_dims : ivec3; getVoxel : Z → Z → Z → float }.

(** Modelled from the spec: [enum class InterpolationMode] is declared in a
    header that is not among the sources; the [switch] names its three
    enumerators.  [OtherMode] stands for any value outside them, which the
    [switch] sends to [default]. *)
Inductive InterpolationMode : Type :=
  | NearestNeighbour
  | Linear
  | Cubic
  | OtherMode.

(** The data members of [class GradientVolume], as the constructor and the
    member functions use them. *)
Record GradientVolume : Type := mkGradientVolume {
  m_dim : ivec3;
  m_data : list GradientVoxel;
  m_minMagnitude : float;
  m_maxMagnitude : float;
  interpolationMode : InterpolationMode
}.

(* ===================================================================== *)
(** * Construction                                                         *)
(* ===================================================================== *)

(** [std::max_element] and [std::min_element] over a range that starts with
    [best]: the first of the largest (smallest) elements under [comp]. *)
Fixpoint max_element_from {A} (comp : A → A → bool) (best : A) (rest : list A) : A :=
  match rest with
  | [] => best
  | x :: rest' => max_element_from comp (if comp best x then x else best) rest'
  end.

Fixpoint min_element_from {A} (comp : A → A → bool) (best : A) (rest : list A) : A :=
  match rest with
  | [] => best
  | x :: rest' => min_element_from comp (if comp x best then x else best) rest'
  end.

(** The comparator of both scans: [lhs.magnitude < rhs.magnitude]. *)
Definition magnitude_less (lhs rhs : GradientVoxel) : bool :=
  F32.ltb (magnitude lhs) (magnitude rhs).

(** [computeMaxMagnitude], [computeMinMagnitude].  On an empty range both
    algorithms return the end iterator, which the function then
    dereferences. *)
Definition computeMaxMagnitude (data : list GradientVoxel) : outcome float :=
  match data with
  | [] => Undefined
  | g :: rest => Ok (magnitude (max_element_from magnitude_less g rest))
  end.

Definition computeMinMagnitude (data : list GradientVoxel) : outcome float :=
  match data with
  | [] => Undefined
  | g :: rest => Ok (magnitude (min_element_from magnitude_less g rest))
  end.

(** [for (int i = lo; i < hi; i++) body]. *)
Fixpoint for_each {S} (body : Z → S → outcome S) (idxs : list Z) (s : S) : outcome S :=
  match idxs with
  | [] => Ok s
  | i :: rest => s' ← body i s; for_each body rest s'
  end.

Definition for_loop {S} (lo hi : Z) (body : Z → S → outcome S) (s : S) : outcome S :=
  for_each body (seqZ lo (hi - lo)) s.

(** The linear index [x + dim.x * (y + dim.y * z)], computed in [int]. *)
Definition linear_index (d : ivec3) (x y z : Z) : Z :=
  Int.add x (Int.mul (ix d) (Int.add y (Int.mul (iy d) z))).

(** [v[i]] for a [std::vector] and a [size_t] index: no bounds check. *)
Definition vector_get {A} (v : list A) (i : Z) : outcome A :=
  match v !! Z.to_nat i with
  | Some a => Ok a
  | None => Undefined
  end.

Definition vector_set {A} (v : list A) (i : Z) (a : A) : outcome (list A) :=
  if bool_decide (Z.to_nat i < List.length v)%nat then Ok (<[Z.to_nat i := a]> v) else Undefined.

(** The body of the innermost loop up to the store: [gx], [gy], [gz]. *)
Definition centralDifference (volume : Volume) (x y z : Z) : vec3 :=
  let gx := F32.div (F32.sub (getVoxel volume (Int.add x 1) y z)
                             (getVoxel volume (Int.sub x 1) y z)) F32.two in
  let gy := F32.div (F32.sub (getVoxel volume x (Int.add y 1) z)
                             (getVoxel volume x (Int.sub y 1) z)) F32.two in
  let gz := F32.div (F32.sub (getVoxel volume x y (Int.add z 1))
                             (getVoxel volume x y (Int.sub z 1))) F32.two in
  Vec3 gx gy gz.

(** [computeGradientVolume].  The vector constructor throws
    [std::length_error] when the [int] product is negative: as a [size_t]
    it exceeds [max_size()]. *)
Definition computeGradientVolume (volume : Volume) : outcome (list GradientVoxel) :=
  let dim := vol_dims volume in
  let n := Int.mul (Int.mul (ix dim) (iy dim)) (iz dim) in
  if n <? 0 then Thrown else
  let out := replicate (Z.to_nat (Int.to_size_t n)) zeroVoxel in
  for_loop 1 (Int.sub (iz dim) 1) (fun z =>
    for_loop 1 (Int.sub (iy dim) 1) (fun y =>
      for_loop 1 (Int.sub (ix dim) 1) (fun x out =>
        let v := centralDifference volume x y z in
        let index := Int.to_size_t (linear_index dim x y z) in
        vector_set out index (mkVoxel v (Glm.length v))))) out.

(** [GradientVolume::GradientVolume(const Volume&)].  The initial
    [interpolationMode] comes from the class declaration and is a parameter
    here. *)
Definition GradientVolume_new (volume : Volume) (mode : InterpolationMode)
  : outcome GradientVolume :=
  data ← computeGradientVolume volume;
  mn ← computeMinMagnitude data;
  mx ← computeMaxMagnitude data;
  Ok (mkGradientVolume (vol_dims volume) data mn mx mode).

Definition maxMagnitude (gv : GradientVolume) : float := m_maxMagnitude gv.
Definition minMagnitude (gv : GradientVolume) : float := m_minMagnitude gv.
Definition dims (gv : GradientVolume) : ivec3 := m_dim gv.

(* ===================================================================== *)
(** * Queries                                                              *)
(* ===================================================================== *)

(** [GradientVolume::getGradient]: the voxel at an integer position, read
    without a bounds check. *)
Definition getGradient (gv : GradientVolume) (x y z : Z) : outcome GradientVoxel :=
  let i := Int.to_size_t (linear_index (m_dim gv) x y z) in
  vector_get (m_data gv) i.

(** [GradientVolume::linearInterpolate]: [(g1.dir - g0.dir) * factor + g0.dir]
    with its length. *)
Definition linearInterpolate (g0 g1 : GradientVoxel) (factor : float) : GradientVoxel :=
  let result := Glm.vadd (Glm.vscale (Glm.vsub (dir g1) (dir g0)) factor) (dir g0) in
  mkVoxel result (Glm.length result).

(** [GradientVolume::biLinearInterpolation]: the four corners of the cell
    around [xyCoord] in slice [z], blended along x and then along y. *)
Definition biLinearInterpolation (gv : GradientVolume) (xyCoord : vec2) (z : Z)
  : outcome GradientVoxel :=
  blx ← F32.to_int (F32.floor (v2x xyCoord));
  bly ← F32.to_int (F32.floor (v2y xyCoord));
  tlx ← F32.to_int (F32.floor (v2x xyCoord));
  tly ← F32.to_int (F32.ceil (v2y xyCoord));
  brx ← F32.to_int (F32.ceil (v2x xyCoord));
  bry ← F32.to_int (F32.floor (v2y xyCoord));
  trx ← F32.to_int (F32.ceil (v2x xyCoord));
  try ← F32.to_int (F32.ceil (v2y xyCoord));
  let a := F32.sub (v2x xyCoord) (F32.of_int blx) in
  let b := F32.sub (v2y xyCoord) (F32.of_int bly) in
  gbl ← getGradient gv blx bly z;
  gbr ← getGradient gv brx bry z;
  let c00 := linearInterpolate gbl gbr a in
  gtl ← getGradient gv tlx tly z;
  gtr ← getGradient gv trx try z;
  let c10 := linearInterpolate gtl gtr a in
  Ok (linearInterpolate c00 c10 b).

(** [GradientVolume::getGradientLinearInterpolate]. *)
Definition getGradientLinearInterpolate (gv : GradientVolume) (coord : vec3)
  : outcome GradientVoxel :=
  if Glm.any_lessThan (Glm.vsubs coord F32.one) (Glm.splat F32.zero)
     || Glm.any_greaterThanEqual (Glm.vadds coord F32.one) (Glm.of_ivec3 (m_dim gv))
  then Ok zeroVoxel
  else
    z0 ← F32.to_int (F32.floor (vz coord));
    b0 ← biLinearInterpolation gv (Vec2 (vx coord) (vy coord)) z0;
    z1 ← F32.to_int (F32.ceil (vz coord));
    b1 ← biLinearInterpolation gv (Vec2 (vx coord) (vy coord)) z1;
    let f := F32.sub (vz coord) (F32.floor (vz coord)) in
    Ok (linearInterpolate b0 b1 f).

(** The lambda [roundToPositiveInt]: [static_cast<int>(f + 0.5f)]. *)
Definition roundToPositiveInt (f : float) : outcome Z :=
  F32.to_int (F32.add f F32.half).

(** [GradientVolume::getGradientNearestNeighbor]. *)
Definition getGradientNearestNeighbor (gv : GradientVolume) (coord : vec3)
  : outcome GradientVoxel :=
  if Glm.any_lessThan coord (Glm.splat F32.zero)
     || Glm.any_greaterThanEqual coord (Glm.of_ivec3 (m_dim gv))
  then Ok zeroVoxel
  else
    x ← roundToPositiveInt (vx coord);
    y ← roundToPositiveInt (vy coord);
    z ← roundToPositiveInt (vz coord);
    getGradient gv x y z.

(** [GradientVolume::getGradientInterpolate]. *)
Definition getGradientInterpolate (gv : GradientVolume) (coord : vec3)
  : outcome GradientVoxel :=
  match interpolationMode gv with
  | NearestNeighbour => getGradientNearestNeighbor gv coord
  | Linear => getGradientLinearInterpolate gv coord
  | Cubic => getGradientLinearInterpolate gv coord
  | OtherMode => Thrown
  end.

(* ===================================================================== *)
(** * Vocabulary of the specification                                      *)
(* ===================================================================== *)

(** ** Positions and indices *)

(** Positions of the volume, its strict interior, and the mathematical
    row-major index (x fastest). *)
Definition in_volume (d : ivec3) (x y z : Z) : Prop :=
  0 ≤ x < ix d ∧ 0 ≤ y < iy d ∧ 0 ≤ z < iz d.

Definition interior (d : ivec3) (x y z : Z) : Prop :=
  1 ≤ x ≤ ix d - 2 ∧ 1 ≤ y ≤ iy d - 2 ∧ 1 ≤ z ≤ iz d - 2.

#[global] Instance interior_dec d x y z : Decision (interior d x y z).
Proof. unfold interior. apply _. Defined.

Definition voxel_count (d : ivec3) : Z := ix d * iy d * iz d.

Definition flat_index (d : ivec3) (x y z : Z) : Z := x + ix d * (y + iy d * z).

(** A volume the code can be run on without leaving [int]: every extent is
    at least one and the number of voxels is an [int]. *)
Definition well_sized (d : ivec3) : Prop :=
  1 ≤ ix d ∧ 1 ≤ iy d ∧ 1 ≤ iz d ∧ voxel_count d ≤ Int.INT_MAX.

(** ** Scalar fields and voxels *)

(** A scalar field whose samples inside the volume are real numbers:
    neither infinite nor NaN. *)
Definition finite_samples (volume : Volume) : Prop :=
  ∀ x y z, in_volume (vol_dims volume) x y z → F32.is_finite (getVoxel volume x y z) = true.

(** The central differences of the scalar field at a position, and the
    voxel made of them. *)
Definition central_differences (volume : Volume) (x y z : Z) : vec3 :=
  Vec3 (F32.div (F32.sub (getVoxel volume (x + 1) y z) (getVoxel volume (x - 1) y z)) F32.two)
       (F32.div (F32.sub (getVoxel volume x (y + 1) z) (getVoxel volume x (y - 1) z)) F32.two)
       (F32.div (F32.sub (getVoxel volume x y (z + 1)) (getVoxel volume x y (z - 1))) F32.two).

Definition central_voxel (volume : Volume) (x y z : Z) : GradientVoxel :=
  mkVoxel (central_differences volume x y z) (Glm.length (central_differences volume x y z)).

(** A voxel whose magnitude is the norm of its direction. *)
Definition consistent (g : GradientVoxel) : Prop := magnitude g = Glm.length (dir g).

(** Comparison with [==], field by field. *)
Definition same_vec3 (a b : vec3) : bool :=
  F32.eqb (vx a) (vx b) && F32.eqb (vy a) (vy b) && F32.eqb (vz a) (vz b).

Definition same_voxel (a b : GradientVoxel) : bool :=
  same_vec3 (dir a) (dir b) && F32.eqb (magnitude a) (magnitude b).

(** Assignment to the public field [interpolationMode]. *)
Definition with_mode (gv : GradientVolume) (mode : InterpolationMode) : GradientVolume :=
  mkGradientVolume (m_dim gv) (m_data gv) (m_minMagnitude gv) (m_maxMagnitude gv) mode.

(** ** Vectors of floats *)

Definition finite3 (v : vec3) : Prop :=
  F32.is_finite (vx v) = true ∧ F32.is_finite (vy v) = true ∧ F32.is_finite (vz v) = true.

Definition valid3 (v : vec3) : Prop :=
  F32.valid (vx v) = true ∧ F32.valid (vy v) = true ∧ F32.valid (vz v) = true.

Definition not_nan3 (v : vec3) : Prop :=
  F32.is_nan (vx v) = false ∧ F32.is_nan (vy v) = false ∧ F32.is_nan (vz v) = false.



Definition is_negative_zero (x : float) : bool :=
  match x with S754_zero true => true | _ => false end.

Definition no_negative_zero (v : vec3) : Prop :=
  is_negative_zero (vx v) = false ∧ is_negative_zero (vy v) = false ∧
  is_negative_zero (vz v) = false.

(** ** Query coordinates *)

(** The query coordinate lies outside the volume, as the nearest-neighbour
    guard tests it. *)
Definition outside_volume (d : ivec3) (coord : vec3) : Prop :=
  F32.ltb (vx coord) F32.zero = true ∨ F32.ltb (vy coord) F32.zero = true ∨
  F32.ltb (vz coord) F32.zero = true ∨
  F32.geb (vx coord) (F32.of_int (ix d)) = true ∨
  F32.geb (vy coord) (F32.of_int (iy d)) = true ∨
  F32.geb (vz coord) (F32.of_int (iz d)) = true.

(** The query coordinate lies outside the interpolation margin, as the
    trilinear guard tests it. *)
Definition outside_margin (d : ivec3) (coord : vec3) : Prop :=
  F32.ltb (F32.sub (vx coord) F32.one) F32.zero = true ∨
  F32.ltb (F32.sub (vy coord) F32.one) F32.zero = true ∨
  F32.ltb (F32.sub (vz coord) F32.one) F32.zero = true ∨
  F32.geb (F32.add (vx coord) F32.one) (F32.of_int (ix d)) = true ∨
  F32.geb (F32.add (vy coord) F32.one) (F32.of_int (iy d)) = true ∨
  F32.geb (F32.add (vz coord) F32.one) (F32.of_int (iz d)) = true.

(** [floor(x)] as an [int]; undefined when it is none. *)
Definition floor_to_int (x : float) : outcome Z :=
  match x with
  | S754_zero _ => Ok 0
  | S754_finite s m e =>
      let n := F32.floorZ s m e in
      if Int.in_rangeb n then Ok n else Undefined
  | _ => Undefined
  end.

(** Round half up to the nearest integer, [floor(v + 0.5)], taken on the
    exact value [±m * 2^e] of the float: no float addition is involved.
    Undefined when the result is not an [int], and for infinities and
    NaN. *)
Definition round_half_up (v : float) : outcome Z :=
  match v with
  | S754_zero _ => Ok 0
  | S754_finite s m e =>
      let n := if 0 <=? e then F32.signed s m * 2 ^ e
               else (2 * F32.signed s m + 2 ^ (- e)) / 2 ^ (1 - e) in
      if Int.in_rangeb n then Ok n else Undefined
  | _ => Undefined
  end.

(* ===================================================================== *)
(** * Vocabulary of the proofs                                             *)
(* ===================================================================== *)

(** ** Progress of the builder *)

(** The interior positions already written when the counters of the three
    nested loops stand at [zk], [yk], [xk]. *)
Definition written (d : ivec3) (zk yk xk : Z) (x y z : Z) : Prop :=
  interior d x y z ∧ (z < zk ∨ (z = zk ∧ (y < yk ∨ (y = yk ∧ x < xk)))).

#[global] Instance written_dec d zk yk xk x y z : Decision (written d zk yk xk x y z).
Proof. unfold written. apply _. Defined.

Definition filled_up_to (volume : Volume) (zk yk xk : Z) (out : list GradientVoxel) : Prop :=
  let d := vol_dims volume in
  List.length out = Z.to_nat (voxel_count d) ∧
  ∀ x y z, in_volume d x y z →
    out !! Z.to_nat (flat_index d x y z) =
      Some (if decide (written d zk yk xk x y z) then central_voxel volume x y z else zeroVoxel).

(** ** Signs and order of floats *)

(** A float that is neither NaN nor negative ([-0] counts as a zero). *)
Definition nonneg (x : float) : bool :=
  match x with
  | S754_zero _ => true
  | S754_infinity s | S754_finite s _ _ => negb s
  | S754_nan => false
  end.

(** What a rounding step may produce for sign [s]: never NaN. *)
Definition has_sign (s : bool) (x : float) : Prop :=
  x = S754_zero s ∨ x = S754_infinity s ∨ ∃ m e, x = S754_finite s m e.

(** The order of the floats that are not NaN, read off a key that sorts
    lexicographically: sign class, then exponent, then mantissa. *)
Definition order_key (x : float) : Z * Z * Z :=
  match x with
  | S754_infinity true => (-2, 0, 0)
  | S754_finite true m e => (-1, - e, - Zpos m)
  | S754_zero _ => (0, 0, 0)
  | S754_finite false m e => (1, e, Zpos m)
  | S754_infinity false => (2, 0, 0)
  | S754_nan => (3, 0, 0)
  end.

Definition lex_compare (a b : Z * Z * Z) : comparison :=
  match a.1.1 ?= b.1.1 with
  | Eq => match a.1.2 ?= b.1.2 with
          | Eq => a.2 ?= b.2
          | c => c
          end
  | c => c
  end.

Definition lex_le (a b : Z * Z * Z) : Prop :=
  a.1.1 < b.1.1 ∨ (a.1.1 = b.1.1 ∧ (a.1.2 < b.1.2 ∨ (a.1.2 = b.1.2 ∧ a.2 ≤ b.2))).

Definition lex_lt (a b : Z * Z * Z) : Prop :=
  a.1.1 < b.1.1 ∨ (a.1.1 = b.1.1 ∧ (a.1.2 < b.1.2 ∨ (a.1.2 = b.1.2 ∧ a.2 < b.2))).

(** ** Rounding to nearest *)

(** [n / 2^k] rounded to the nearest integer, ties to even. *)
Definition rne (n k : Z) : Z :=
  let q := n / 2 ^ k in
  let r := n mod 2 ^ k in
  match 2 * r ?= 2 ^ k with
  | Lt => q
  | Eq => if Z.even q then q else q + 1
  | Gt => q + 1
  end.

(** A shift record that stands for [n] after [k] right shifts: the
    mantissa, the round bit and the sticky bit account for all of [n]. *)
Definition shr_tracks (n k : Z) (r : shr_record) : Prop :=
  0 ≤ shr_m r ∧
  ∃ low, 0 ≤ low < 2 ^ k ∧
         2 * n = 2 ^ k * (2 * shr_m r + Z.b2z (shr_r r)) + low ∧
         (shr_s r = true ↔ 0 < low).

(** The exponent a positive value [m * 2^e] is rounded at, the mantissa it
    rounds to there, and the float made of a rounded mantissa (at most
    [2^24]) and its exponent. *)
Definition round_exp (m : positive) (e : Z) : Z :=
  Z.max (Zpos (digits2_pos m) + e - 24) (-149).

Definition mant_at (m : positive) (e fe : Z) : Z :=
  if fe <? e then Zpos m * 2 ^ (e - fe) else rne (Zpos m) (fe - e).

Definition pack (s : bool) (q e : Z) : float :=
  if q =? 0 then S754_zero s
  else if q =? 16777216 then
    if e + 1 <=? 104 then S754_finite s 8388608 (e + 1) else S754_infinity s
  else if e <=? 104 then S754_finite s (Z.to_pos q) e else S754_infinity s.

(** The exact sum [m * 2^e + 1], as an integer at the exponent the float
    addition aligns both operands to. *)
Definition plus_one_scaled (m : positive) (e : Z) : Z :=
  Zpos m * 2 ^ (e - Z.min e (-23)) + 2 ^ (- Z.min e (-23)).

(** ** Blending a voxel with itself *)



(* ===================================================================== *)
(** * Sample inputs                                                        *)
(* ===================================================================== *)

(** [5.0f], [2^-25], [2.5f], [1.5f], and the largest float below [0.5f]. *)
Definition f32_five : float := S754_finite false 10485760 (-21).
Definition f32_below_half : float := S754_finite false 16777215 (-25).
Definition f32_tiny : float := S754_finite false 8388608 (-48).
Definition f32_two_and_half : float := S754_finite false 10485760 (-22).
Definition f32_one_and_half : float := S754_finite false 12582912 (-23).

(** A 3 x 3 x 3 volume whose scalar is the x coordinate, a volume of the
    same size with a constant scalar, and a volume without voxels. *)
Definition ramp_volume : Volume :=
  mkVolume (IVec3 3 3 3) (fun x _ _ => F32.of_int x).

Definition constant_volume : Volume :=
  mkVolume (IVec3 3 3 3) (fun _ _ _ => f32_five).

Definition empty_volume : Volume :=
  mkVolume (IVec3 0 0 0) (fun _ _ _ => F32.zero).

Definition unit_x_labelled_five : GradientVoxel :=
  mkVoxel (Vec3 F32.one F32.zero F32.zero) f32_five.
Definition unit_x : GradientVoxel :=
  mkVoxel (Vec3 F32.one F32.zero F32.zero) F32.one.
Definition tiny_x : GradientVoxel :=
  mkVoxel (Vec3 f32_tiny F32.zero F32.zero) f32_tiny.

(** The gradient volume of [ramp_volume], in Linear mode. *)
Definition ramp_gradient : GradientVolume :=
  Eval vm_compute in
    match GradientVolume_new ramp_volume Linear with
    | Ok gv => gv
    | _ => mkGradientVolume (IVec3 0 0 0) [] F32.zero F32.zero Linear
    end.

Definition ramp_centre : vec3 := Vec3 F32.one F32.one F32.one.
Definition ramp_off_lattice : vec3 := Vec3 f32_one_and_half f32_one_and_half f32_one_and_half.

(* ===================================================================== *)
(** * Vocabulary of the further properties                                 *)
(* ===================================================================== *)

(** A volume with fewer than three voxels along some axis: it has no
    interior position. *)
Definition thin (d : ivec3) : Prop := ix d ≤ 2 ∨ iy d ≤ 2 ∨ iz d ≤ 2.

(** A volume without voxels whose extents are still [int]s that are not
    negative. *)
Definition without_voxels (d : ivec3) : Prop :=
  0 ≤ ix d ≤ Int.INT_MAX ∧ 0 ≤ iy d ≤ Int.INT_MAX ∧ 0 ≤ iz d ≤ Int.INT_MAX ∧
  (ix d = 0 ∨ iy d = 0 ∨ iz d = 0).

(** A scalar field that is the same everywhere in the volume. *)
Definition constant_samples (volume : Volume) (v : float) : Prop :=
  ∀ x y z, in_volume (vol_dims volume) x y z → getVoxel volume x y z = v.

(** The array of a gradient volume holds zero voxels only. *)
Definition all_zero (gv : GradientVolume) : Prop :=
  m_data gv = replicate (Z.to_nat (voxel_count (m_dim gv))) zeroVoxel.

(** Further sample inputs: a slab two voxels thick whose samples are NaN,
    and a volume with an empty axis. *)
Definition nan_slab : Volume :=
  mkVolume (IVec3 2 3 3) (fun _ _ _ => S754_nan).

Definition hollow_volume : Volume :=
  mkVolume (IVec3 5 0 3) (fun _ _ _ => F32.one).

(** The gradient volume of [constant_volume], in Linear mode, and a
    gradient volume two voxels thick. *)
Definition flat_gradient : GradientVolume :=
  Eval vm_compute in
    match GradientVolume_new constant_volume Linear with
    | Ok gv => gv
    | _ => mkGradientVolume (IVec3 0 0 0) [] F32.zero F32.zero Linear
    end.

Definition slab_gradient : GradientVolume :=
  Eval vm_compute in
    match GradientVolume_new nan_slab Linear with
    | Ok gv => gv
    | _ => mkGradientVolume (IVec3 0 0 0) [] F32.zero F32.zero Linear
    end.

(** A component on which [static_cast<int>(v + 0.5f)] is compared with
    [round_half_up]: below [2^23], and not the largest float below
    [0.5f]. *)
Definition f32_two_23 : float := S754_finite false 8388608 0.

Definition rounds_exactly (c : float) : Prop :=
  F32.ltb c f32_two_23 = true ∧ c ≠ f32_below_half.

Definition rounds_exactly3 (v : vec3) : Prop :=
  rounds_exactly (vx v) ∧ rounds_exactly (vy v) ∧ rounds_exactly (vz v).

(** [1.25f], [0.75f], [FLT_MAX] and [-FLT_MAX]. *)
Definition f32_one_and_quarter : float := S754_finite false 10485760 (-23).
Definition f32_three_quarters : float := S754_finite false 12582912 (-24).

(** Volumes whose voxel count is no [int]: 1291^3 is above [INT_MAX] and
    wraps to a negative [int]; 65536 * 65536 * 1 wraps to 0. *)
Definition overflowing_volume : Volume :=
  mkVolume (IVec3 1291 1291 1291) (fun _ _ _ => F32.one).

Definition wrapping_volume : Volume :=
  mkVolume (IVec3 65536 65536 1) (fun _ _ _ => F32.one).

(** A 4 x 3 x 3 ramp whose last plane of samples is NaN, and a 3 x 3 x 3
    volume that steps from [-FLT_MAX] to [FLT_MAX] along x. *)
Definition nan_plane_volume : Volume :=
  mkVolume (IVec3 4 3 3) (fun x _ _ => if x =? 3 then S754_nan else F32.of_int x).


(** Query coordinates: one with a NaN component, one just below one half
    along x, and one that rounds to the centre of the ramp. *)
Definition nan_coordinate : vec3 := Vec3 F32.one F32.one S754_nan.
Definition below_half_coordinate : vec3 := Vec3 f32_below_half F32.one F32.one.
Definition ramp_near_centre : vec3 := Vec3 f32_one_and_quarter f32_three_quarters F32.one.

(* ===================================================================== *)
(** * The embedding at work                                                *)
(* ===================================================================== *)

Example of_int_three : F32.of_int 3 = S754_finite false 12582912 (-22).
Proof. reflexivity. Qed.

Example of_int_rounds_to_even :
  F32.of_int 16777217 = F32.of_int 16777216 ∧ F32.of_int 16777219 = F32.of_int 16777220.
Proof. split; reflexivity. Qed.

Example floor_and_ceil_of_two_and_half :
  F32.to_int (F32.floor f32_two_and_half) = Ok 2 ∧
  F32.to_int (F32.ceil f32_two_and_half) = Ok 3 ∧
  F32.to_int f32_two_and_half = Ok 2 ∧
  roundToPositiveInt f32_two_and_half = Ok 3.
Proof. repeat split; reflexivity. Qed.

(** The sum [v + 0.5f] is itself rounded: just below one half it is [1.0f],
    and the nearest-neighbour lookup goes to 1. *)
Example round_half_up_just_below_half :
  F32.valid f32_below_half = true ∧ F32.ltb f32_below_half F32.half = true ∧
  F32.add f32_below_half F32.half = F32.one ∧
  roundToPositiveInt f32_below_half = Ok 1 ∧ floor_to_int f32_below_half = Ok 0 ∧
  round_half_up f32_below_half = Ok 0.
Proof. repeat split; reflexivity. Qed.

Example wrap_past_INT_MAX : Int.add Int.INT_MAX 1 = Int.INT_MIN.
Proof. reflexivity. Qed.

(** A field that grows by one per voxel along x has the interior gradient
    (1, 0, 0) of magnitude 1. *)
Example ramp_interior_gradient :
  GradientVolume_new ramp_volume Linear = Ok ramp_gradient ∧
  getGradient ramp_gradient 1 1 1 = Ok unit_x ∧
  getGradient ramp_gradient 0 1 1 = Ok zeroVoxel ∧
  minMagnitude ramp_gradient = F32.zero ∧ maxMagnitude ramp_gradient = F32.one.
Proof. repeat split; vm_compute; reflexivity. Qed.

(** A constant field has zero gradients throughout. *)
Example constant_volume_is_flat :
  ∃ gv, GradientVolume_new constant_volume Linear = Ok gv ∧
        Forall (eq zeroVoxel) (m_data gv) ∧
        minMagnitude gv = F32.zero ∧ maxMagnitude gv = F32.zero.
Proof.
  eexists. split; [vm_compute; reflexivity|]. split; [|split; reflexivity].
  repeat constructor.
Qed.

(** Half way between lattice points the trilinear query blends. *)
Example trilinear_off_lattice :
  getGradientLinearInterpolate ramp_gradient ramp_off_lattice
  = Ok (mkVoxel (Vec3 (S754_finite false 8388608 (-26)) F32.zero F32.zero)
                (S754_finite false 8388608 (-26))).
Proof. vm_compute. reflexivity. Qed.

(** A mode the switch does not know makes the query throw. *)
Example unknown_mode_throws :
  getGradientInterpolate (with_mode ramp_gradient OtherMode) ramp_centre = Thrown.
Proof. reflexivity. Qed.

(* ===================================================================== *)
(** * Facts about binary32 arithmetic                                      *)
(* ===================================================================== *)

(** ** Number of binary digits *)

Lemma digits2_pos_size p : digits2_pos p = Pos.size p.
Proof. induction p; simpl; congruence. Qed.

Lemma digits2_pos_bounds p :
  2 ^ (Zpos (digits2_pos p) - 1) ≤ Zpos p < 2 ^ Zpos (digits2_pos p).
Proof.
  rewrite digits2_pos_size. split.
  - pose proof (Pos.size_le p) as H.
    assert (2 ^ Zpos (Pos.size p) ≤ 2 * Zpos p) as H'.
    { change 2 with (Zpos 2) at 1. rewrite <- Pos2Z.inj_pow. lia. }
    replace (Zpos (Pos.size p)) with (Z.succ (Zpos (Pos.size p) - 1)) in H' by lia.
    rewrite Z.pow_succ_r in H' by lia. lia.
  - pose proof (Pos.size_gt p) as H.
    change 2 with (Zpos 2). rewrite <- Pos2Z.inj_pow. lia.
Qed.

(** The digit count is determined by the binade. *)
Lemma digits2_pos_unique p (n : Z) :
  2 ^ (n - 1) ≤ Zpos p < 2 ^ n → Zpos (digits2_pos p) = n.
Proof.
  intros [Hlo Hhi]. pose proof (digits2_pos_bounds p) as [Hlo' Hhi'].
  assert (0 < n).
  { destruct (Z.lt_trichotomy n 0) as [?|[->|?]]; [|simpl in *; lia|done].
    rewrite Z.pow_neg_r in Hhi by lia. lia. }
  destruct (Z.lt_trichotomy (Zpos (digits2_pos p)) n) as [Hlt|[?|Hgt]]; [|done|].
  - assert (2 ^ Zpos (digits2_pos p) ≤ 2 ^ (n - 1)) by (apply Z.pow_le_mono_r; lia). lia.
  - assert (2 ^ n ≤ 2 ^ (Zpos (digits2_pos p) - 1)) by (apply Z.pow_le_mono_r; lia). lia.
Qed.

(** ** Shifts *)

Lemma pos_iter_xO m k : Zpos (Pos.iter xO m k) = Zpos m * 2 ^ Zpos k.
Proof.
  revert m. induction k using Pos.peano_ind; intros m.
  - simpl. lia.
  - rewrite Pos.iter_succ. rewrite Pos2Z.inj_xO, IHk, Pos2Z.inj_succ, Z.pow_succ_r by lia. lia.
Qed.

Lemma shl_align_spec m e e' :
  shl_align m e e' =
    if e' <? e then (Z.to_pos (Zpos m * 2 ^ (e - e')), e') else (m, e).
Proof.
  unfold shl_align. destruct (Z.ltb_spec e' e) as [Hlt|Hge].
  - destruct (e' - e) as [|k|k] eqn:Hk; try lia.
    f_equal. assert (e - e' = Zpos k) as -> by lia.
    rewrite <- pos_iter_xO. done.
  - destruct (e' - e) as [|k|k] eqn:Hk; try lia; done.
Qed.

Lemma iter_pos_nat {A} (f : A → A) p x :
  SpecFloat.iter_pos f p x = Nat.iter (Pos.to_nat p) f x.
Proof.
  revert x. induction p as [p IH|p IH|]; intros x.
  - change (SpecFloat.iter_pos f p (SpecFloat.iter_pos f p (f x)) = Nat.iter (Pos.to_nat p~1) f x).
    rewrite !IH, Pos2Nat.inj_xI, Nat.iter_succ_r.
    replace (2 * Pos.to_nat p)%nat with (Pos.to_nat p + Pos.to_nat p)%nat by lia.
    rewrite Nat.iter_add. done.
  - change (SpecFloat.iter_pos f p (SpecFloat.iter_pos f p x) = Nat.iter (Pos.to_nat p~0) f x).
    rewrite !IH, Pos2Nat.inj_xO.
    replace (2 * Pos.to_nat p)%nat with (Pos.to_nat p + Pos.to_nat p)%nat by lia.
    rewrite Nat.iter_add. done.
  - done.
Qed.

(** ** Rounding never yields NaN *)

Lemma shr_1_nonneg r : 0 ≤ shr_m r → 0 ≤ shr_m (shr_1 r).
Proof. destruct r as [[|[p|p|]|p] r s]; simpl; lia. Qed.

Lemma shr_nonneg r e n : 0 ≤ shr_m r → 0 ≤ shr_m (fst (shr r e n)).
Proof.
  intros H. unfold shr. destruct n as [|p|p]; simpl; try done.
  rewrite iter_pos_nat. apply Nat.iter_invariant; [|done]. apply shr_1_nonneg.
Qed.

Lemma shr_fexp_nonneg m e l : 0 ≤ m → 0 ≤ shr_m (fst (shr_fexp F32.prec F32.emax m e l)).
Proof.
  intros H. unfold shr_fexp. apply shr_nonneg. destruct l as [|[]]; simpl; done.
Qed.

Lemma round_nearest_even_nonneg m l : 0 ≤ m → 0 ≤ round_nearest_even m l.
Proof.
  intros H. unfold round_nearest_even. destruct l as [|[]]; try lia.
  destruct (Z.even m); lia.
Qed.

Lemma binary_round_aux_sign s m e l :
  0 ≤ m → has_sign s (binary_round_aux F32.prec F32.emax s m e l).
Proof.
  intros H. unfold binary_round_aux.
  pose proof (shr_fexp_nonneg m e l H) as H1.
  destruct (shr_fexp F32.prec F32.emax m e l) as [r1 e1]. simpl in H1.
  pose proof (shr_fexp_nonneg (round_nearest_even (shr_m r1) (loc_of_shr_record r1)) e1 loc_Exact
                (round_nearest_even_nonneg _ _ H1)) as H2.
  destruct (shr_fexp F32.prec F32.emax _ e1 loc_Exact) as [r2 e2]. simpl in H2.
  unfold has_sign. destruct (shr_m r2) as [|p|p]; [by left| |lia].
  destruct (e2 <=? F32.emax - F32.prec); [right; right; eauto|right; by left].
Qed.

Lemma binary_round_sign s m e : has_sign s (binary_round F32.prec F32.emax s m e).
Proof.
  unfold binary_round. destruct (shl_align m e _) as [mz ez].
  apply binary_round_aux_sign. lia.
Qed.

Lemma has_sign_nonneg x : has_sign false x → nonneg x = true.
Proof. intros [->|[->|(m & e & ->)]]; done. Qed.

Lemma has_sign_not_nan s x : has_sign s x → F32.is_nan x = false.
Proof. intros [->|[->|(m & e & ->)]]; done. Qed.

Lemma nonneg_not_nan x : nonneg x = true → F32.is_nan x = false.
Proof. destruct x; done. Qed.

Lemma binary_normalize_not_nan m e sz :
  F32.is_nan (binary_normalize F32.prec F32.emax m e sz) = false.
Proof.
  destruct m as [|p|p]; simpl; [done| |]; eapply has_sign_not_nan, binary_round_sign.
Qed.

Lemma of_int_not_nan n : F32.is_nan (F32.of_int n) = false.
Proof. apply binary_normalize_not_nan. Qed.

(** ** Which operations keep away from NaN *)

Lemma sub_finite_not_nan x y :
  F32.is_finite x = true → F32.is_finite y = true → F32.is_nan (F32.sub x y) = false.
Proof.
  destruct x as [sx|sx| |sx mx ex], y as [sy|sy| |sy my ey]; try done; intros _ _.
  - by destruct sx, sy.
  - apply binary_normalize_not_nan.
Qed.

Lemma div_two_not_nan x : F32.is_nan x = false → F32.is_nan (F32.div x F32.two) = false.
Proof.
  destruct x as [sx|sx| |sx mx ex]; try done. intros _.
  unfold F32.div, F32.two, SFdiv.
  destruct (SFdiv_core_binary _ _ _ _ _ _) as [[mz ez] lz] eqn:Hcore.
  eapply has_sign_not_nan, binary_round_aux_sign.
  unfold SFdiv_core_binary in Hcore.
  set (m' := match _ - _ - _ with 0 => Zpos mx | Zpos _ => Z.shiftl (Zpos mx) _ | Zneg _ => 0 end)
    in Hcore.
  assert (0 ≤ m') as Hm'.
  { subst m'. destruct (_ - _ - _); [lia| |lia]. apply Z.shiftl_nonneg. lia. }
  destruct (Z.div_eucl m' 8388608) as [q r] eqn:Hdiv.
  injection Hcore as <- _ _.
  assert (q = m' / 8388608) as -> by (unfold Z.div; by rewrite Hdiv).
  apply Z.div_pos; lia.
Qed.

Lemma mul_self_nonneg x : F32.is_nan x = false → nonneg (F32.mul x x) = true.
Proof.
  destruct x as [sx|sx| |sx mx ex]; try done; intros _; unfold F32.mul, SFmul.
  - by destruct sx.
  - apply has_sign_nonneg. rewrite xorb_nilpotent.
    apply binary_round_aux_sign. lia.
Qed.

Lemma add_nonneg x y : nonneg x = true → nonneg y = true → nonneg (F32.add x y) = true.
Proof.
  destruct x as [sx|sx| |sx mx ex], y as [sy|sy| |sy my ey]; try done; simpl;
    try (by destruct sx, sy).
  intros Hx Hy. destruct sx, sy; try done.
  apply has_sign_nonneg. unfold F32.add, SFadd. cbv [cond_Zopp].
  rewrite <- Pos2Z.inj_add. simpl. apply binary_round_sign.
Qed.

Lemma sqrt_nonneg x : nonneg x = true → nonneg (F32.sqrt x) = true.
Proof.
  destruct x as [sx|sx| |sx mx ex]; try done; simpl; [by destruct sx|].
  destruct sx; [done|]. intros _. unfold F32.sqrt, SFsqrt.
  destruct (SFsqrt_core_binary _ _ _ _) as [[mz ez] lz] eqn:Hcore.
  apply has_sign_nonneg, binary_round_aux_sign.
  unfold SFsqrt_core_binary in Hcore.
  set (m' := match _ - _ with 0 => Zpos mx | Zpos _ => Z.shiftl (Zpos mx) _ | Zneg _ => 0 end)
    in Hcore.
  destruct (Z.sqrtrem m') as [q r] eqn:Hsq.
  injection Hcore as <- _ _.
  pose proof (Z.sqrtrem_sqrt m') as Hs. rewrite Hsq in Hs. simpl in Hs. subst q.
  apply Z.sqrt_nonneg.
Qed.

Lemma length_nonneg v :
  F32.is_nan (vx v) = false → F32.is_nan (vy v) = false → F32.is_nan (vz v) = false →
  nonneg (Glm.length v) = true.
Proof.
  intros Hx Hy Hz. unfold Glm.length, Glm.dot.
  apply sqrt_nonneg, add_nonneg; [apply add_nonneg|]; by apply mul_self_nonneg.
Qed.

(** ** The order on floats *)

Lemma lex_compare_spec a b :
  match lex_compare a b with
  | Lt => lex_lt a b
  | Eq => a = b
  | Gt => lex_lt b a
  end.
Proof.
  destruct a as [[a1 a2] a3], b as [[b1 b2] b3]. unfold lex_compare, lex_lt. simpl.
  destruct (Z.compare_spec a1 b1); [|lia|lia].
  destruct (Z.compare_spec a2 b2); [|lia|lia].
  destruct (Z.compare_spec a3 b3); [congruence|lia|lia].
Qed.

Lemma SFcompare_key x y :
  F32.is_nan x = false → F32.is_nan y = false →
  SFcompare x y = Some (lex_compare (order_key x) (order_key y)).
Proof.
  destruct x as [sx|sx| |sx mx ex], y as [sy|sy| |sy my ey]; try done; intros _ _;
    try (by destruct sx, sy).
  destruct sx, sy; try done; unfold lex_compare; simpl; rewrite ?Z.compare_opp;
    destruct (ex ?= ey) eqn:He; try done; try (rewrite (Z.compare_antisym ex ey), ?He); done.
Qed.

Lemma leb_key x y :
  F32.is_nan x = false → F32.is_nan y = false →
  F32.leb x y = true ↔ lex_le (order_key x) (order_key y).
Proof.
  intros Hx Hy. unfold F32.leb, SFleb. rewrite SFcompare_key by done.
  pose proof (lex_compare_spec (order_key x) (order_key y)) as H.
  destruct (lex_compare _ _).
  - rewrite H. unfold lex_le. split; [lia|done].
  - unfold lex_lt, lex_le in *. split; [lia|done].
  - unfold lex_lt, lex_le in *. split; [done|lia].
Qed.

Lemma ltb_key x y :
  F32.is_nan x = false → F32.is_nan y = false →
  F32.ltb x y = true ↔ lex_lt (order_key x) (order_key y).
Proof.
  intros Hx Hy. unfold F32.ltb, SFltb. rewrite SFcompare_key by done.
  pose proof (lex_compare_spec (order_key x) (order_key y)) as H.
  destruct (lex_compare _ _).
  - rewrite H. unfold lex_lt. split; [done|lia].
  - split; done.
  - unfold lex_lt in *. split; [done|lia].
Qed.

Lemma leb_nan_l x y : F32.leb x y = true → F32.is_nan x = false.
Proof. destruct x, y; done. Qed.

Lemma leb_nan_r x y : F32.leb x y = true → F32.is_nan y = false.
Proof. destruct x as [| | |], y as [| | |]; done. Qed.

Lemma leb_refl x : F32.is_nan x = false → F32.leb x x = true.
Proof. intros H. apply leb_key; [done..|]. unfold lex_le. lia. Qed.

Lemma leb_trans x y z : F32.leb x y = true → F32.leb y z = true → F32.leb x z = true.
Proof.
  intros Hxy Hyz.
  pose proof (leb_nan_l _ _ Hxy). pose proof (leb_nan_r _ _ Hxy).
  pose proof (leb_nan_r _ _ Hyz).
  apply leb_key in Hxy; [|done..]. apply leb_key in Hyz; [|done..].
  apply leb_key; [done..|]. unfold lex_le in *. lia.
Qed.

Lemma ltb_leb x y : F32.ltb x y = true → F32.leb x y = true.
Proof. unfold F32.ltb, F32.leb, SFltb, SFleb. by destruct (SFcompare x y) as [[]|]. Qed.

Lemma not_ltb_leb x y :
  F32.is_nan x = false → F32.is_nan y = false → F32.ltb x y = false → F32.leb y x = true.
Proof.
  intros Hx Hy Hlt. apply leb_key; [done..|].
  destruct (decide (lex_lt (order_key x) (order_key y))) as [H|H].
  - apply ltb_key in H; [congruence|done..].
  - unfold lex_lt, lex_le in *. lia.
Qed.

(** ** Right shifts and rounding to nearest *)

Lemma shr_tracks_start n : 0 ≤ n → shr_tracks n 0 (Build_shr_record n false false).
Proof. intros H. split; [done|]. exists 0. simpl. split; [lia|]. split; [lia|]. split; [done|lia]. Qed.

Lemma shr_1_tracks n k r : 0 ≤ k → shr_tracks n k r → shr_tracks n (k + 1) (shr_1 r).
Proof.
  intros Hk (Hm & low & Hlow & Heq & Hs).
  assert (2 ^ (k + 1) = 2 * 2 ^ k) as Hpow by (rewrite Z.pow_add_r by lia; lia).
  assert (0 < 2 ^ k) as Hpos by (apply Z.pow_pos_nonneg; lia).
  destruct r as [m r s]. simpl in *.
  assert (∀ (m' : Z) (r' : bool), m = 2 * m' + Z.b2z r' → 0 ≤ m' →
            shr_tracks n (k + 1) (Build_shr_record m' r' (r || s))) as Hgoal.
  { intros m' r' Hm' Hm'0. split; [done|]. exists (2 ^ k * Z.b2z r + low). simpl.
    rewrite Hpow. split; [destruct r; simpl; lia|]. split; [nia|].
    destruct r, s; simpl; split; try done; try lia; intros; apply Hs; lia. }
  destruct m as [|[p|p|]|p]; try lia.
  - apply (Hgoal 0 false); simpl; lia.
  - apply (Hgoal (Zpos p) true); simpl; lia.
  - apply (Hgoal (Zpos p) false); simpl; lia.
  - apply (Hgoal 0 true); simpl; lia.
Qed.

Lemma shr_iter_tracks n (j : nat) r :
  shr_tracks n 0 r → shr_tracks n (Z.of_nat j) (Nat.iter j shr_1 r).
Proof.
  intros H0. induction j as [|j IH]; [done|].
  rewrite Nat2Z.inj_succ. simpl. unfold Z.succ. apply shr_1_tracks; [lia|done].
Qed.

Lemma shr_exact_start n e k :
  0 ≤ n → 0 ≤ k →
  ∃ r, shr (Build_shr_record n false false) e k = (r, e + k) ∧ shr_tracks n k r.
Proof.
  intros Hn Hk. unfold shr. destruct k as [|p|p]; [| |lia].
  - eexists. split; [f_equal; lia|]. by apply shr_tracks_start.
  - eexists. split; [done|]. rewrite iter_pos_nat.
    rewrite <- (positive_nat_Z p). apply shr_iter_tracks. by apply shr_tracks_start.
Qed.

Lemma round_nearest_even_tracks n k r :
  0 ≤ k → shr_tracks n k r →
  round_nearest_even (shr_m r) (loc_of_shr_record r) = rne n k.
Proof.
  intros Hk (Hm & low & Hlow & Heq & Hs).
  assert (0 < 2 ^ k) as Hpos by (apply Z.pow_pos_nonneg; lia).
  destruct r as [m r s]. simpl in *.
  set (rem := n - 2 ^ k * m).
  assert (2 * rem = 2 ^ k * Z.b2z r + low) as Hrem by (unfold rem; lia).
  assert (0 ≤ rem < 2 ^ k) as Hrem_b by (destruct r; simpl in *; lia).
  assert (n / 2 ^ k = m ∧ n mod 2 ^ k = rem) as [Hq Hr].
  { symmetry in Hrem. assert (n = 2 ^ k * m + rem) as Hn by (unfold rem; lia).
    split; [symmetry; apply (Z.div_unique_pos n (2 ^ k) m rem)|
            symmetry; apply (Z.mod_unique_pos n (2 ^ k) m rem)]; done. }
  unfold rne. rewrite Hq, Hr.
  destruct r, s; simpl in *.
  - assert (0 < low) by (apply Hs; done).
    destruct (Z.compare_spec (2 * rem) (2 ^ k)); lia.
  - assert (¬ 0 < low) by (intros ?; assert (false = true) by (apply Hs; done); done).
    destruct (Z.compare_spec (2 * rem) (2 ^ k)); lia.
  - destruct (Z.compare_spec (2 * rem) (2 ^ k)); lia.
  - destruct (Z.compare_spec (2 * rem) (2 ^ k)); lia.
Qed.

(** ** Rounding to nearest on integers *)

Lemma rne_zero_shift n : rne n 0 = n.
Proof.
  unfold rne. simpl. rewrite Z.div_1_r, Z.mod_1_r. done.
Qed.

Lemma rne_scale n j k : 0 ≤ j → 0 ≤ k → rne (n * 2 ^ j) (k + j) = rne n k.
Proof.
  intros Hj Hk. unfold rne.
  assert (0 < 2 ^ j) by (apply Z.pow_pos_nonneg; lia).
  assert (0 < 2 ^ k) by (apply Z.pow_pos_nonneg; lia).
  rewrite Z.pow_add_r by lia.
  rewrite Z.div_mul_cancel_r by lia.
  rewrite Z.mul_mod_distr_r by lia.
  assert ((2 * (n mod 2 ^ k * 2 ^ j) ?= 2 ^ k * 2 ^ j) = (2 * (n mod 2 ^ k) ?= 2 ^ k)) as ->.
  { destruct (Z.compare_spec (2 * (n mod 2 ^ k)) (2 ^ k)) as [E|E|E].
    - apply Z.compare_eq_iff. nia.
    - apply Z.compare_lt_iff. nia.
    - apply Z.compare_gt_iff. nia. }
  done.
Qed.

Lemma rne_exact a k : 0 ≤ k → rne (a * 2 ^ k) k = a.
Proof.
  intros Hk. rewrite <- (rne_zero_shift a) at 2.
  rewrite <- (rne_scale a k 0) by lia. done.
Qed.

Lemma rne_mono n1 n2 k : 0 ≤ k → n1 ≤ n2 → rne n1 k ≤ rne n2 k.
Proof.
  intros Hk Hle. unfold rne.
  assert (0 < 2 ^ k) as Hpos by (apply Z.pow_pos_nonneg; lia).
  pose proof (Z.div_mod n1 (2 ^ k) ltac:(lia)) as E1.
  pose proof (Z.div_mod n2 (2 ^ k) ltac:(lia)) as E2.
  pose proof (Z.mod_pos_bound n1 (2 ^ k) Hpos) as B1.
  pose proof (Z.mod_pos_bound n2 (2 ^ k) Hpos) as B2.
  set (q1 := n1 / 2 ^ k) in *. set (q2 := n2 / 2 ^ k) in *.
  set (r1 := n1 mod 2 ^ k) in *. set (r2 := n2 mod 2 ^ k) in *.
  assert (q1 ≤ q2) as Hq by (apply Z.div_le_mono; lia).
  destruct (Z.compare_spec (2 * r1) (2 ^ k)), (Z.compare_spec (2 * r2) (2 ^ k));
    destruct (Z.even q1) eqn:Ev1, (Z.even q2) eqn:Ev2; try nia;
    destruct (decide (q1 = q2)) as [Heq|Hne]; try nia;
    rewrite Heq in Ev1; congruence.
Qed.

Lemma rne_lower a n k : 0 ≤ k → a * 2 ^ k ≤ n → a ≤ rne n k.
Proof. intros Hk H. rewrite <- (rne_exact a k Hk). by apply rne_mono. Qed.

Lemma rne_upper b n k : 0 ≤ k → n ≤ b * 2 ^ k → rne n k ≤ b.
Proof. intros Hk H. rewrite <- (rne_exact b k Hk). by apply rne_mono. Qed.

(** ** What [binary_round] computes *)

Lemma fexp_32 e : fexp F32.prec F32.emax e = Z.max (e - 24) (-149).
Proof. reflexivity. Qed.

Lemma shr_nop r e n : n ≤ 0 → shr r e n = (r, e).
Proof. intros H. unfold shr. destruct n; [done|lia|done]. Qed.

Lemma digits2_pos_shift m j :
  0 ≤ j → Zpos (digits2_pos (Z.to_pos (Zpos m * 2 ^ j))) = Zpos (digits2_pos m) + j.
Proof.
  intros Hj. pose proof (digits2_pos_bounds m) as [Hlo Hhi].
  assert (0 < 2 ^ j) by (apply Z.pow_pos_nonneg; lia).
  apply digits2_pos_unique. rewrite Z2Pos.id by nia.
  replace (Zpos (digits2_pos m) + j - 1) with (Zpos (digits2_pos m) - 1 + j) by lia.
  rewrite !Z.pow_add_r by lia. nia.
Qed.

Lemma second_shift s q fe :
  0 ≤ q ≤ 16777216 → -149 ≤ fe →
  (let '(mrs, e) := shr_fexp F32.prec F32.emax q fe loc_Exact in
   match shr_m mrs with
   | 0 => S754_zero s
   | Zpos m => if e <=? F32.emax - F32.prec then S754_finite s m e else S754_infinity s
   | Zneg _ => S754_nan
   end) = pack s q fe.
Proof.
  intros Hq Hfe. unfold shr_fexp, pack. rewrite fexp_32.
  destruct (Z.eqb_spec q 0) as [->|Hq0].
  { simpl Zdigits2. rewrite shr_nop by lia. done. }
  destruct (Z.eqb_spec q 16777216) as [->|Hq1].
  { change (Zdigits2 16777216) with 25.
    replace (Z.max (25 + fe - 24) (-149) - fe) with 1 by lia. done. }
  destruct q as [|p|p]; [done| |lia]. simpl Zdigits2.
  pose proof (digits2_pos_bounds p) as [Hlo Hhi].
  assert (Zpos (digits2_pos p) ≤ 24).
  { destruct (Z.le_gt_cases (Zpos (digits2_pos p)) 24) as [?|Hgt]; [done|].
    assert (2 ^ 24 ≤ 2 ^ (Zpos (digits2_pos p) - 1)) by (apply Z.pow_le_mono_r; lia).
    change (2 ^ 24) with 16777216 in *. lia. }
  rewrite shr_nop by lia. simpl. done.
Qed.

Lemma binary_round_aux_exact s (N : positive) ez :
  ez ≤ Z.max (Zpos (digits2_pos N) + ez - 24) (-149) →
  binary_round_aux F32.prec F32.emax s (Zpos N) ez loc_Exact =
    pack s (rne (Zpos N) (Z.max (Zpos (digits2_pos N) + ez - 24) (-149) - ez))
           (Z.max (Zpos (digits2_pos N) + ez - 24) (-149)).
Proof.
  intros Hle. set (fe := Z.max (Zpos (digits2_pos N) + ez - 24) (-149)) in *.
  destruct (shr_exact_start (Zpos N) ez (fe - ez)) as (r & Hshr & Htr); [lia..|].
  assert (shr_fexp F32.prec F32.emax (Zpos N) ez loc_Exact = (r, fe)) as Hfirst.
  { unfold shr_fexp. rewrite fexp_32. simpl Zdigits2. fold fe. simpl shr_record_of_loc.
    rewrite Hshr. f_equal. lia. }
  unfold binary_round_aux. rewrite Hfirst.
  rewrite (round_nearest_even_tracks (Zpos N) (fe - ez) r) by (done || lia).
  apply second_shift; [|lia].
  pose proof (digits2_pos_bounds N) as [Hlo Hhi].
  split.
  - apply rne_lower; lia.
  - apply rne_upper; [lia|].
    assert (2 ^ Zpos (digits2_pos N) ≤ 2 ^ (24 + (fe - ez))) by (apply Z.pow_le_mono_r; lia).
    rewrite Z.pow_add_r in H by lia. change (2 ^ 24) with 16777216 in H. lia.
Qed.

Theorem binary_round_spec s m e :
  binary_round F32.prec F32.emax s m e = pack s (mant_at m e (round_exp m e)) (round_exp m e).
Proof.
  unfold binary_round. rewrite shl_align_spec, fexp_32. fold (round_exp m e).
  unfold mant_at. destruct (Z.ltb_spec (round_exp m e) e) as [Hlt|Hge].
  - pose proof (digits2_pos_shift m (e - round_exp m e) ltac:(lia)) as Hd.
    assert (0 < 2 ^ (e - round_exp m e)) by (apply Z.pow_pos_nonneg; lia).
    rewrite binary_round_aux_exact; rewrite Hd.
    + replace (Zpos (digits2_pos m) + (e - round_exp m e) + round_exp m e - 24)
        with (Zpos (digits2_pos m) + e - 24) by lia.
      fold (round_exp m e). rewrite Z.sub_diag, rne_zero_shift, Z2Pos.id by nia. done.
    + unfold round_exp in *. lia.
  - rewrite binary_round_aux_exact by (unfold round_exp in *; lia). done.
Qed.

Lemma mant_at_common m e fe e0 :
  e0 ≤ e → e0 ≤ fe → mant_at m e fe = rne (Zpos m * 2 ^ (e - e0)) (fe - e0).
Proof.
  intros He Hfe. unfold mant_at. destruct (Z.ltb_spec fe e) as [Hlt|Hge].
  - replace (e - e0) with ((e - fe) + (fe - e0)) by lia.
    rewrite Z.pow_add_r, Z.mul_assoc by lia. rewrite rne_exact by lia. done.
  - replace (fe - e0) with ((fe - e) + (e - e0)) by lia.
    rewrite rne_scale by lia. done.
Qed.

Lemma scaled_bounds m e e0 :
  e0 ≤ e →
  2 ^ (Zpos (digits2_pos m) - 1 + (e - e0)) ≤ Zpos m * 2 ^ (e - e0)
    < 2 ^ (Zpos (digits2_pos m) + (e - e0)).
Proof.
  intros He. pose proof (digits2_pos_bounds m) as [Hlo Hhi].
  assert (0 < 2 ^ (e - e0)) by (apply Z.pow_pos_nonneg; lia).
  rewrite !Z.pow_add_r by lia. nia.
Qed.

Lemma mant_at_bounds m e :
  0 ≤ mant_at m e (round_exp m e) ≤ 16777216 ∧
  (-149 ≤ Zpos (digits2_pos m) + e - 24 → 8388608 ≤ mant_at m e (round_exp m e)).
Proof.
  set (fe := round_exp m e). set (e0 := Z.min e fe).
  rewrite (mant_at_common m e fe e0) by lia.
  pose proof (scaled_bounds m e e0 ltac:(lia)) as [Hlo Hhi].
  assert (Zpos (digits2_pos m) + e - 24 ≤ fe) as Hfe by (unfold fe, round_exp; lia).
  split; [split|].
  - apply rne_lower; lia.
  - apply rne_upper; [lia|]. change 16777216 with (2 ^ 24). rewrite <- Z.pow_add_r by lia.
    assert (2 ^ (Zpos (digits2_pos m) + (e - e0)) ≤ 2 ^ (24 + (fe - e0)))
      by (apply Z.pow_le_mono_r; lia).
    lia.
  - intros Hnormal. assert (fe = Zpos (digits2_pos m) + e - 24) as Hfe'
      by (unfold fe, round_exp; lia).
    apply rne_lower; [lia|]. change 8388608 with (2 ^ 23). rewrite <- Z.pow_add_r by lia.
    replace (23 + (fe - e0)) with (Zpos (digits2_pos m) - 1 + (e - e0)) by lia. done.
Qed.

Lemma pack_leb q1 e1 q2 e2 :
  0 ≤ q1 ≤ 16777216 → 0 ≤ q2 ≤ 16777216 →
  (e1 = e2 ∧ q1 ≤ q2) ∨ (e1 < e2 ∧ 8388608 ≤ q2) →
  F32.leb (pack false q1 e1) (pack false q2 e2) = true.
Proof.
  intros H1 H2 Hcmp. unfold pack.
  destruct (Z.eqb_spec q1 0), (Z.eqb_spec q2 0), (Z.eqb_spec q1 16777216),
    (Z.eqb_spec q2 16777216), (Z.leb_spec (e1 + 1) 104), (Z.leb_spec (e2 + 1) 104),
    (Z.leb_spec e1 104), (Z.leb_spec e2 104); try lia;
    (apply leb_key; [done|done|]); unfold lex_le; simpl; rewrite ?Z2Pos.id by lia; lia.
Qed.

(** Rounding is monotone: of two positive values, given by mantissa and
    exponent, the smaller one rounds to the smaller float. *)
Theorem binary_round_mono m1 e1 m2 e2 e0 :
  e0 ≤ e1 → e0 ≤ e2 →
  Zpos m1 * 2 ^ (e1 - e0) ≤ Zpos m2 * 2 ^ (e2 - e0) →
  F32.leb (binary_round F32.prec F32.emax false m1 e1)
          (binary_round F32.prec F32.emax false m2 e2) = true.
Proof.
  intros He1 He2 Hle. rewrite !binary_round_spec.
  pose proof (mant_at_bounds m1 e1) as [Hb1 Hn1].
  pose proof (mant_at_bounds m2 e2) as [Hb2 Hn2].
  pose proof (scaled_bounds m1 e1 e0 He1) as [Hlo1 _].
  pose proof (scaled_bounds m2 e2 e0 He2) as [_ Hhi2].
  assert (Zpos (digits2_pos m1) + e1 ≤ Zpos (digits2_pos m2) + e2) as Hd.
  { assert (2 ^ (Zpos (digits2_pos m1) - 1 + (e1 - e0)) < 2 ^ (Zpos (digits2_pos m2) + (e2 - e0)))
      as Hpow by lia.
    apply Z.pow_lt_mono_r_iff in Hpow; lia. }
  apply pack_leb; [done..|].
  destruct (decide (round_exp m1 e1 = round_exp m2 e2)) as [Heq|Hne].
  - left. split; [done|]. set (f0 := Z.min e0 (round_exp m1 e1)).
    rewrite (mant_at_common m1 e1 _ f0), (mant_at_common m2 e2 _ f0) by lia.
    rewrite Heq. apply rne_mono; [lia|].
    replace (e1 - f0) with ((e1 - e0) + (e0 - f0)) by lia.
    replace (e2 - f0) with ((e2 - e0) + (e0 - f0)) by lia.
    rewrite !Z.pow_add_r, !Z.mul_assoc by lia.
    assert (0 < 2 ^ (e0 - f0)) by (apply Z.pow_pos_nonneg; lia). nia.
  - right. unfold round_exp in *. split; [lia|]. apply Hn2. lia.
Qed.

(** Rounding a value that a float represents gives back that float. *)
Theorem binary_round_exact s M E m e e0 :
  bounded F32.prec F32.emax m e = true → e0 ≤ E → e0 ≤ e →
  Zpos M * 2 ^ (E - e0) = Zpos m * 2 ^ (e - e0) →
  binary_round F32.prec F32.emax s M E = S754_finite s m e.
Proof.
  intros Hb HE He Hval. rewrite binary_round_spec.
  unfold bounded, canonical_mantissa in Hb. rewrite fexp_32 in Hb.
  apply andb_true_iff in Hb as [Hcan Hmax].
  apply Z.eqb_eq in Hcan. apply Z.leb_le in Hmax. change (F32.emax - F32.prec) with 104 in Hmax.
  assert (Zpos (digits2_pos M) + E = Zpos (digits2_pos m) + e) as Hd.
  { pose proof (digits2_pos_shift M (E - e0) ltac:(lia)) as H1.
    pose proof (digits2_pos_shift m (e - e0) ltac:(lia)) as H2.
    rewrite Hval in H1. lia. }
  assert (round_exp M E = e) as Hfe by (unfold round_exp; lia).
  rewrite Hfe. rewrite (mant_at_common M E e e0) by lia.
  rewrite Hval, rne_exact by lia.
  pose proof (digits2_pos_bounds m) as [Hlo Hhi].
  assert (Zpos m < 16777216).
  { assert (2 ^ Zpos (digits2_pos m) ≤ 2 ^ 24) by (apply Z.pow_le_mono_r; lia).
    change (2 ^ 24) with 16777216 in *. lia. }
  unfold pack. destruct (Z.eqb_spec (Zpos m) 0); [lia|].
  destruct (Z.eqb_spec (Zpos m) 16777216); [lia|].
  destruct (Z.leb_spec e 104); [|lia]. done.
Qed.

(** ** Integers and floats *)

Lemma valid_mantissa s m e :
  F32.valid (S754_finite s m e) = true →
  Zpos m < 16777216 ∧ -149 ≤ e ≤ 104 ∧ (e = -149 ∨ Zpos (digits2_pos m) = 24).
Proof.
  unfold F32.valid, valid_binary, bounded, canonical_mantissa. rewrite fexp_32.
  intros H. apply andb_true_iff in H as [Hcan Hmax].
  apply Z.eqb_eq in Hcan. apply Z.leb_le in Hmax. change (F32.emax - F32.prec) with 104 in Hmax.
  pose proof (digits2_pos_bounds m) as [Hlo Hhi].
  assert (2 ^ Zpos (digits2_pos m) ≤ 2 ^ 24) by (apply Z.pow_le_mono_r; lia).
  change (2 ^ 24) with 16777216 in *. lia.
Qed.

Lemma floorZ_nonneg m e : 0 ≤ F32.floorZ false m e.
Proof.
  unfold F32.floorZ, F32.signed. simpl. destruct (0 <=? e).
  - apply Z.shiftl_nonneg. lia.
  - apply Z.shiftr_nonneg. lia.
Qed.

Lemma floorZ_le_ceilZ m e : F32.floorZ false m e ≤ F32.ceilZ false m e.
Proof.
  unfold F32.ceilZ, F32.floorZ, F32.signed. simpl. destruct (Z.leb_spec 0 e).
  - rewrite !Z.shiftl_mul_pow2 by lia. lia.
  - rewrite !Z.shiftr_div_pow2 by lia.
    assert (0 < 2 ^ (- e)) by (apply Z.pow_pos_nonneg; lia).
    pose proof (Z.div_mod (Zpos m) (2 ^ (- e)) ltac:(lia)).
    pose proof (Z.mod_pos_bound (Zpos m) (2 ^ (- e)) ltac:(lia)).
    pose proof (Z.div_mod (Zneg m) (2 ^ (- e)) ltac:(lia)).
    pose proof (Z.mod_pos_bound (Zneg m) (2 ^ (- e)) ltac:(lia)).
    nia.
Qed.

(** [ceil(m / 2^k) <= b] as soon as [m <= b * 2^k]. *)
Lemma ceilZ_upper m e b :
  e < 0 → Zpos m ≤ b * 2 ^ (- e) → F32.ceilZ false m e ≤ b.
Proof.
  intros He Hle. unfold F32.ceilZ, F32.floorZ, F32.signed. simpl.
  destruct (Z.leb_spec 0 e); [lia|].
  rewrite Z.shiftr_div_pow2 by lia.
  assert (0 < 2 ^ (- e)) by (apply Z.pow_pos_nonneg; lia).
  assert (- b ≤ Zneg m / 2 ^ (- e)); [|lia].
  apply Z.div_le_lower_bound; lia.
Qed.

Lemma to_int_of_int n : 0 < n ≤ 16777216 → F32.to_int (F32.of_int n) = Ok n.
Proof.
  intros Hn. destruct (decide (n = 16777216)) as [->|Hne]; [reflexivity|].
  destruct n as [|p|p]; try lia.
  pose proof (digits2_pos_bounds p) as [Hlo Hhi].
  set (d := Zpos (digits2_pos p)) in *.
  assert (d ≤ 24).
  { destruct (Z.le_gt_cases d 24) as [?|Hgt]; [done|].
    assert (2 ^ 24 ≤ 2 ^ (d - 1)) by (apply Z.pow_le_mono_r; lia).
    change (2 ^ 24) with 16777216 in *. lia. }
  assert (0 < 2 ^ (24 - d)) by (apply Z.pow_pos_nonneg; lia).
  unfold F32.of_int, binary_normalize.
  rewrite (binary_round_exact false p 0 (Z.to_pos (Zpos p * 2 ^ (24 - d))) (d - 24) (d - 24)).
  - unfold F32.to_int, F32.truncZ, F32.floorZ, F32.signed. simpl cond_Zopp.
    rewrite Z2Pos.id by nia.
    assert ((if 0 <=? d - 24 then Z.shiftl (Zpos p * 2 ^ (24 - d)) (d - 24)
             else Z.shiftr (Zpos p * 2 ^ (24 - d)) (- (d - 24))) = Zpos p) as ->.
    { destruct (Z.leb_spec 0 (d - 24)).
      - rewrite Z.shiftl_mul_pow2 by lia.
        replace (d - 24) with 0 by lia. replace (24 - d) with 0 by lia.
        change (2 ^ 0) with 1. lia.
      - rewrite Z.shiftr_div_pow2 by lia. replace (- (d - 24)) with (24 - d) by lia.
        apply Z.div_mul. lia. }
    unfold Int.in_rangeb, Int.INT_MIN, Int.INT_MAX.
    destruct (Z.leb_spec (-2147483648) (Zpos p)), (Z.leb_spec (Zpos p) 2147483647); try lia. done.
  - unfold bounded, canonical_mantissa. rewrite fexp_32.
    rewrite (digits2_pos_shift p (24 - d)) by lia. fold d.
    apply andb_true_iff. split; [apply Z.eqb_eq; lia|apply Z.leb_le].
    change (F32.emax - F32.prec) with 104. lia.
  - lia.
  - lia.
  - rewrite Z2Pos.id by nia. rewrite Z.sub_diag. change (2 ^ 0) with 1.
    rewrite Z.mul_1_r. replace (0 - (d - 24)) with (24 - d) by lia. done.
Qed.


Lemma sub_self s m e : F32.sub (S754_finite s m e) (S754_finite s m e) = S754_zero false.
Proof. unfold F32.sub, SFsub. rewrite Z.min_id, Z.sub_diag. done. Qed.

(* ===================================================================== *)
(** * The builder                                                          *)
(* ===================================================================== *)

(** ** Integers in range *)

Lemma wrap_in_range z : Int.in_range z → Int.wrap z = z.
Proof.
  unfold Int.in_range, Int.INT_MIN, Int.INT_MAX, Int.wrap. intros H.
  rewrite Z.mod_small by lia. lia.
Qed.

Lemma to_size_t_nonneg i : 0 ≤ i ≤ Int.INT_MAX → Int.to_size_t i = i.
Proof.
  unfold Int.to_size_t, Int.INT_MAX. intros H. apply Z.mod_small. lia.
Qed.

(** ** The monad and the loops *)

Lemma for_loop_nil {S} lo hi (body : Z → S → outcome S) s :
  hi ≤ lo → for_loop lo hi body s = Ok s.
Proof. intros H. unfold for_loop. rewrite seqZ_nil by lia. done. Qed.

Lemma for_loop_step {S} lo hi (body : Z → S → outcome S) s :
  lo < hi → for_loop lo hi body s = s' ← body lo s; for_loop (lo + 1) hi body s'.
Proof.
  intros H. unfold for_loop. rewrite seqZ_cons by lia. simpl.
  replace (Z.succ lo) with (lo + 1) by lia.
  replace (Z.pred (hi - lo)) with (hi - (lo + 1)) by lia. done.
Qed.

(** A loop whose body keeps an invariant [I i] returns, and the invariant
    holds at the exit value of the counter. *)
Lemma for_loop_invariant {S} (I : Z → S → Prop) lo hi (body : Z → S → outcome S) s :
  lo ≤ hi →
  I lo s →
  (∀ i t, lo ≤ i < hi → I i t → ∃ t', body i t = Ok t' ∧ I (i + 1) t') →
  ∃ s', for_loop lo hi body s = Ok s' ∧ I hi s'.
Proof.
  intros Hle. remember (Z.to_nat (hi - lo)) as n eqn:Hn.
  revert lo s Hle Hn. induction n as [|n IH]; intros lo s Hle Hn H0 Hbody.
  - assert (lo = hi) as -> by lia. exists s. rewrite for_loop_nil by lia. done.
  - assert (lo < hi) as Hlt by lia.
    destruct (Hbody lo s) as (t & Ht & HI); [lia|done|].
    destruct (IH (lo + 1) t) as (s' & Hs' & HI'); [lia|lia|done| |].
    + intros i u Hi. apply Hbody. lia.
    + exists s'. rewrite for_loop_step by done. rewrite Ht. done.
Qed.

(** ** The row-major index *)

Section Index.
Variable d : ivec3.
Hypothesis Hd : well_sized d.

Lemma flat_index_bounds x y z :
  in_volume d x y z → 0 ≤ flat_index d x y z < voxel_count d.
Proof.
  destruct Hd as (Hx & Hy & Hz & _). unfold in_volume, flat_index, voxel_count.
  intros (Hx' & Hy' & Hz'). split; [nia|].
  assert (y + iy d * z ≤ iy d * iz d - 1) by nia.
  assert (ix d * (y + iy d * z) ≤ ix d * (iy d * iz d - 1)) by nia.
  nia.
Qed.

Lemma flat_index_inj x y z x' y' z' :
  in_volume d x y z → in_volume d x' y' z' →
  flat_index d x y z = flat_index d x' y' z' → x = x' ∧ y = y' ∧ z = z'.
Proof.
  unfold in_volume, flat_index. intros (Hx & Hy & Hz) (Hx' & Hy' & Hz') Heq.
  assert (y + iy d * z = y' + iy d * z') as Hyz by nia.
  assert (z = z') by nia. subst z'.
  assert (y = y') by lia. subst y'. lia.
Qed.

Lemma linear_index_flat x y z :
  in_volume d x y z → linear_index d x y z = flat_index d x y z.
Proof.
  intros Hin. pose proof (flat_index_bounds _ _ _ Hin) as Hb.
  destruct Hd as (Hx & Hy & Hz & Hn). destruct Hin as (Hx' & Hy' & Hz').
  unfold flat_index, voxel_count, Int.INT_MAX in *.
  unfold linear_index, Int.add, Int.mul.
  assert (0 ≤ iy d * z ≤ 2147483647) by nia.
  rewrite (wrap_in_range (iy d * z)) by (unfold Int.in_range, Int.INT_MIN, Int.INT_MAX; lia).
  assert (0 ≤ y + iy d * z ≤ 2147483647) by nia.
  rewrite (wrap_in_range (y + iy d * z)) by (unfold Int.in_range, Int.INT_MIN, Int.INT_MAX; lia).
  assert (0 ≤ ix d * (y + iy d * z) ≤ 2147483647) by nia.
  rewrite (wrap_in_range (ix d * (y + iy d * z)))
    by (unfold Int.in_range, Int.INT_MIN, Int.INT_MAX; lia).
  apply wrap_in_range. unfold Int.in_range, Int.INT_MIN, Int.INT_MAX. lia.
Qed.

Lemma voxel_count_int : Int.mul (Int.mul (ix d) (iy d)) (iz d) = voxel_count d.
Proof.
  destruct Hd as (Hx & Hy & Hz & Hn). unfold voxel_count, Int.INT_MAX in *.
  unfold Int.mul.
  rewrite (wrap_in_range (ix d * iy d))
    by (unfold Int.in_range, Int.INT_MIN, Int.INT_MAX; nia).
  apply wrap_in_range. unfold Int.in_range, Int.INT_MIN, Int.INT_MAX. nia.
Qed.

Lemma extent_le_count :
  ix d ≤ voxel_count d ∧ iy d ≤ voxel_count d ∧ iz d ≤ voxel_count d.
Proof.
  destruct Hd as (Hx & Hy & Hz & _). unfold voxel_count.
  assert (1 ≤ ix d * iy d) by nia.
  assert (1 ≤ iy d * iz d) by nia.
  assert (1 ≤ ix d * iz d) by nia.
  repeat split; nia.
Qed.

Lemma extent_int k : 1 ≤ k → k ≤ voxel_count d → Int.sub k 1 = k - 1.
Proof.
  destruct Hd as (_ & _ & _ & Hn). unfold Int.INT_MAX in Hn. intros H1 H2.
  apply wrap_in_range. unfold Int.in_range, Int.INT_MIN, Int.INT_MAX. lia.
Qed.
End Index.

(** ** The builder *)

Section Builder.
Variable volume : Volume.
Local Abbreviation d := (vol_dims volume).
Hypothesis Hd : well_sized d.

Lemma centralDifference_interior x y z :
  interior d x y z → centralDifference volume x y z = central_differences volume x y z.
Proof.
  intros (Hx & Hy & Hz). destruct Hd as (Hdx & Hdy & Hdz & Hn).
  destruct (extent_le_count d Hd) as (Hcx & Hcy & Hcz).
  unfold Int.INT_MAX in Hn.
  unfold centralDifference, central_differences, Int.add, Int.sub.
  rewrite !wrap_in_range by (unfold Int.in_range, Int.INT_MIN, Int.INT_MAX; lia).
  done.
Qed.

Lemma filled_up_to_ext zk yk xk zk' yk' xk' out :
  (∀ x y z, in_volume d x y z → written d zk yk xk x y z ↔ written d zk' yk' xk' x y z) →
  filled_up_to volume zk yk xk out → filled_up_to volume zk' yk' xk' out.
Proof.
  intros Hiff (Hlen & Hget). split; [done|].
  intros x y z Hin. rewrite (Hget x y z Hin). f_equal.
  apply decide_ext, Hiff, Hin.
Qed.

(** One execution of the innermost body. *)
Lemma body_step x y z out :
  interior d x y z →
  filled_up_to volume z y x out →
  ∃ out',
    vector_set out (Int.to_size_t (linear_index d x y z))
      (mkVoxel (centralDifference volume x y z) (Glm.length (centralDifference volume x y z)))
    = Ok out' ∧ filled_up_to volume z y (x + 1) out'.
Proof.
  intros Hint (Hlen & Hget).
  assert (in_volume d x y z) as Hin by (unfold interior, in_volume in *; lia).
  pose proof (flat_index_bounds d Hd x y z Hin) as Hb.
  rewrite (linear_index_flat d Hd x y z Hin).
  rewrite to_size_t_nonneg by (destruct Hd as (_ & _ & _ & ?); lia).
  rewrite (centralDifference_interior x y z Hint).
  unfold vector_set. rewrite bool_decide_true by lia.
  eexists. split; [done|]. split.
  - rewrite length_insert. done.
  - intros x' y' z' Hin'.
    destruct (decide (flat_index d x' y' z' = flat_index d x y z)) as [Heq|Hne].
    + destruct (flat_index_inj d x' y' z' x y z Hin' Hin Heq) as (-> & -> & ->).
      rewrite list_lookup_insert_eq by lia.
      rewrite decide_True; [done|]. unfold written. split; [done|lia].
    + rewrite list_lookup_insert_ne.
      2:{ pose proof (flat_index_bounds d Hd x' y' z' Hin'). lia. }
      rewrite (Hget x' y' z' Hin'). f_equal. apply decide_ext.
      unfold written. split; intros (Hi & Hw); (split; [done|]).
      * lia.
      * destruct (decide (x' = x ∧ y' = y ∧ z' = z)) as [(-> & -> & ->)|Hn]; [done|lia].
Qed.

Lemma x_loop y z out :
  1 ≤ y ≤ iy d - 2 → 1 ≤ z ≤ iz d - 2 →
  filled_up_to volume z y 1 out →
  ∃ out',
    for_loop 1 (Int.sub (ix d) 1) (fun x out =>
      let v := centralDifference volume x y z in
      let index := Int.to_size_t (linear_index d x y z) in
      vector_set out index (mkVoxel v (Glm.length v))) out = Ok out'
    ∧ filled_up_to volume z (y + 1) 1 out'.
Proof.
  intros Hy Hz H0.
  destruct (extent_le_count d Hd) as (Hcx & Hcy & Hcz).
  rewrite (extent_int d Hd) by (destruct Hd as (? & ? & ? & ?); lia).
  destruct (decide (1 ≤ ix d - 1)) as [Hle|Hgt].
  - destruct (for_loop_invariant (fun x out => filled_up_to volume z y x out)
                1 (ix d - 1) (fun x out =>
      let v := centralDifference volume x y z in
      let index := Int.to_size_t (linear_index d x y z) in
      vector_set out index (mkVoxel v (Glm.length v))) out Hle H0) as (out' & Hrun & Hinv).
    + intros x t Hx Ht. apply body_step; [|done]. unfold interior. lia.
    + exists out'. split; [done|]. revert Hinv. apply filled_up_to_ext.
      intros x' y' z' Hin'. unfold written, interior. lia.
  - exists out. rewrite for_loop_nil by lia. split; [done|]. revert H0.
    apply filled_up_to_ext. intros x' y' z' Hin'. unfold written, interior. lia.
Qed.

Lemma y_loop z out :
  1 ≤ z ≤ iz d - 2 →
  filled_up_to volume z 1 1 out →
  ∃ out',
    for_loop 1 (Int.sub (iy d) 1) (fun y =>
      for_loop 1 (Int.sub (ix d) 1) (fun x out =>
        let v := centralDifference volume x y z in
        let index := Int.to_size_t (linear_index d x y z) in
        vector_set out index (mkVoxel v (Glm.length v)))) out = Ok out'
    ∧ filled_up_to volume (z + 1) 1 1 out'.
Proof.
  intros Hz H0.
  destruct (extent_le_count d Hd) as (Hcx & Hcy & Hcz).
  rewrite (extent_int d Hd (iy d)) by (destruct Hd as (? & ? & ? & ?); lia).
  destruct (decide (1 ≤ iy d - 1)) as [Hle|Hgt].
  - destruct (for_loop_invariant (fun y out => filled_up_to volume z y 1 out)
                1 (iy d - 1) (fun y =>
      for_loop 1 (Int.sub (ix d) 1) (fun x out =>
        let v := centralDifference volume x y z in
        let index := Int.to_size_t (linear_index d x y z) in
        vector_set out index (mkVoxel v (Glm.length v)))) out Hle H0)
      as (out' & Hrun & Hinv).
    + intros y t Hy Ht. apply x_loop; [lia|done|done].
    + exists out'. split; [done|]. revert Hinv. apply filled_up_to_ext.
      intros x' y' z' Hin'. unfold written, interior. lia.
  - exists out. rewrite for_loop_nil by lia. split; [done|]. revert H0.
    apply filled_up_to_ext. intros x' y' z' Hin'. unfold written, interior. lia.
Qed.

Lemma computeGradientVolume_filled :
  ∃ out, computeGradientVolume volume = Ok out ∧ filled_up_to volume (iz d) 1 1 out.
Proof.
  unfold computeGradientVolume. cbv zeta.
  rewrite (voxel_count_int d Hd).
  assert (0 < voxel_count d ≤ Int.INT_MAX) as Hn
    by (destruct Hd as (? & ? & ? & ?); unfold voxel_count; split; [nia|done]).
  destruct (Z.ltb_spec (voxel_count d) 0) as [?|_]; [lia|].
  rewrite to_size_t_nonneg by lia.
  destruct (extent_le_count d Hd) as (Hcx & Hcy & Hcz).
  rewrite (extent_int d Hd (iz d)) by (destruct Hd as (? & ? & ? & ?); lia).
  assert (filled_up_to volume 1 1 1 (replicate (Z.to_nat (voxel_count d)) zeroVoxel)) as H0.
  { split; [apply length_replicate|]. intros x y z Hin.
    pose proof (flat_index_bounds d Hd x y z Hin).
    rewrite lookup_replicate_2 by lia. f_equal.
    rewrite decide_False; [done|]. unfold written, interior. lia. }
  destruct (decide (1 ≤ iz d - 1)) as [Hle|Hgt].
  - destruct (for_loop_invariant (fun z out => filled_up_to volume z 1 1 out)
                1 (iz d - 1) (fun z =>
      for_loop 1 (Int.sub (iy d) 1) (fun y =>
        for_loop 1 (Int.sub (ix d) 1) (fun x out =>
          let v := centralDifference volume x y z in
          let index := Int.to_size_t (linear_index d x y z) in
          vector_set out index (mkVoxel v (Glm.length v)))))
      (replicate (Z.to_nat (voxel_count d)) zeroVoxel) Hle H0) as (out' & Hrun & Hinv).
    + intros z t Hz Ht. apply y_loop; [lia|done].
    + exists out'. split; [done|]. revert Hinv. apply filled_up_to_ext.
      intros x' y' z' Hin'. unfold written, interior. lia.
  - eexists. rewrite for_loop_nil by lia. split; [done|]. revert H0.
    apply filled_up_to_ext. intros x' y' z' Hin'. unfold written, interior. lia.
Qed.
End Builder.

(** C1 fails on the code when the voxel count is no [int]: the code
    multiplies the extents in [int].  With extents of 1291 the product
    wraps to a negative [int] and the vector constructor throws; with
    extents 65536, 65536 and 1 it wraps to 0 and the builder returns an
    empty array for a volume of 2^32 voxels. *)
Lemma voxel_count_overflows :
  (1 ≤ ix (vol_dims overflowing_volume) ∧ 1 ≤ iy (vol_dims overflowing_volume) ∧
   1 ≤ iz (vol_dims overflowing_volume)) ∧
  computeGradientVolume overflowing_volume = Thrown ∧
  (1 ≤ ix (vol_dims wrapping_volume) ∧ 1 ≤ iy (vol_dims wrapping_volume) ∧
   1 ≤ iz (vol_dims wrapping_volume)) ∧
  computeGradientVolume wrapping_volume = Ok [].
Proof.
  split; [simpl; lia|]. split; [vm_compute; reflexivity|].
  split; [simpl; lia|]. vm_compute. reflexivity.
Qed.

(** C1, as amended. For a volume with every extent at least one and a voxel
    count that is an [int], [computeGradientVolume] returns an array with
    one voxel per position; at every strictly interior position the voxel holds the
    central differences of the scalar field, halved, with the Euclidean
    norm ([glm::length]) of that direction as magnitude, and at every other
    position it holds the zero voxel. *)
Theorem computeGradientVolume_central_differences (volume : Volume) :
  well_sized (vol_dims volume) →
  ∃ out,
    computeGradientVolume volume = Ok out ∧
    List.length out = Z.to_nat (voxel_count (vol_dims volume)) ∧
    ∀ x y z, in_volume (vol_dims volume) x y z →
      out !! Z.to_nat (flat_index (vol_dims volume) x y z) =
        Some (if decide (interior (vol_dims volume) x y z)
              then mkVoxel (central_differences volume x y z)
                           (Glm.length (central_differences volume x y z))
              else zeroVoxel).
Proof.
  intros Hd. destruct (computeGradientVolume_filled volume Hd) as (out & Hrun & Hlen & Hget).
  exists out. split; [done|]. split; [done|].
  intros x y z Hin. rewrite (Hget x y z Hin). f_equal. apply decide_ext.
  unfold written, interior. unfold in_volume in Hin. lia.
Qed.

Lemma computeGradientVolume_central_differences_witness :
  well_sized (vol_dims ramp_volume) ∧
  ∃ out,
    computeGradientVolume ramp_volume = Ok out ∧
    List.length out = Z.to_nat (voxel_count (vol_dims ramp_volume)) ∧
    ∀ x y z, in_volume (vol_dims ramp_volume) x y z →
      out !! Z.to_nat (flat_index (vol_dims ramp_volume) x y z) =
        Some (if decide (interior (vol_dims ramp_volume) x y z)
              then mkVoxel (central_differences ramp_volume x y z)
                           (Glm.length (central_differences ramp_volume x y z))
              else zeroVoxel).
Proof.
  assert (well_sized (vol_dims ramp_volume)) as Hd
    by (unfold well_sized, voxel_count, Int.INT_MAX; simpl; lia).
  split; [exact Hd|]. exact (computeGradientVolume_central_differences ramp_volume Hd).
Defined.

(* ===================================================================== *)
(** * Magnitude extrema                                                    *)
(* ===================================================================== *)

(** ** What the array holds *)

Lemma flat_index_surj d i :
  well_sized d → 0 ≤ i < voxel_count d →
  ∃ x y z, in_volume d x y z ∧ flat_index d x y z = i.
Proof.
  intros (Hx & Hy & Hz & _) Hi. unfold voxel_count in Hi.
  exists (i mod ix d), ((i / ix d) mod iy d), (i / ix d / iy d).
  unfold in_volume, flat_index.
  pose proof (Z.mod_pos_bound i (ix d) ltac:(lia)).
  pose proof (Z.mod_pos_bound (i / ix d) (iy d) ltac:(lia)).
  assert (0 ≤ i / ix d) by (apply Z.div_pos; lia).
  assert (0 ≤ i / ix d / iy d) by (apply Z.div_pos; lia).
  assert (i / ix d / iy d < iz d).
  { apply Z.div_lt_upper_bound; [lia|]. apply Z.div_lt_upper_bound; [lia|]. lia. }
  repeat split; try lia.
  pose proof (Z.div_mod i (ix d) ltac:(lia)) as E1.
  pose proof (Z.div_mod (i / ix d) (iy d) ltac:(lia)) as E2.
  replace ((i / ix d) mod iy d + iy d * (i / ix d / iy d)) with (i / ix d) by lia. lia.
Qed.

Lemma computeGradientVolume_elements volume out g :
  well_sized (vol_dims volume) →
  computeGradientVolume volume = Ok out → g ∈ out →
  g = zeroVoxel ∨
  ∃ x y z, interior (vol_dims volume) x y z ∧ g = central_voxel volume x y z.
Proof.
  intros Hd Hrun Hg.
  destruct (computeGradientVolume_filled volume Hd) as (out' & Hrun' & Hlen & Hget).
  assert (out' = out) as -> by congruence.
  apply list_elem_of_lookup in Hg as [i Hi].
  pose proof (lookup_lt_Some _ _ _ Hi) as Hlt.
  destruct (flat_index_surj (vol_dims volume) (Z.of_nat i) Hd) as (x & y & z & Hin & Hflat); [lia|].
  specialize (Hget x y z Hin). rewrite Hflat, Nat2Z.id, Hi in Hget.
  injection Hget as ->. destruct (decide _) as [(Hint & _)|_]; [right|left]; eauto.
Qed.

Lemma central_differences_not_nan volume x y z :
  finite_samples volume → interior (vol_dims volume) x y z →
  F32.is_nan (vx (central_differences volume x y z)) = false ∧
  F32.is_nan (vy (central_differences volume x y z)) = false ∧
  F32.is_nan (vz (central_differences volume x y z)) = false.
Proof.
  intros Hfin (Hx & Hy & Hz). unfold central_differences. simpl.
  repeat split; apply div_two_not_nan, sub_finite_not_nan; apply Hfin;
    unfold in_volume; lia.
Qed.

Lemma computeGradientVolume_magnitude volume out g :
  well_sized (vol_dims volume) → finite_samples volume →
  computeGradientVolume volume = Ok out → g ∈ out → F32.is_nan (magnitude g) = false.
Proof.
  intros Hd Hfin Hrun Hg.
  destruct (computeGradientVolume_elements volume out g Hd Hrun Hg)
    as [->|(x & y & z & Hint & ->)]; [done|].
  destruct (central_differences_not_nan volume x y z Hfin Hint) as (? & ? & ?).
  apply nonneg_not_nan, length_nonneg; done.
Qed.

(** ** The scans *)

Local Ltac elem_of_solver := rewrite ?elem_of_cons in *; tauto.

Section Scan.
Variable ok : GradientVoxel → Prop.
Hypothesis ok_not_nan : ∀ g, ok g → F32.is_nan (magnitude g) = false.

Lemma max_element_from_spec best rest :
  ok best → Forall ok rest →
  let r := max_element_from magnitude_less best rest in
  r ∈ best :: rest ∧ ∀ g, g ∈ best :: rest → F32.leb (magnitude g) (magnitude r) = true.
Proof.
  revert best. induction rest as [|x rest IH]; intros best Hbest Hrest; simpl.
  - split; [elem_of_solver|]. intros g Hg. apply list_elem_of_singleton in Hg as ->.
    apply leb_refl, ok_not_nan, Hbest.
  - apply Forall_cons in Hrest as [Hx Hrest].
    pose proof (ok_not_nan _ Hbest) as Nb. pose proof (ok_not_nan _ Hx) as Nx.
    destruct (magnitude_less best x) eqn:Hlt; unfold magnitude_less in Hlt.
    + destruct (IH x Hx Hrest) as [Hin Hle]. split; [elem_of_solver|].
      intros g Hg. apply elem_of_cons in Hg as [->|Hg]; [|by apply Hle].
      eapply leb_trans; [apply ltb_leb, Hlt|]. apply Hle. elem_of_solver.
    + destruct (IH best Hbest Hrest) as [Hin Hle]. split; [elem_of_solver|].
      intros g Hg. apply elem_of_cons in Hg as [->|Hg]; [apply Hle; elem_of_solver|].
      apply elem_of_cons in Hg as [->|Hg]; [|apply Hle; elem_of_solver].
      eapply leb_trans; [apply not_ltb_leb, Hlt; done|]. apply Hle. elem_of_solver.
Qed.

Lemma min_element_from_spec best rest :
  ok best → Forall ok rest →
  let r := min_element_from magnitude_less best rest in
  r ∈ best :: rest ∧ ∀ g, g ∈ best :: rest → F32.leb (magnitude r) (magnitude g) = true.
Proof.
  revert best. induction rest as [|x rest IH]; intros best Hbest Hrest; simpl.
  - split; [elem_of_solver|]. intros g Hg. apply list_elem_of_singleton in Hg as ->.
    apply leb_refl, ok_not_nan, Hbest.
  - apply Forall_cons in Hrest as [Hx Hrest].
    pose proof (ok_not_nan _ Hbest) as Nb. pose proof (ok_not_nan _ Hx) as Nx.
    destruct (magnitude_less x best) eqn:Hlt; unfold magnitude_less in Hlt.
    + destruct (IH x Hx Hrest) as [Hin Hle]. split; [elem_of_solver|].
      intros g Hg. apply elem_of_cons in Hg as [->|Hg]; [|by apply Hle].
      eapply leb_trans; [|apply ltb_leb, Hlt]. apply Hle. elem_of_solver.
    + destruct (IH best Hbest Hrest) as [Hin Hle]. split; [elem_of_solver|].
      intros g Hg. apply elem_of_cons in Hg as [->|Hg]; [apply Hle; elem_of_solver|].
      apply elem_of_cons in Hg as [->|Hg]; [|apply Hle; elem_of_solver].
      eapply leb_trans; [|apply not_ltb_leb, Hlt; done]. apply Hle. elem_of_solver.
Qed.
End Scan.

(** C4 fails on the code when a sample is NaN: a magnitude that is NaN is
    stored, and the comparator of both scans is false on it.  In the
    4 x 3 x 3 ramp whose last plane is NaN the voxel at (2, 1, 1) has a NaN
    magnitude, the minimum is 0 and the maximum is 1, and neither bounds
    the NaN.  It fails as well when the voxel count is no [int]:
    construction throws. *)
Lemma nan_magnitude_escapes_the_extrema :
  (∃ gv g,
     GradientVolume_new nan_plane_volume Linear = Ok gv ∧
     getGradient gv 2 1 1 = Ok g ∧ g ∈ m_data gv ∧
     F32.is_nan (magnitude g) = true ∧
     minMagnitude gv = F32.zero ∧ maxMagnitude gv = F32.one ∧
     F32.leb (minMagnitude gv) (magnitude g) = false ∧
     F32.leb (magnitude g) (maxMagnitude gv) = false) ∧
  GradientVolume_new overflowing_volume Linear = Thrown.
Proof.
  split; [|vm_compute; reflexivity].
  eexists. eexists. split; [vm_compute; reflexivity|].
  split; [vm_compute; reflexivity|].
  split; [by apply (list_elem_of_lookup_2 _ 18%nat)|].
  repeat split; reflexivity.
Qed.

(** C4, as amended. For a volume with at least one voxel (every extent at
    least one, voxel count an [int]) whose samples are finite, construction
    returns,
    every stored magnitude lies between [minMagnitude()] and
    [maxMagnitude()], and both extrema are magnitudes of stored voxels. *)
Theorem magnitude_extrema_bound_the_array (volume : Volume) (mode : InterpolationMode) :
  well_sized (vol_dims volume) → finite_samples volume →
  ∃ gv,
    GradientVolume_new volume mode = Ok gv ∧
    (∀ g, g ∈ m_data gv →
       F32.leb (minMagnitude gv) (magnitude g) = true ∧
       F32.leb (magnitude g) (maxMagnitude gv) = true) ∧
    (∃ g, g ∈ m_data gv ∧ magnitude g = minMagnitude gv) ∧
    (∃ g, g ∈ m_data gv ∧ magnitude g = maxMagnitude gv).
Proof.
  intros Hd Hfin.
  destruct (computeGradientVolume_filled volume Hd) as (out & Hrun & Hlen & _).
  unfold GradientVolume_new. rewrite Hrun. simpl.
  destruct out as [|g0 rest].
  { destruct Hd as (? & ? & ? & _). unfold voxel_count in Hlen. simpl in Hlen. nia. }
  simpl.
  set (ok := fun g => g ∈ g0 :: rest).
  assert (∀ g, ok g → F32.is_nan (magnitude g) = false) as Hok.
  { intros g Hg. by eapply computeGradientVolume_magnitude. }
  assert (ok g0) as Hg0 by (unfold ok; elem_of_solver).
  assert (Forall ok rest) as Hrest.
  { apply Forall_forall. intros g Hg. unfold ok. elem_of_solver. }
  destruct (max_element_from_spec ok Hok g0 rest Hg0 Hrest) as [Hmax_in Hmax].
  destruct (min_element_from_spec ok Hok g0 rest Hg0 Hrest) as [Hmin_in Hmin].
  eexists. split; [done|]. unfold minMagnitude, maxMagnitude. simpl.
  split; [|split].
  - intros g Hg. split; [by apply Hmin|by apply Hmax].
  - eexists. split; [apply Hmin_in|done].
  - eexists. split; [apply Hmax_in|done].
Qed.

Lemma magnitude_extrema_bound_the_array_witness :
  well_sized (vol_dims ramp_volume) ∧ finite_samples ramp_volume ∧
  ∃ gv,
    GradientVolume_new ramp_volume Linear = Ok gv ∧
    (∀ g, g ∈ m_data gv →
       F32.leb (minMagnitude gv) (magnitude g) = true ∧
       F32.leb (magnitude g) (maxMagnitude gv) = true) ∧
    (∃ g, g ∈ m_data gv ∧ magnitude g = minMagnitude gv) ∧
    (∃ g, g ∈ m_data gv ∧ magnitude g = maxMagnitude gv).
Proof.
  assert (well_sized (vol_dims ramp_volume)) as Hd
    by (unfold well_sized, voxel_count, Int.INT_MAX; simpl; lia).
  assert (finite_samples ramp_volume) as Hfin.
  { intros x y z (Hx & _). simpl in *.
    assert (x = 0 ∨ x = 1 ∨ x = 2) as [->|[->| ->]] by lia; reflexivity. }
  split; [exact Hd|]. split; [exact Hfin|].
  exact (magnitude_extrema_bound_the_array ramp_volume Linear Hd Hfin).
Defined.

(* ===================================================================== *)
(** * Queries                                                              *)
(* ===================================================================== *)

(** ** Blending *)

Lemma eqb_refl x : F32.is_nan x = false → F32.eqb x x = true.
Proof.
  intros H. unfold F32.eqb, SFeqb. rewrite SFcompare_key by done.
  pose proof (lex_compare_spec (order_key x) (order_key x)) as Hc.
  destruct (lex_compare _ _); [done|unfold lex_lt in Hc; lia..].
Qed.

(** One component of a blend at factor [0.0f]: the difference times zero is
    a zero, and adding a zero changes at most the sign of a zero. *)
Lemma blend_component_zero d x :
  F32.is_finite d = true → F32.is_finite x = true →
  let r := F32.add (F32.mul d F32.zero) x in
  F32.eqb r x = true ∧ F32.mul r r = F32.mul x x ∧ (is_negative_zero x = false → r = x).
Proof.
  destruct d as [sd|sd| |sd md ed], x as [sx|sx| |sx mx ex]; try done; intros _ _; simpl.
  - destruct sd, sx; done.
  - split; [|done]. apply (eqb_refl (S754_finite sx mx ex)). done.
  - destruct sd, sx; done.
  - split; [|done]. apply (eqb_refl (S754_finite sx mx ex)). done.
Qed.

(** C2, as amended. When [g0] carries the norm of its direction as
    magnitude, its direction is finite and the difference of the two
    directions is finite, [linearInterpolate(g0, g1, 0)] has the magnitude
    of [g0] and a direction that compares equal to that of [g0], component
    by component; it is [g0] itself when no component of the direction of
    [g0] is a negative zero. *)
Theorem linearInterpolate_at_zero (g0 g1 : GradientVoxel) :
  consistent g0 → finite3 (dir g0) → finite3 (Glm.vsub (dir g1) (dir g0)) →
  magnitude (linearInterpolate g0 g1 F32.zero) = magnitude g0 ∧
  same_voxel (linearInterpolate g0 g1 F32.zero) g0 = true ∧
  (no_negative_zero (dir g0) → linearInterpolate g0 g1 F32.zero = g0).
Proof.
  intros Hc (Hx & Hy & Hz) (Hdx & Hdy & Hdz).
  destruct g0 as [[x0 y0 z0] m0], g1 as [[x1 y1 z1] m1].
  unfold consistent in Hc. simpl in *.
  destruct (blend_component_zero _ _ Hdx Hx) as (Ex & Mx & Ix).
  destruct (blend_component_zero _ _ Hdy Hy) as (Ey & My & Iy).
  destruct (blend_component_zero _ _ Hdz Hz) as (Ez & Mz & Iz).
  assert (Glm.length (Glm.vadd (Glm.vscale (Glm.vsub (Vec3 x1 y1 z1) (Vec3 x0 y0 z0)) F32.zero)
                               (Vec3 x0 y0 z0)) = m0) as Hlen.
  { rewrite Hc. unfold Glm.length, Glm.dot. simpl. rewrite Mx, My, Mz. done. }
  unfold linearInterpolate. simpl dir. split; [done|]. split.
  - unfold same_voxel, same_vec3. simpl. rewrite Ex, Ey, Ez. simpl.
    rewrite Hlen. apply eqb_refl. rewrite Hc.
    apply nonneg_not_nan, length_nonneg; simpl.
    + by destruct x0.
    + by destruct y0.
    + by destruct z0.
  - intros (Nx & Ny & Nz). simpl in *. rewrite Hlen. unfold Glm.vadd. simpl.
    rewrite (Ix Nx), (Iy Ny), (Iz Nz). done.
Qed.

Lemma linearInterpolate_at_zero_witness :
  consistent unit_x ∧ finite3 (dir unit_x) ∧ finite3 (Glm.vsub (dir tiny_x) (dir unit_x)) ∧
  magnitude (linearInterpolate unit_x tiny_x F32.zero) = magnitude unit_x ∧
  same_voxel (linearInterpolate unit_x tiny_x F32.zero) unit_x = true ∧
  (no_negative_zero (dir unit_x) → linearInterpolate unit_x tiny_x F32.zero = unit_x).
Proof.
  assert (consistent unit_x) as H1 by reflexivity.
  assert (finite3 (dir unit_x)) as H2 by (repeat split; reflexivity).
  assert (finite3 (Glm.vsub (dir tiny_x) (dir unit_x))) as H3 by (repeat split; reflexivity).
  split; [exact H1|]. split; [exact H2|]. split; [exact H3|].
  exact (linearInterpolate_at_zero unit_x tiny_x H1 H2 H3).
Defined.

(** C2 as stated fails: a voxel labelled with a magnitude other than the
    norm of its direction does not come back at factor 0, under [==] on
    the fields already. *)
Lemma linearInterpolate_zero_not_identity :
  ¬ (∀ g0 g1 : GradientVoxel,
       same_voxel (linearInterpolate g0 g1 F32.zero) g0 = true ∧
       same_voxel (linearInterpolate g0 g1 F32.one) g1 = true).
Proof.
  intros H. destruct (H unit_x_labelled_five unit_x_labelled_five) as [H0 _].
  vm_compute in H0. discriminate.
Qed.

(** At factor 1 the sum [(g1 - g0) * 1 + g0] is rounded twice and need not
    give [g1] back, consistent voxels included. *)
Lemma linearInterpolate_one_drifts :
  consistent unit_x ∧ consistent tiny_x ∧
  linearInterpolate unit_x tiny_x F32.one = zeroVoxel ∧
  same_voxel (linearInterpolate unit_x tiny_x F32.one) tiny_x = false.
Proof. repeat split; reflexivity. Qed.

(** ** Nearest neighbour *)

(** C3 fails on the code: the guard admits coordinates up to the extent, and
    rounding half up then reaches the extent itself.  In the 3 x 3 x 3
    volume the coordinate (2.5, 2.5, 2.5) passes the guard and is looked
    up at (3, 3, 3), index 39 of an array of 27 voxels. *)
Lemma nearest_neighbour_reads_past_the_array :
  ∃ gv,
    GradientVolume_new ramp_volume NearestNeighbour = Ok gv ∧
    List.length (m_data gv) = 27%nat ∧
    F32.ltb f32_two_and_half F32.zero = false ∧
    F32.ltb f32_two_and_half (F32.of_int 3) = true ∧
    roundToPositiveInt f32_two_and_half = Ok 3 ∧
    linear_index (m_dim gv) 3 3 3 = 39 ∧
    getGradientNearestNeighbor gv (Vec3 f32_two_and_half f32_two_and_half f32_two_and_half)
      = Undefined.
Proof. eexists. split; [vm_compute; reflexivity|]. repeat split; vm_compute; reflexivity. Qed.

Lemma to_int_floor x :
  nonneg x = true ∨ F32.is_nan x = true → F32.to_int x = floor_to_int x.
Proof. destruct x as [s|s| |[] m e]; simpl; intros [?|?]; done. Qed.

Lemma nearest_guard d coord :
  Glm.any_lessThan coord (Glm.splat F32.zero)
  || Glm.any_greaterThanEqual coord (Glm.of_ivec3 d) = true ↔ outside_volume d coord.
Proof.
  unfold Glm.any_lessThan, Glm.any_greaterThanEqual, outside_volume. simpl.
  rewrite !orb_true_iff. tauto.
Qed.

(** C6 fails on the code: [static_cast<int>(f + 0.5f)] adds in float, and
    the sum is rounded before it is truncated.  For the largest float below
    [0.5f] the sum is exactly [1.0f]: in the 3 x 3 x 3 ramp the query at
    (0.49999997, 1, 1) passes the guard and returns the voxel at (1, 1, 1),
    while the nearest integer, rounding half up, is 0 and the voxel at
    (0, 1, 1) is the zero voxel.  From [2^23] on every odd integer is sent
    to its successor. *)
Lemma nearest_neighbour_misses_the_nearest_voxel :
  ∃ gv,
    GradientVolume_new ramp_volume NearestNeighbour = Ok gv ∧
    ¬ outside_volume (m_dim gv) below_half_coordinate ∧
    round_half_up f32_below_half = Ok 0 ∧
    F32.add f32_below_half F32.half = F32.one ∧
    roundToPositiveInt f32_below_half = Ok 1 ∧
    getGradientInterpolate gv below_half_coordinate = Ok unit_x ∧
    getGradient gv 0 1 1 = Ok zeroVoxel ∧
    round_half_up (F32.of_int 8388609) = Ok 8388609 ∧
    roundToPositiveInt (F32.of_int 8388609) = Ok 8388610.
Proof.
  eexists. split; [vm_compute; reflexivity|].
  split; [unfold outside_volume; vm_compute; intuition discriminate|].
  repeat split; vm_compute; reflexivity.
Qed.

(** ** The empty array *)

(** C8 fails on the code: on an empty array both scans dereference the end
    iterator, and so construction from a volume without voxels is
    undefined. *)
Lemma empty_array_scan_is_undefined :
  computeGradientVolume empty_volume = Ok [] ∧
  computeMinMagnitude [] = Undefined ∧
  computeMaxMagnitude [] = Undefined ∧
  ¬ returns (GradientVolume_new empty_volume NearestNeighbour).
Proof.
  split; [reflexivity|]. split; [reflexivity|]. split; [reflexivity|].
  intros [gv Hgv]. vm_compute in Hgv. discriminate.
Qed.

(** C8, as amended. Each scan returns exactly when the array is not empty,
    and then returns the magnitude of a voxel of the array. *)
Theorem scan_returns_iff_nonempty (data : list GradientVoxel) :
  (returns (computeMinMagnitude data) ↔ data ≠ []) ∧
  (returns (computeMaxMagnitude data) ↔ data ≠ []) ∧
  (∀ m, computeMinMagnitude data = Ok m → ∃ g, g ∈ data ∧ magnitude g = m) ∧
  (∀ m, computeMaxMagnitude data = Ok m → ∃ g, g ∈ data ∧ magnitude g = m).
Proof.
  assert (∀ (best : GradientVoxel) rest,
            min_element_from magnitude_less best rest ∈ best :: rest) as Hmin.
  { intros best rest. revert best. induction rest as [|x rest IH]; intros best; simpl.
    - apply elem_of_cons. by left.
    - specialize (IH (if magnitude_less x best then x else best)).
      destruct (magnitude_less x best); rewrite ?elem_of_cons in *; tauto. }
  assert (∀ (best : GradientVoxel) rest,
            max_element_from magnitude_less best rest ∈ best :: rest) as Hmax.
  { intros best rest. revert best. induction rest as [|x rest IH]; intros best; simpl.
    - apply elem_of_cons. by left.
    - specialize (IH (if magnitude_less best x then x else best)).
      destruct (magnitude_less best x); rewrite ?elem_of_cons in *; tauto. }
  destruct data as [|g rest]; simpl.
  - repeat split; try done; by intros [? ?].
  - repeat split; try done; try (intros _; eexists; done).
    + intros m [= <-]. eexists. split; [apply Hmin|done].
    + intros m [= <-]. eexists. split; [apply Hmax|done].
Qed.

(** ** Modes *)

(** C9. Whatever the state of the gradient volume and the coordinate, the
    query in Cubic mode returns what the query in Linear mode returns on
    the same dimensions and array. *)
Theorem cubic_is_linear (gv gv' : GradientVolume) (coord : vec3) :
  interpolationMode gv = Cubic → interpolationMode gv' = Linear →
  m_dim gv' = m_dim gv → m_data gv' = m_data gv →
  getGradientInterpolate gv coord = getGradientInterpolate gv' coord.
Proof.
  destruct gv as [d data mn mx mode], gv' as [d' data' mn' mx' mode']. simpl.
  intros -> -> -> ->. unfold getGradientInterpolate. simpl.
  unfold getGradientLinearInterpolate, biLinearInterpolation, getGradient. simpl.
  reflexivity.
Qed.

Lemma cubic_is_linear_witness :
  interpolationMode (with_mode ramp_gradient Cubic) = Cubic ∧
  interpolationMode ramp_gradient = Linear ∧
  getGradientInterpolate (with_mode ramp_gradient Cubic) ramp_off_lattice =
  getGradientInterpolate ramp_gradient ramp_off_lattice.
Proof.
  split; [reflexivity|]. split; [reflexivity|].
  apply (cubic_is_linear (with_mode ramp_gradient Cubic) ramp_gradient ramp_off_lattice);
    reflexivity.
Defined.

(** ** Magnitude is the norm of the direction *)

Lemma for_each_preserves {S} (P : S → Prop) (body : Z → S → outcome S) idxs s s' :
  (∀ i t t', P t → body i t = Ok t' → P t') →
  P s → for_each body idxs s = Ok s' → P s'.
Proof.
  intros Hbody. revert s. induction idxs as [|i idxs IH]; intros s Hs Hrun; simpl in Hrun.
  - by injection Hrun as <-.
  - destruct (body i s) as [t| |] eqn:Ht; [|done..]. simpl in Hrun. eauto.
Qed.

Lemma for_loop_preserves {S} (P : S → Prop) lo hi (body : Z → S → outcome S) s s' :
  (∀ i t t', P t → body i t = Ok t' → P t') →
  P s → for_loop lo hi body s = Ok s' → P s'.
Proof. apply for_each_preserves. Qed.

Lemma vector_set_Forall {A} (P : A → Prop) v i a v' :
  Forall P v → P a → vector_set v i a = Ok v' → Forall P v'.
Proof.
  unfold vector_set. intros Hv Ha. case_bool_decide; [|done].
  intros [= <-]. by apply Forall_insert.
Qed.

Lemma vector_get_elem {A} (v : list A) i a : vector_get v i = Ok a → a ∈ v.
Proof.
  unfold vector_get. destruct (v !! Z.to_nat i) eqn:Hget; [|done].
  intros [= <-]. by eapply list_elem_of_lookup_2.
Qed.

Lemma zeroVoxel_consistent : consistent zeroVoxel.
Proof. reflexivity. Qed.

Lemma linearInterpolate_consistent g0 g1 t : consistent (linearInterpolate g0 g1 t).
Proof. reflexivity. Qed.

(** Whatever the extents, every voxel of the array the builder returns is
    consistent: the loops only ever store a direction with its norm. *)
Lemma computeGradientVolume_Forall_consistent volume out :
  computeGradientVolume volume = Ok out → Forall consistent out.
Proof.
  unfold computeGradientVolume. destruct (_ <? 0); [done|].
  apply for_loop_preserves.
  - intros z t t' Ht. apply for_loop_preserves; [|done].
    intros y u u' Hu. apply for_loop_preserves; [|done].
    intros x w w' Hw. apply vector_set_Forall; done.
  - apply Forall_replicate, zeroVoxel_consistent.
Qed.

Lemma GradientVolume_new_consistent volume mode gv :
  GradientVolume_new volume mode = Ok gv → Forall consistent (m_data gv).
Proof.
  unfold GradientVolume_new.
  destruct (computeGradientVolume volume) as [out| |] eqn:Hout; [|done..]. simpl.
  destruct (computeMinMagnitude out) as [mn| |]; [|done..]. simpl.
  destruct (computeMaxMagnitude out) as [mx| |]; [|done..]. simpl.
  intros [= <-]. simpl. by eapply computeGradientVolume_Forall_consistent.
Qed.

Lemma getGradient_consistent gv x y z g :
  Forall consistent (m_data gv) → getGradient gv x y z = Ok g → consistent g.
Proof.
  intros Hall Hget. apply vector_get_elem in Hget.
  rewrite Forall_forall in Hall. by apply Hall.
Qed.

Lemma getGradientNearestNeighbor_consistent gv coord g :
  Forall consistent (m_data gv) → getGradientNearestNeighbor gv coord = Ok g → consistent g.
Proof.
  intros Hall. unfold getGradientNearestNeighbor.
  destruct (_ || _); [by intros [= <-]|].
  destruct (roundToPositiveInt (vx coord)) as [x| |]; [|done..]. simpl.
  destruct (roundToPositiveInt (vy coord)) as [y| |]; [|done..]. simpl.
  destruct (roundToPositiveInt (vz coord)) as [z| |]; [|done..]. simpl.
  by apply getGradient_consistent.
Qed.

Lemma getGradientLinearInterpolate_consistent gv coord g :
  getGradientLinearInterpolate gv coord = Ok g → consistent g.
Proof.
  unfold getGradientLinearInterpolate.
  destruct (_ || _); [by intros [= <-]|].
  destruct (F32.to_int (F32.floor (vz coord))) as [z0| |]; [|done..]. simpl.
  destruct (biLinearInterpolation gv _ z0) as [b0| |]; [|done..]. simpl.
  destruct (F32.to_int (F32.ceil (vz coord))) as [z1| |]; [|done..]. simpl.
  destruct (biLinearInterpolation gv _ z1) as [b1| |]; [|done..]. simpl.
  intros [= <-]. apply linearInterpolate_consistent.
Qed.

(** C10. For a gradient volume built by the constructor and any mode set
    on it afterwards, every voxel [getGradientInterpolate] returns has the
    Euclidean norm ([glm::length]) of its direction as magnitude. *)
Theorem returned_magnitude_is_norm
    (volume : Volume) (mode0 mode : InterpolationMode) (gv : GradientVolume)
    (coord : vec3) (g : GradientVoxel) :
  GradientVolume_new volume mode0 = Ok gv →
  getGradientInterpolate (with_mode gv mode) coord = Ok g →
  magnitude g = Glm.length (dir g).
Proof.
  intros Hnew Hq. apply GradientVolume_new_consistent in Hnew.
  unfold getGradientInterpolate in Hq. destruct mode; simpl in Hq.
  - by eapply (getGradientNearestNeighbor_consistent (with_mode gv NearestNeighbour)).
  - by eapply getGradientLinearInterpolate_consistent.
  - by eapply getGradientLinearInterpolate_consistent.
  - done.
Qed.

Lemma returned_magnitude_is_norm_witness :
  GradientVolume_new ramp_volume Linear = Ok ramp_gradient ∧
  getGradientInterpolate (with_mode ramp_gradient NearestNeighbour) ramp_centre = Ok unit_x ∧
  magnitude unit_x = Glm.length (dir unit_x).
Proof.
  assert (GradientVolume_new ramp_volume Linear = Ok ramp_gradient) as Hnew
    by (vm_compute; reflexivity).
  assert (getGradientInterpolate (with_mode ramp_gradient NearestNeighbour) ramp_centre
          = Ok unit_x) as Hq by (vm_compute; reflexivity).
  split; [exact Hnew|]. split; [exact Hq|].
  exact (returned_magnitude_is_norm ramp_volume Linear NearestNeighbour ramp_gradient
           ramp_centre unit_x Hnew Hq).
Defined.

(** ** Trilinear queries on the lattice *)

Lemma margin_guard d coord :
  Glm.any_lessThan (Glm.vsubs coord F32.one) (Glm.splat F32.zero)
  || Glm.any_greaterThanEqual (Glm.vadds coord F32.one) (Glm.of_ivec3 d) = true
  ↔ outside_margin d coord.
Proof.
  unfold Glm.any_lessThan, Glm.any_greaterThanEqual, outside_margin. simpl.
  rewrite !orb_true_iff. tauto.
Qed.










(** ** The interpolation margin *)

Lemma shl_align_value m e ez :
  ez ≤ e → Zpos (fst (shl_align m e ez)) = Zpos m * 2 ^ (e - ez).
Proof.
  intros Hle. rewrite shl_align_spec. destruct (Z.ltb_spec ez e).
  - simpl. assert (0 < 2 ^ (e - ez)) by (apply Z.pow_pos_nonneg; lia).
    rewrite Z2Pos.id by nia. done.
  - simpl. replace (e - ez) with 0 by lia. change (2 ^ 0) with 1. lia.
Qed.

Lemma plus_one_scaled_pos m e : 2 ^ (- Z.min e (-23)) ≤ plus_one_scaled m e.
Proof.
  unfold plus_one_scaled.
  assert (0 < 2 ^ (e - Z.min e (-23))) by (apply Z.pow_pos_nonneg; lia). nia.
Qed.

Lemma one_scaled ez : ez ≤ -23 → Zpos (fst (shl_align 8388608 (-23) ez)) = 2 ^ (- ez).
Proof.
  intros H. rewrite shl_align_value by done. change 8388608 with (2 ^ 23).
  rewrite <- Z.pow_add_r by lia. f_equal. lia.
Qed.

Lemma add_one_spec m e :
  F32.add (S754_finite false m e) F32.one =
  binary_round F32.prec F32.emax false (Z.to_pos (plus_one_scaled m e)) (Z.min e (-23)).
Proof.
  unfold F32.add, F32.one, SFadd. cbv zeta. simpl cond_Zopp.
  rewrite shl_align_value, one_scaled by lia. fold (plus_one_scaled m e).
  pose proof (plus_one_scaled_pos m e).
  assert (0 < 2 ^ (- Z.min e (-23))) by (apply Z.pow_pos_nonneg; lia).
  destruct (plus_one_scaled m e) as [|p|p]; try lia. done.
Qed.

Lemma sub_one_negative m e :
  F32.sub (S754_finite true m e) F32.one =
  binary_round F32.prec F32.emax true (Z.to_pos (plus_one_scaled m e)) (Z.min e (-23)).
Proof.
  unfold F32.sub, F32.one, SFsub. cbv zeta. simpl cond_Zopp.
  rewrite shl_align_value, one_scaled by lia.
  pose proof (plus_one_scaled_pos m e) as Hpos. unfold plus_one_scaled in *.
  assert (0 < 2 ^ (- Z.min e (-23))) by (apply Z.pow_pos_nonneg; lia).
  replace (- (Zpos m * 2 ^ (e - Z.min e (-23))) - 2 ^ (- Z.min e (-23)))
    with (- (Zpos m * 2 ^ (e - Z.min e (-23)) + 2 ^ (- Z.min e (-23)))) by lia.
  destruct (Zpos m * 2 ^ (e - Z.min e (-23)) + 2 ^ (- Z.min e (-23))) as [|p|p]; try lia. done.
Qed.

(** Below zero the lower test of the margin fires. *)
Lemma below_zero_outside m e :
  F32.ltb (F32.sub (S754_finite true m e) F32.one) F32.zero = true.
Proof.
  rewrite sub_one_negative, binary_round_spec.
  pose proof (plus_one_scaled_pos m e) as Hpos.
  assert (0 < 2 ^ (- Z.min e (-23))) by (apply Z.pow_pos_nonneg; lia).
  set (p := Z.to_pos (plus_one_scaled m e)).
  assert (Zpos p = plus_one_scaled m e) as Hp by (unfold p; rewrite Z2Pos.id; lia).
  pose proof (mant_at_bounds p (Z.min e (-23))) as [Hb Hn].
  pose proof (digits2_pos_bounds p) as [_ Hhi]. rewrite Hp in Hhi.
  assert (- Z.min e (-23) < Zpos (digits2_pos p)) as Hd.
  { apply (Z.pow_lt_mono_r_iff 2); lia. }
  specialize (Hn ltac:(lia)).
  unfold pack.
  destruct (Z.eqb_spec (mant_at p (Z.min e (-23)) (round_exp p (Z.min e (-23)))) 0); [lia|].
  repeat destruct (_ =? _); repeat destruct (_ <=? _); done.
Qed.

(** The upper test of the margin is exact: it passes only when the value
    plus one is below the extent. *)
Lemma upper_test_exact m e dim :
  1 ≤ dim →
  F32.geb (F32.add (S754_finite false m e) F32.one) (F32.of_int dim) = false →
  plus_one_scaled m e < dim * 2 ^ (- Z.min e (-23)).
Proof.
  intros Hdim Hge. destruct (Z.lt_ge_cases (plus_one_scaled m e) (dim * 2 ^ (- Z.min e (-23))))
    as [?|Hle]; [done|].
  pose proof (plus_one_scaled_pos m e) as Hpos.
  assert (0 < 2 ^ (- Z.min e (-23))) by (apply Z.pow_pos_nonneg; lia).
  unfold F32.geb in Hge. fold (F32.leb (F32.of_int dim) (F32.add (S754_finite false m e) F32.one)) in Hge.
  rewrite add_one_spec in Hge. unfold F32.of_int, binary_normalize in Hge.
  destruct dim as [|d|d]; try lia.
  rewrite (binary_round_mono d 0 _ (Z.min e (-23)) (Z.min e (-23))) in Hge; [done|lia|lia|].
  rewrite Z2Pos.id by lia. rewrite Z.sub_diag, Z.sub_0_l. change (2 ^ 0) with 1. lia.
Qed.

Lemma leb_infinity x : F32.is_nan x = false → F32.leb x (S754_infinity false) = true.
Proof. destruct x as [s|[]| |[] m e]; done. Qed.

(** One axis of a coordinate that passes both tests of the margin: floor
    and ceiling convert to integers inside the extent. *)
Lemma margin_axis c dim :
  F32.valid c = true → F32.is_nan c = false → 1 ≤ dim ≤ Int.INT_MAX →
  F32.ltb (F32.sub c F32.one) F32.zero = false →
  F32.geb (F32.add c F32.one) (F32.of_int dim) = false →
  ∃ lo hi, F32.to_int c = Ok lo ∧
           F32.to_int (F32.floor c) = Ok lo ∧ F32.to_int (F32.ceil c) = Ok hi ∧
           0 ≤ lo ∧ lo ≤ hi ∧ hi ≤ dim - 1.
Proof.
  intros Hv Hnan Hdim Hlow Hhigh. destruct c as [s|s| |s m e]; try done.
  - destruct s; [done|]. simpl in Hhigh. unfold F32.geb in Hhigh.
    change (SFleb (F32.of_int dim) (S754_infinity false))
      with (F32.leb (F32.of_int dim) (S754_infinity false)) in Hhigh.
    rewrite leb_infinity in Hhigh by apply of_int_not_nan. done.
  - destruct s; [by rewrite below_zero_outside in Hlow|].
    pose proof (upper_test_exact m e dim ltac:(lia) Hhigh) as Hup.
    destruct (valid_mantissa _ _ _ Hv) as (Hm & He & _).
    pose proof (floorZ_nonneg m e) as Hlo. pose proof (floorZ_le_ceilZ m e) as Hlh.
    unfold plus_one_scaled in Hup. unfold Int.INT_MAX in Hdim.
    destruct (Z.leb_spec 0 e) as [He0|He0].
    + (* the float is an integer *)
      assert (Z.min e (-23) = -23) as Hez by lia. rewrite Hez in Hup.
      replace (e - -23) with (e + 23) in Hup by lia. rewrite Z.pow_add_r in Hup by lia.
      change (2 ^ (- -23)) with 8388608 in Hup. change (2 ^ 23) with 8388608 in Hup.
      assert (0 < 2 ^ e) by (apply Z.pow_pos_nonneg; lia).
      assert (F32.floorZ false m e = Zpos m * 2 ^ e) as Hfl.
      { unfold F32.floorZ, F32.signed. simpl. destruct (Z.leb_spec 0 e); [|lia].
        by rewrite Z.shiftl_mul_pow2. }
      assert (F32.ceilZ false m e = Zpos m * 2 ^ e) as Hce.
      { unfold F32.ceilZ, F32.floorZ, F32.signed. simpl. destruct (Z.leb_spec 0 e); [|lia].
        rewrite Z.shiftl_mul_pow2 by lia. lia. }
      exists (Zpos m * 2 ^ e), (Zpos m * 2 ^ e).
      unfold F32.floor, F32.ceil, F32.round_with.
      destruct (Z.leb_spec 0 e); [|lia].
      unfold F32.to_int, F32.truncZ. simpl cond_Zopp. rewrite Hfl.
      unfold Int.in_rangeb, Int.INT_MIN, Int.INT_MAX.
      destruct (Z.leb_spec (-2147483648) (Zpos m * 2 ^ e)),
        (Z.leb_spec (Zpos m * 2 ^ e) 2147483647); try nia.
      repeat split; try done; nia.
    + (* the float has a fractional part *)
      assert (0 < 2 ^ (- e)) by (apply Z.pow_pos_nonneg; lia).
      assert (0 < 2 ^ (e - Z.min e (-23))) by (apply Z.pow_pos_nonneg; lia).
      assert (2 ^ (- Z.min e (-23)) = 2 ^ (- e) * 2 ^ (e - Z.min e (-23))) as Hsplit.
      { rewrite <- Z.pow_add_r by lia. f_equal. lia. }
      rewrite Hsplit in Hup.
      assert (Zpos m ≤ (dim - 1) * 2 ^ (- e)) as Hm_up by nia.
      pose proof (ceilZ_upper m e (dim - 1) He0 Hm_up) as Hhi.
      assert (F32.ceilZ false m e ≤ 16777216) as Hhi24
        by (apply ceilZ_upper; [done|nia]).
      exists (F32.floorZ false m e), (F32.ceilZ false m e).
      unfold F32.floor, F32.ceil, F32.round_with.
      destruct (Z.leb_spec 0 e); [lia|].
      repeat split; try lia.
      * unfold F32.to_int, F32.truncZ. simpl cond_Zopp.
        unfold Int.in_rangeb, Int.INT_MIN, Int.INT_MAX.
        destruct (Z.leb_spec (-2147483648) (F32.floorZ false m e)),
          (Z.leb_spec (F32.floorZ false m e) 2147483647); try lia. done.
      * destruct (Z.eqb_spec (F32.floorZ false m e) 0) as [->|Hne]; [done|].
        apply to_int_of_int. lia.
      * destruct (Z.eqb_spec (F32.ceilZ false m e) 0) as [->|Hne]; [done|].
        apply to_int_of_int. lia.
Qed.

Lemma GradientVolume_new_shape volume mode gv :
  well_sized (vol_dims volume) → GradientVolume_new volume mode = Ok gv →
  m_dim gv = vol_dims volume ∧
  List.length (m_data gv) = Z.to_nat (voxel_count (vol_dims volume)).
Proof.
  intros Hd. destruct (computeGradientVolume_filled volume Hd) as (out & Hrun & Hlen & _).
  unfold GradientVolume_new. rewrite Hrun. simpl.
  destruct (computeMinMagnitude out) as [mn| |]; [|done..]. simpl.
  destruct (computeMaxMagnitude out) as [mx| |]; [|done..]. simpl.
  intros [= <-]. done.
Qed.

Lemma getGradient_returns gv x y z :
  well_sized (m_dim gv) →
  List.length (m_data gv) = Z.to_nat (voxel_count (m_dim gv)) →
  in_volume (m_dim gv) x y z → returns (getGradient gv x y z).
Proof.
  intros Hd Hlen Hin. unfold getGradient, vector_get.
  rewrite (linear_index_flat _ Hd x y z Hin).
  pose proof (flat_index_bounds _ Hd x y z Hin) as Hb.
  rewrite to_size_t_nonneg by (destruct Hd as (_ & _ & _ & ?); lia).
  destruct (lookup_lt_is_Some_2 (m_data gv) (Z.to_nat (flat_index (m_dim gv) x y z)))
    as [g Hg]; [lia|].
  rewrite Hg. by exists g.
Qed.






(** C7 fails on the code: every comparison with NaN is false, so a
    coordinate with a NaN component passes the margin test.  In the
    3 x 3 x 3 ramp the coordinate (1, 1, NaN) is not rejected;
    [floor(NaN)] is NaN, its conversion to [int] is undefined, and the
    query reads no corner inside the array. *)
Lemma trilinear_margin_admits_nan :
  ∃ gv,
    GradientVolume_new ramp_volume Linear = Ok gv ∧
    valid3 nan_coordinate ∧
    ¬ outside_margin (m_dim gv) nan_coordinate ∧
    F32.floor (vz nan_coordinate) = S754_nan ∧
    F32.to_int (F32.floor (vz nan_coordinate)) = Undefined ∧
    getGradientInterpolate gv nan_coordinate = Undefined.
Proof.
  eexists. split; [vm_compute; reflexivity|].
  split; [repeat split; reflexivity|].
  split; [unfold outside_margin; vm_compute; intuition discriminate|].
  repeat split; vm_compute; reflexivity.
Qed.



(* ===================================================================== *)
(** * Further properties of the builder                                    *)
(* ===================================================================== *)

(** ** The index *)

(** X1. As long as the voxel count is an [int], the index the code computes
    in [int] arithmetic, [x + dim.x * (y + dim.y * z)], maps the positions
    of the volume one to one onto the slots [0 .. count - 1] of the
    array. *)
Theorem linear_index_bijective (d : ivec3) :
  well_sized d →
  (∀ x y z, in_volume d x y z → 0 ≤ linear_index d x y z < voxel_count d) ∧
  (∀ x y z x' y' z', in_volume d x y z → in_volume d x' y' z' →
     linear_index d x y z = linear_index d x' y' z' → x = x' ∧ y = y' ∧ z = z') ∧
  (∀ i, 0 ≤ i < voxel_count d → ∃ x y z, in_volume d x y z ∧ linear_index d x y z = i).
Proof.
  intros Hd. split; [|split].
  - intros x y z Hin. rewrite (linear_index_flat d Hd x y z Hin).
    by apply flat_index_bounds.
  - intros x y z x' y' z' Hin Hin'.
    rewrite (linear_index_flat d Hd x y z Hin), (linear_index_flat d Hd x' y' z' Hin').
    by apply flat_index_inj.
  - intros i Hi. destruct (flat_index_surj d i Hd Hi) as (x & y & z & Hin & Hflat).
    exists x, y, z. split; [done|]. by rewrite (linear_index_flat d Hd x y z Hin).
Qed.

Lemma linear_index_bijective_witness :
  well_sized (IVec3 3 3 3) ∧
  (∀ x y z, in_volume (IVec3 3 3 3) x y z →
     0 ≤ linear_index (IVec3 3 3 3) x y z < voxel_count (IVec3 3 3 3)).
Proof.
  assert (well_sized (IVec3 3 3 3)) as Hd
    by (unfold well_sized, voxel_count, Int.INT_MAX; simpl; lia).
  split; [exact Hd|]. exact (proj1 (linear_index_bijective (IVec3 3 3 3) Hd)).
Defined.

(** Without a bounds check an x one past the extent is the first voxel of
    the next row. *)
Lemma linear_index_next_row d y z :
  well_sized d → 0 ≤ y → y + 1 < iy d → 0 ≤ z < iz d →
  linear_index d (ix d) y z = linear_index d 0 (y + 1) z.
Proof.
  intros Hd Hy Hy1 Hz. pose proof Hd as (Hdx & Hdy & Hdz & Hn).
  assert (in_volume d 0 (y + 1) z) as Hin by (unfold in_volume; lia).
  rewrite (linear_index_flat d Hd 0 (y + 1) z Hin).
  pose proof (flat_index_bounds d Hd 0 (y + 1) z Hin) as Hb.
  assert (in_volume d 0 y z) as Hin0 by (unfold in_volume; lia).
  pose proof (linear_index_flat d Hd 0 y z Hin0) as H0.
  pose proof (flat_index_bounds d Hd 0 y z Hin0) as Hb0.
  unfold linear_index, flat_index, Int.add, Int.mul, Int.INT_MAX in *.
  assert (0 ≤ iy d * z ≤ 2147483647) by nia.
  rewrite (wrap_in_range (iy d * z)) in * by (unfold Int.in_range, Int.INT_MIN, Int.INT_MAX; lia).
  assert (0 ≤ y + iy d * z ≤ 2147483647) by nia.
  rewrite (wrap_in_range (y + iy d * z)) by (unfold Int.in_range, Int.INT_MIN, Int.INT_MAX; lia).
  assert (0 ≤ ix d * (y + iy d * z) ≤ 2147483647) by nia.
  rewrite (wrap_in_range (ix d * (y + iy d * z)))
    by (unfold Int.in_range, Int.INT_MIN, Int.INT_MAX; lia).
  rewrite wrap_in_range by (unfold Int.in_range, Int.INT_MIN, Int.INT_MAX; nia).
  lia.
Qed.

(** X2. [getGradient] checks nothing: in a gradient volume built by the
    constructor (every extent at least one, voxel count an [int]), for a
    slice [0 ≤ z < dim.z] and a row [0 ≤ y] that is not the last of the
    slice ([y + 1 < dim.y]), an x equal to the extent reads the first voxel
    of the next row: [getGradient(dim.x, y, z)] returns, and returns what
    [getGradient(0, y + 1, z)] returns. *)
Theorem getGradient_wraps_to_next_row
    (volume : Volume) (mode : InterpolationMode) (gv : GradientVolume) (y z : Z) :
  well_sized (vol_dims volume) → GradientVolume_new volume mode = Ok gv →
  0 ≤ y → y + 1 < iy (m_dim gv) → 0 ≤ z < iz (m_dim gv) →
  getGradient gv (ix (m_dim gv)) y z = getGradient gv 0 (y + 1) z ∧
  returns (getGradient gv (ix (m_dim gv)) y z).
Proof.
  intros Hd Hnew Hy Hy1 Hz.
  destruct (GradientVolume_new_shape volume mode gv Hd Hnew) as [Hdim Hlen].
  rewrite <- Hdim in Hd, Hlen.
  assert (getGradient gv (ix (m_dim gv)) y z = getGradient gv 0 (y + 1) z) as Heq.
  { unfold getGradient. by rewrite linear_index_next_row. }
  split; [done|]. rewrite Heq. apply getGradient_returns; [done..|].
  destruct Hd as (? & ? & ? & _). unfold in_volume. lia.
Qed.

Lemma getGradient_wraps_to_next_row_witness :
  well_sized (vol_dims ramp_volume) ∧
  GradientVolume_new ramp_volume Linear = Ok ramp_gradient ∧
  getGradient ramp_gradient (ix (m_dim ramp_gradient)) 0 1 = getGradient ramp_gradient 0 (0 + 1) 1 ∧
  returns (getGradient ramp_gradient (ix (m_dim ramp_gradient)) 0 1).
Proof.
  assert (well_sized (vol_dims ramp_volume)) as Hd
    by (unfold well_sized, voxel_count, Int.INT_MAX; simpl; lia).
  assert (GradientVolume_new ramp_volume Linear = Ok ramp_gradient) as Hnew
    by (vm_compute; reflexivity).
  split; [exact Hd|]. split; [exact Hnew|].
  apply (getGradient_wraps_to_next_row ramp_volume Linear ramp_gradient 0 1 Hd Hnew);
    simpl; lia.
Defined.

(** ** Construction and lookup *)

Lemma scans_return (data : list GradientVoxel) :
  data ≠ [] → ∃ mn mx, computeMinMagnitude data = Ok mn ∧ computeMaxMagnitude data = Ok mx.
Proof. destruct data as [|g rest]; [done|]. intros _. simpl. eauto. Qed.

Lemma construction_returns volume mode :
  well_sized (vol_dims volume) →
  ∃ gv, GradientVolume_new volume mode = Ok gv ∧
        m_dim gv = vol_dims volume ∧
        filled_up_to volume (iz (vol_dims volume)) 1 1 (m_data gv).
Proof.
  intros Hd. destruct (computeGradientVolume_filled volume Hd) as (out & Hrun & Hfill).
  assert (out ≠ []) as Hne.
  { destruct Hfill as [Hlen _]. intros ->. simpl in Hlen.
    destruct Hd as (? & ? & ? & _). unfold voxel_count in Hlen. nia. }
  destruct (scans_return out Hne) as (mn & mx & Hmn & Hmx).
  unfold GradientVolume_new. rewrite Hrun. simpl. rewrite Hmn. simpl. rewrite Hmx. simpl.
  eexists. split; [done|]. split; done.
Qed.

(** X3. Construction followed by lookup: for a volume with every extent at
    least one (voxel count an [int]) the constructor returns a gradient
    volume with the dimensions of the volume and one voxel per position, and
    [getGradient] at a position of the volume returns the central-difference
    voxel when the position is strictly interior and the zero voxel
    otherwise. *)
Theorem getGradient_of_constructed (volume : Volume) (mode : InterpolationMode) :
  well_sized (vol_dims volume) →
  ∃ gv,
    GradientVolume_new volume mode = Ok gv ∧
    dims gv = vol_dims volume ∧
    Z.of_nat (List.length (m_data gv)) = ix (dims gv) * iy (dims gv) * iz (dims gv) ∧
    ∀ x y z, in_volume (vol_dims volume) x y z →
      getGradient gv x y z =
        Ok (if decide (interior (vol_dims volume) x y z)
            then central_voxel volume x y z else zeroVoxel).
Proof.
  intros Hd. destruct (construction_returns volume mode Hd) as (gv & Hnew & Hdim & Hlen & Hget).
  exists gv. split; [done|]. split; [done|]. split.
  - unfold dims. rewrite Hdim, Hlen. fold (voxel_count (vol_dims volume)).
    destruct Hd as (? & ? & ? & _). unfold voxel_count. nia.
  - intros x y z Hin. unfold getGradient, vector_get. rewrite Hdim.
    rewrite (linear_index_flat _ Hd x y z Hin).
    pose proof (flat_index_bounds _ Hd x y z Hin) as Hb.
    rewrite to_size_t_nonneg by (destruct Hd as (_ & _ & _ & ?); lia).
    rewrite (Hget x y z Hin). f_equal. apply decide_ext.
    unfold written, interior. unfold in_volume in Hin. lia.
Qed.

Lemma getGradient_of_constructed_witness :
  well_sized (vol_dims ramp_volume) ∧
  ∃ gv,
    GradientVolume_new ramp_volume Linear = Ok gv ∧
    dims gv = vol_dims ramp_volume ∧
    Z.of_nat (List.length (m_data gv)) = ix (dims gv) * iy (dims gv) * iz (dims gv) ∧
    ∀ x y z, in_volume (vol_dims ramp_volume) x y z →
      getGradient gv x y z =
        Ok (if decide (interior (vol_dims ramp_volume) x y z)
            then central_voxel ramp_volume x y z else zeroVoxel).
Proof.
  assert (well_sized (vol_dims ramp_volume)) as Hd
    by (unfold well_sized, voxel_count, Int.INT_MAX; simpl; lia).
  split; [exact Hd|]. exact (getGradient_of_constructed ramp_volume Linear Hd).
Defined.

(** ** Volumes without interior *)

Lemma max_element_from_replicate {A} (comp : A → A → bool) g n :
  max_element_from comp g (replicate n g) = g.
Proof. induction n as [|n IH]; simpl; [done|]. by destruct (comp g g). Qed.

Lemma min_element_from_replicate {A} (comp : A → A → bool) g n :
  min_element_from comp g (replicate n g) = g.
Proof. induction n as [|n IH]; simpl; [done|]. by destruct (comp g g). Qed.

(** A builder that never stores anything but the zero voxel leaves an array
    of zero voxels, whose extrema are both [0.0f]. *)
Lemma construction_all_zero volume mode :
  well_sized (vol_dims volume) →
  (∀ x y z, interior (vol_dims volume) x y z → central_voxel volume x y z = zeroVoxel) →
  ∃ gv, GradientVolume_new volume mode = Ok gv ∧ all_zero gv ∧
        minMagnitude gv = F32.zero ∧ maxMagnitude gv = F32.zero.
Proof.
  intros Hd Hzero.
  destruct (computeGradientVolume_filled volume Hd) as (out & Hrun & Hlen & Hget).
  assert (out = replicate (Z.to_nat (voxel_count (vol_dims volume))) zeroVoxel) as Hout.
  { symmetry. apply replicate_as_Forall. split; [done|].
    apply Forall_lookup. intros i g Hi.
    pose proof (lookup_lt_Some _ _ _ Hi) as Hlt.
    destruct (flat_index_surj (vol_dims volume) (Z.of_nat i) Hd) as (x & y & z & Hin & Hflat);
      [lia|].
    specialize (Hget x y z Hin). rewrite Hflat, Nat2Z.id, Hi in Hget.
    injection Hget as ->. destruct (decide _) as [(Hint & _)|_]; [|done].
    symmetry. by apply Hzero. }
  assert (0 < voxel_count (vol_dims volume)) as Hpos
    by (destruct Hd as (? & ? & ? & _); unfold voxel_count; nia).
  unfold GradientVolume_new. rewrite Hrun. simpl.
  destruct (Z.to_nat (voxel_count (vol_dims volume))) as [|n] eqn:Hn; [lia|].
  rewrite Hout. simpl.
  rewrite min_element_from_replicate, max_element_from_replicate.
  eexists. split; [done|]. split; [|done].
  unfold all_zero. simpl. rewrite Hn. done.
Qed.

(** X4. A volume with every extent at least one (voxel count an [int]) and
    fewer than three voxels along some axis has no interior: whatever its
    samples (NaN included), the constructor returns an array of zero
    voxels, and [minMagnitude()] and [maxMagnitude()] are both [0.0f]. *)
Theorem thin_volume_has_zero_gradients (volume : Volume) (mode : InterpolationMode) :
  well_sized (vol_dims volume) → thin (vol_dims volume) →
  ∃ gv, GradientVolume_new volume mode = Ok gv ∧ all_zero gv ∧
        minMagnitude gv = F32.zero ∧ maxMagnitude gv = F32.zero.
Proof.
  intros Hd Hthin. apply construction_all_zero; [done|].
  intros x y z (Hx & Hy & Hz). unfold thin in Hthin. lia.
Qed.

Lemma thin_volume_has_zero_gradients_witness :
  well_sized (vol_dims nan_slab) ∧ thin (vol_dims nan_slab) ∧
  ∃ gv, GradientVolume_new nan_slab Linear = Ok gv ∧ all_zero gv ∧
        minMagnitude gv = F32.zero ∧ maxMagnitude gv = F32.zero.
Proof.
  assert (well_sized (vol_dims nan_slab)) as Hd
    by (unfold well_sized, voxel_count, Int.INT_MAX; simpl; lia).
  assert (thin (vol_dims nan_slab)) as Ht by (unfold thin; simpl; lia).
  split; [exact Hd|]. split; [exact Ht|].
  exact (thin_volume_has_zero_gradients nan_slab Linear Hd Ht).
Defined.

Lemma sub_same_finite v : F32.is_finite v = true → F32.sub v v = F32.zero.
Proof.
  destruct v as [[]|s| |s m e]; try done. intros _. apply sub_self.
Qed.

(** X5. In a volume with every extent at least one (voxel count an [int]),
    a scalar field with the same finite sample everywhere has the zero
    gradient everywhere: the constructor returns an array of zero voxels,
    and [minMagnitude()] and [maxMagnitude()] are both [0.0f]. *)
Theorem constant_field_has_zero_gradients
    (volume : Volume) (mode : InterpolationMode) (v : float) :
  well_sized (vol_dims volume) → constant_samples volume v → F32.is_finite v = true →
  ∃ gv, GradientVolume_new volume mode = Ok gv ∧ all_zero gv ∧
        minMagnitude gv = F32.zero ∧ maxMagnitude gv = F32.zero.
Proof.
  intros Hd Hconst Hfin. apply construction_all_zero; [done|].
  intros x y z (Hx & Hy & Hz). unfold central_voxel, central_differences.
  rewrite !Hconst by (unfold in_volume; lia).
  rewrite (sub_same_finite v Hfin). reflexivity.
Qed.

Lemma constant_field_has_zero_gradients_witness :
  well_sized (vol_dims constant_volume) ∧ constant_samples constant_volume f32_five ∧
  F32.is_finite f32_five = true ∧
  ∃ gv, GradientVolume_new constant_volume Linear = Ok gv ∧ all_zero gv ∧
        minMagnitude gv = F32.zero ∧ maxMagnitude gv = F32.zero.
Proof.
  assert (well_sized (vol_dims constant_volume)) as Hd
    by (unfold well_sized, voxel_count, Int.INT_MAX; simpl; lia).
  assert (constant_samples constant_volume f32_five) as Hc by (intros x y z _; reflexivity).
  assert (F32.is_finite f32_five = true) as Hf by reflexivity.
  split; [exact Hd|]. split; [exact Hc|]. split; [exact Hf|].
  exact (constant_field_has_zero_gradients constant_volume Linear f32_five Hd Hc Hf).
Defined.

(** ** Volumes without voxels *)

Lemma for_loop_idle {S} lo hi (body : Z → S → outcome S) s :
  (∀ i, lo ≤ i < hi → body i s = Ok s) → for_loop lo hi body s = Ok s.
Proof.
  intros Hbody. destruct (Z.le_gt_cases hi lo) as [Hle|Hgt].
  - by apply for_loop_nil.
  - destruct (for_loop_invariant (fun _ t => t = s) lo hi body s) as (s' & Hrun & ->);
      [lia|done| |done].
    intros i t Hi ->. exists s. split; [by apply Hbody|done].
Qed.

Lemma extent_minus_one k : 0 ≤ k ≤ Int.INT_MAX → Int.sub k 1 = k - 1.
Proof.
  unfold Int.INT_MAX. intros Hk. apply wrap_in_range.
  unfold Int.in_range, Int.INT_MIN, Int.INT_MAX. lia.
Qed.

Lemma computeGradientVolume_without_voxels volume :
  without_voxels (vol_dims volume) → computeGradientVolume volume = Ok [].
Proof.
  intros (Hx & Hy & Hz & Hzero). unfold computeGradientVolume. cbv zeta.
  assert (Int.mul (Int.mul (ix (vol_dims volume)) (iy (vol_dims volume))) (iz (vol_dims volume))
          = 0) as ->.
  { unfold Int.mul. destruct Hzero as [->|[->| ->]].
    - rewrite Z.mul_0_l. change (Int.wrap 0) with 0. done.
    - rewrite Z.mul_0_r. change (Int.wrap 0) with 0. done.
    - rewrite Z.mul_0_r. done. }
  change (0 <? 0) with false. cbv iota. change (Z.to_nat (Int.to_size_t 0)) with 0%nat.
  simpl replicate. rewrite !extent_minus_one by done.
  apply for_loop_idle. intros z Hzr.
  apply for_loop_idle. intros y Hyr.
  apply for_loop_nil. lia.
Qed.

(** X6. A volume with an empty axis (extents not negative) has no voxels:
    the builder returns an empty array without entering the innermost loop,
    both scans dereference the end iterator, and construction is
    undefined. *)
Theorem construction_without_voxels (volume : Volume) (mode : InterpolationMode) :
  without_voxels (vol_dims volume) →
  computeGradientVolume volume = Ok [] ∧ GradientVolume_new volume mode = Undefined.
Proof.
  intros Hd. pose proof (computeGradientVolume_without_voxels volume Hd) as Hrun.
  split; [done|]. unfold GradientVolume_new. rewrite Hrun. done.
Qed.

Lemma construction_without_voxels_witness :
  without_voxels (vol_dims hollow_volume) ∧
  computeGradientVolume hollow_volume = Ok [] ∧
  GradientVolume_new hollow_volume Linear = Undefined.
Proof.
  assert (without_voxels (vol_dims hollow_volume)) as Hd
    by (unfold without_voxels, Int.INT_MAX; simpl; lia).
  split; [exact Hd|]. exact (construction_without_voxels hollow_volume Linear Hd).
Defined.

(** ** The smallest magnitude *)

Lemma mul_self_sign x : F32.is_nan x = false → has_sign false (F32.mul x x).
Proof.
  destruct x as [sx|sx| |sx mx ex]; try done; intros _; unfold F32.mul, SFmul.
  - left. by destruct sx.
  - right. left. by destruct sx.
  - rewrite xorb_nilpotent. apply binary_round_aux_sign. lia.
Qed.

Lemma add_sign x y : has_sign false x → has_sign false y → has_sign false (F32.add x y).
Proof.
  intros [->|[->|(mx & ex & ->)]] [->|[->|(my & ey & ->)]];
    try (by left); try (right; left; done); try (right; right; by eauto).
  unfold F32.add, SFadd. cbv [cond_Zopp]. rewrite <- Pos2Z.inj_add. simpl.
  apply binary_round_sign.
Qed.

Lemma sqrt_sign x : has_sign false x → has_sign false (F32.sqrt x).
Proof.
  intros [->|[->|(m & e & ->)]]; [by left|right; by left|].
  unfold F32.sqrt, SFsqrt.
  destruct (SFsqrt_core_binary _ _ _ _) as [[mz ez] lz] eqn:Hcore.
  apply binary_round_aux_sign.
  unfold SFsqrt_core_binary in Hcore.
  set (m' := match _ - _ with 0 => Zpos m | Zpos _ => Z.shiftl (Zpos m) _ | Zneg _ => 0 end)
    in Hcore.
  destruct (Z.sqrtrem m') as [q r] eqn:Hsq.
  injection Hcore as <- _ _.
  pose proof (Z.sqrtrem_sqrt m') as Hs. rewrite Hsq in Hs. simpl in Hs. subst q.
  apply Z.sqrt_nonneg.
Qed.

Lemma length_sign v :
  F32.is_nan (vx v) = false → F32.is_nan (vy v) = false → F32.is_nan (vz v) = false →
  has_sign false (Glm.length v).
Proof.
  intros Hx Hy Hz. unfold Glm.length, Glm.dot.
  apply sqrt_sign, add_sign; [apply add_sign|]; by apply mul_self_sign.
Qed.

Lemma leb_zero_sign m : has_sign false m → F32.leb m F32.zero = true → m = F32.zero.
Proof. intros [->|[->|(p & e & ->)]]; done. Qed.

Lemma zero_leb_sign m : has_sign false m → F32.leb F32.zero m = true.
Proof. intros [->|[->|(p & e & ->)]]; done. Qed.

Lemma GradientVolume_new_inv volume mode gv :
  GradientVolume_new volume mode = Ok gv →
  computeGradientVolume volume = Ok (m_data gv) ∧
  computeMinMagnitude (m_data gv) = Ok (m_minMagnitude gv) ∧
  computeMaxMagnitude (m_data gv) = Ok (m_maxMagnitude gv) ∧
  m_dim gv = vol_dims volume ∧ interpolationMode gv = mode.
Proof.
  unfold GradientVolume_new.
  destruct (computeGradientVolume volume) as [out| |]; [|done..]. simpl.
  destruct (computeMinMagnitude out) as [mn| |] eqn:Hmn; [|done..]. simpl.
  destruct (computeMaxMagnitude out) as [mx| |] eqn:Hmx; [|done..]. simpl.
  intros [= <-]. done.
Qed.

Lemma stored_magnitude_sign volume out g :
  well_sized (vol_dims volume) → finite_samples volume →
  computeGradientVolume volume = Ok out → g ∈ out → has_sign false (magnitude g).
Proof.
  intros Hd Hfin Hrun Hg.
  destruct (computeGradientVolume_elements volume out g Hd Hrun Hg)
    as [->|(x & y & z & Hint & ->)]; [by left|].
  destruct (central_differences_not_nan volume x y z Hfin Hint) as (? & ? & ?).
  by apply length_sign.
Qed.

(** X7. The corner voxel of the array is never written, so a zero is always
    among the magnitudes: for a volume with every extent at least one
    (voxel count an [int]) and finite samples, [minMagnitude()] is exactly
    [0.0f], and [maxMagnitude()] is not below it. *)
Theorem minMagnitude_is_zero (volume : Volume) (mode : InterpolationMode) :
  well_sized (vol_dims volume) → finite_samples volume →
  ∃ gv, GradientVolume_new volume mode = Ok gv ∧
        minMagnitude gv = F32.zero ∧
        F32.leb F32.zero (maxMagnitude gv) = true.
Proof.
  intros Hd Hfin.
  destruct (construction_returns volume mode Hd) as (gv & Hnew & Hdim & Hlen & Hget).
  destruct (GradientVolume_new_inv volume mode gv Hnew) as (Hrun & Hmn & Hmx & _ & _).
  exists gv. split; [done|].
  assert (zeroVoxel ∈ m_data gv) as Hzero.
  { assert (in_volume (vol_dims volume) 0 0 0) as Hin
      by (destruct Hd as (? & ? & ? & _); unfold in_volume; lia).
    specialize (Hget 0 0 0 Hin). rewrite decide_False in Hget.
    - by eapply list_elem_of_lookup_2.
    - unfold written, interior. lia. }
  set (ok := fun g => g ∈ m_data gv).
  assert (∀ g, ok g → F32.is_nan (magnitude g) = false) as Hok.
  { intros g Hg. by eapply computeGradientVolume_magnitude. }
  destruct (m_data gv) as [|g0 rest] eqn:Hdata; [by apply elem_of_nil in Hzero|].
  assert (ok g0) as Hg0 by (unfold ok; apply elem_of_cons; by left).
  assert (Forall ok rest) as Hrest.
  { apply Forall_forall. intros g Hg. unfold ok. apply elem_of_cons. by right. }
  destruct (max_element_from_spec ok Hok g0 rest Hg0 Hrest) as [Hmax_in Hmax].
  destruct (min_element_from_spec ok Hok g0 rest Hg0 Hrest) as [Hmin_in Hmin].
  simpl in Hmn, Hmx. injection Hmn as Hmn. injection Hmx as Hmx.
  unfold minMagnitude, maxMagnitude. rewrite <- Hmn, <- Hmx. split.
  - apply leb_zero_sign; [|apply (Hmin zeroVoxel Hzero)].
    eapply stored_magnitude_sign; [done..|]. apply Hmin_in.
  - apply zero_leb_sign. eapply stored_magnitude_sign; [done..|]. apply Hmax_in.
Qed.

Lemma minMagnitude_is_zero_witness :
  well_sized (vol_dims ramp_volume) ∧ finite_samples ramp_volume ∧
  ∃ gv, GradientVolume_new ramp_volume Linear = Ok gv ∧
        minMagnitude gv = F32.zero ∧
        F32.leb F32.zero (maxMagnitude gv) = true.
Proof.
  assert (well_sized (vol_dims ramp_volume)) as Hd
    by (unfold well_sized, voxel_count, Int.INT_MAX; simpl; lia).
  assert (finite_samples ramp_volume) as Hfin.
  { intros x y z (Hx & _). simpl in *.
    assert (x = 0 ∨ x = 1 ∨ x = 2) as [->|[->| ->]] by lia; reflexivity. }
  split; [exact Hd|]. split; [exact Hfin|].
  exact (minMagnitude_is_zero ramp_volume Linear Hd Hfin).
Defined.

(* ===================================================================== *)
(** * Further properties of the queries                                    *)
(* ===================================================================== *)

(** ** Blending equal voxels *)

(** One component of a blend of a direction with itself: the difference is
    [+0], its product with a finite factor is a zero, and adding a zero
    changes at most the sign of a zero. *)
Lemma blend_same_component x t :
  F32.is_finite x = true → F32.is_finite t = true →
  let r := F32.add (F32.mul (F32.sub x x) t) x in
  F32.eqb r x = true ∧ F32.mul r r = F32.mul x x ∧ F32.is_finite r = true.
Proof.
  intros Hx Ht. rewrite (sub_same_finite x Hx).
  destruct t as [st|st| |st mt et]; try done;
    destruct x as [sx|sx| |sx mx ex]; try done; simpl.
  - destruct st, sx; done.
  - split; [|done]. apply (eqb_refl (S754_finite sx mx ex)). done.
  - destruct st, sx; done.
  - split; [|done]. apply (eqb_refl (S754_finite sx mx ex)). done.
Qed.

(** X8. Blending a voxel with itself changes nothing a comparison can see:
    for a voxel whose magnitude is the norm of its finite direction and any
    finite factor, [linearInterpolate(g, g, t)] has the magnitude of [g], a
    direction that compares equal to that of [g] component by component,
    and finite components again. *)
Theorem linearInterpolate_same_voxel (g : GradientVoxel) (t : float) :
  consistent g → finite3 (dir g) → F32.is_finite t = true →
  magnitude (linearInterpolate g g t) = magnitude g ∧
  same_voxel (linearInterpolate g g t) g = true ∧
  finite3 (dir (linearInterpolate g g t)).
Proof.
  intros Hc (Hx & Hy & Hz) Ht. destruct g as [[x y z] m]. unfold consistent in Hc. simpl in *.
  destruct (blend_same_component x t Hx Ht) as (Ex & Mx & Fx).
  destruct (blend_same_component y t Hy Ht) as (Ey & My & Fy).
  destruct (blend_same_component z t Hz Ht) as (Ez & Mz & Fz).
  assert (Glm.length (Glm.vadd (Glm.vscale (Glm.vsub (Vec3 x y z) (Vec3 x y z)) t) (Vec3 x y z))
          = m) as Hlen.
  { rewrite Hc. unfold Glm.length, Glm.dot. simpl. rewrite Mx, My, Mz. done. }
  unfold linearInterpolate. simpl dir. split; [done|]. split; [|done].
  unfold same_voxel, same_vec3. simpl. rewrite Ex, Ey, Ez. simpl.
  rewrite Hlen. apply eqb_refl. rewrite Hc.
  apply nonneg_not_nan, length_nonneg; simpl; [by destruct x|by destruct y|by destruct z].
Qed.

Lemma linearInterpolate_same_voxel_witness :
  consistent unit_x ∧ finite3 (dir unit_x) ∧ F32.is_finite f32_two_and_half = true ∧
  magnitude (linearInterpolate unit_x unit_x f32_two_and_half) = magnitude unit_x ∧
  same_voxel (linearInterpolate unit_x unit_x f32_two_and_half) unit_x = true ∧
  finite3 (dir (linearInterpolate unit_x unit_x f32_two_and_half)).
Proof.
  assert (consistent unit_x) as H1 by reflexivity.
  assert (finite3 (dir unit_x)) as H2 by (repeat split; reflexivity).
  assert (F32.is_finite f32_two_and_half = true) as H3 by reflexivity.
  split; [exact H1|]. split; [exact H2|]. split; [exact H3|].
  exact (linearInterpolate_same_voxel unit_x f32_two_and_half H1 H2 H3).
Defined.

(** ** Exceptions *)

Lemma bind_not_thrown {A B} (m : outcome A) (f : A → outcome B) :
  m ≠ Thrown → (∀ a, f a ≠ Thrown) → (a ← m; f a) ≠ Thrown.
Proof. destruct m as [a| |]; simpl; [auto|done|done]. Qed.

Lemma to_int_not_thrown x : F32.to_int x ≠ Thrown.
Proof. destruct x as [s|s| |s m e]; simpl; try done. by destruct (Int.in_rangeb _). Qed.

Lemma getGradient_not_thrown gv x y z : getGradient gv x y z ≠ Thrown.
Proof. unfold getGradient, vector_get. by destruct (_ !! _). Qed.

Lemma biLinearInterpolation_not_thrown gv xy z : biLinearInterpolation gv xy z ≠ Thrown.
Proof.
  unfold biLinearInterpolation.
  repeat (apply bind_not_thrown;
          [first [apply to_int_not_thrown | apply getGradient_not_thrown]|intros ?]).
  done.
Qed.

Lemma getGradientLinearInterpolate_not_thrown gv coord :
  getGradientLinearInterpolate gv coord ≠ Thrown.
Proof.
  unfold getGradientLinearInterpolate. destruct (_ || _); [done|].
  repeat (apply bind_not_thrown;
          [first [apply to_int_not_thrown | apply biLinearInterpolation_not_thrown]|intros ?]).
  done.
Qed.

Lemma getGradientNearestNeighbor_not_thrown gv coord :
  getGradientNearestNeighbor gv coord ≠ Thrown.
Proof.
  unfold getGradientNearestNeighbor, roundToPositiveInt. destruct (_ || _); [done|].
  repeat (apply bind_not_thrown; [apply to_int_not_thrown|intros ?]).
  apply getGradient_not_thrown.
Qed.

(** X9. The only exception of the query interface is the one of the
    [default] branch: [getGradientInterpolate] throws exactly when the mode
    is none of NearestNeighbour, Linear and Cubic; no coordinate and no
    array make a query in one of the three modes throw. *)
Theorem query_throws_iff_unknown_mode (gv : GradientVolume) (coord : vec3) :
  getGradientInterpolate gv coord = Thrown ↔ interpolationMode gv = OtherMode.
Proof.
  unfold getGradientInterpolate. destruct (interpolationMode gv); split; try done; intros H.
  - by apply getGradientNearestNeighbor_not_thrown in H.
  - by apply getGradientLinearInterpolate_not_thrown in H.
  - by apply getGradientLinearInterpolate_not_thrown in H.
Qed.

(** ** The margin test, read exactly *)

(** A positive value at an exponent a float can have does not round to
    zero. *)
Lemma mant_at_positive p e : -149 ≤ e → 0 < mant_at p e (round_exp p e).
Proof.
  intros He. pose proof (mant_at_bounds p e) as [[Hlo Hhi] Hnormal].
  destruct (Z.le_gt_cases (-149) (Zpos (digits2_pos p) + e - 24)) as [Hn|Hs].
  - specialize (Hnormal Hn). lia.
  - assert (round_exp p e = -149) as Hfe by (unfold round_exp; lia).
    rewrite Hfe. unfold mant_at. destruct (Z.ltb_spec (-149) e) as [Hlt|Hge].
    + assert (0 < 2 ^ (e - -149)) by (apply Z.pow_pos_nonneg; lia). nia.
    + replace (-149 - e) with 0 by lia. rewrite rne_zero_shift. lia.
Qed.

Lemma binary_round_negative p e :
  -149 ≤ e → F32.ltb (binary_round F32.prec F32.emax true p e) F32.zero = true.
Proof.
  intros He. rewrite binary_round_spec. pose proof (mant_at_positive p e He) as Hpos.
  unfold pack. destruct (Z.eqb_spec (mant_at p e (round_exp p e)) 0); [lia|].
  repeat destruct (_ =? _); repeat destruct (_ <=? _); done.
Qed.

(** The lower test of the margin is exact: it passes only when the value
    is at least one. *)
Lemma lower_test_exact m e :
  F32.valid (S754_finite false m e) = true →
  F32.ltb (F32.sub (S754_finite false m e) F32.one) F32.zero = false →
  2 ^ (- Z.min e (-23)) ≤ Zpos m * 2 ^ (e - Z.min e (-23)).
Proof.
  intros Hv Hlow. destruct (valid_mantissa _ _ _ Hv) as (_ & He & _).
  destruct (Z.le_gt_cases (2 ^ (- Z.min e (-23))) (Zpos m * 2 ^ (e - Z.min e (-23))))
    as [?|Hgt]; [done|].
  unfold F32.sub, F32.one, SFsub in Hlow. cbv zeta in Hlow. simpl cond_Zopp in Hlow.
  rewrite shl_align_value, one_scaled in Hlow by lia.
  destruct (Zpos m * 2 ^ (e - Z.min e (-23)) - 2 ^ (- Z.min e (-23))) as [|p|p] eqn:Hd; try lia.
  unfold binary_normalize in Hlow. rewrite binary_round_negative in Hlow by lia. done.
Qed.

(** An axis on which the margin test passes has at least three voxels. *)
Lemma margin_needs_three c dim :
  F32.valid c = true → F32.is_nan c = false →
  F32.ltb (F32.sub c F32.one) F32.zero = false →
  F32.geb (F32.add c F32.one) (F32.of_int dim) = false →
  3 ≤ dim.
Proof.
  intros Hv Hnan Hlow Hhigh. destruct (Z.le_gt_cases 3 dim) as [?|Hdim]; [done|exfalso].
  destruct c as [s|s| |s m e]; try done.
  - destruct s; [done|]. simpl in Hhigh. unfold F32.geb in Hhigh.
    change (SFleb (F32.of_int dim) (S754_infinity false))
      with (F32.leb (F32.of_int dim) (S754_infinity false)) in Hhigh.
    rewrite leb_infinity in Hhigh by apply of_int_not_nan. done.
  - destruct s; [by rewrite below_zero_outside in Hlow|].
    pose proof (lower_test_exact m e Hv Hlow) as Hone.
    assert (0 < 2 ^ (- Z.min e (-23))) as Hpow by (apply Z.pow_pos_nonneg; lia).
    destruct (Z.le_gt_cases 1 dim) as [Hpos|Hnonpos].
    + pose proof (upper_test_exact m e dim Hpos Hhigh) as Hup.
      unfold plus_one_scaled in Hup. nia.
    + (* an extent below one *)
      unfold F32.geb in Hhigh.
      assert (F32.leb (F32.of_int dim) (F32.add (S754_finite false m e) F32.one) = true) as Hle;
        [|unfold F32.leb in Hle; congruence].
      rewrite add_one_spec.
      pose proof (binary_round_sign false (Z.to_pos (plus_one_scaled m e)) (Z.min e (-23)))
        as Hsum.
      pose proof (binary_round_mono 8388608 (-23) (Z.to_pos (plus_one_scaled m e))
                    (Z.min e (-23)) (Z.min e (-23)) ltac:(lia) ltac:(lia)) as Hmono.
      pose proof (plus_one_scaled_pos m e) as Hp.
      rewrite Z2Pos.id in Hmono by lia. rewrite Z.sub_diag in Hmono.
      change (2 ^ 0) with 1 in Hmono. change 8388608 with (2 ^ 23) in Hmono at 1.
      rewrite <- Z.pow_add_r in Hmono by lia.
      replace (23 + (-23 - Z.min e (-23))) with (- Z.min e (-23)) in Hmono by lia.
      specialize (Hmono ltac:(lia)).
      change (binary_round F32.prec F32.emax false 8388608 (-23)) with F32.one in Hmono.
      unfold F32.of_int, binary_normalize.
      destruct dim as [|d|d]; [|lia|].
      * apply zero_leb_sign, Hsum.
      * pose proof (binary_round_sign true d 0) as Hneg.
        destruct Hsum as [Hs|[Hs|(ms & es & Hs)]]; rewrite Hs in *;
          destruct Hneg as [Hn|[Hn|(mn & en & Hn)]]; rewrite Hn; done.
Qed.

Lemma linear_guard_fires_when_thin d coord :
  thin d → valid3 coord → not_nan3 coord → outside_margin d coord.
Proof.
  intros Hthin (Vx & Vy & Vz) (Nx & Ny & Nz).
  destruct (decide (outside_margin d coord)) as [?|Hin]; [done|exfalso].
  - unfold outside_margin in Hin.
    assert (3 ≤ ix d).
    { apply (margin_needs_three (vx coord)); [done..| |];
        apply not_true_is_false; intros E; apply Hin; auto 7. }
    assert (3 ≤ iy d).
    { apply (margin_needs_three (vy coord)); [done..| |];
        apply not_true_is_false; intros E; apply Hin; auto 7. }
    assert (3 ≤ iz d).
    { apply (margin_needs_three (vz coord)); [done..| |];
        apply not_true_is_false; intros E; apply Hin; auto 7. }
    unfold thin in Hthin. lia.
Qed.

(** X10. A gradient volume with fewer than three voxels along some axis
    answers every trilinear query with the zero voxel: no coordinate (a
    float other than NaN in every component) passes the margin test.  This
    holds for any array and for extents of any sign. *)
Theorem linear_query_on_thin_volume (gv : GradientVolume) (coord : vec3) :
  thin (m_dim gv) → valid3 coord → not_nan3 coord →
  getGradientLinearInterpolate gv coord = Ok zeroVoxel.
Proof.
  intros Hthin Hv Hn. unfold getGradientLinearInterpolate.
  pose proof (linear_guard_fires_when_thin (m_dim gv) coord Hthin Hv Hn) as Hout.
  apply margin_guard in Hout. rewrite Hout. done.
Qed.

Lemma linear_query_on_thin_volume_witness :
  thin (m_dim slab_gradient) ∧
  getGradientLinearInterpolate slab_gradient ramp_off_lattice = Ok zeroVoxel.
Proof.
  assert (thin (m_dim slab_gradient)) as Hthin by (unfold thin; simpl; lia).
  split; [exact Hthin|].
  apply (linear_query_on_thin_volume slab_gradient ramp_off_lattice Hthin);
    repeat split; reflexivity.
Defined.

(** ** The two guards *)

Lemma valid_is_rounded s m e :
  F32.valid (S754_finite s m e) = true →
  binary_round F32.prec F32.emax s m e = S754_finite s m e.
Proof.
  intros Hv. apply (binary_round_exact s m e m e e); [done|lia|lia|done].
Qed.

(** Adding one does not make a float smaller. *)
Lemma leb_add_one m e :
  F32.valid (S754_finite false m e) = true →
  F32.leb (S754_finite false m e) (F32.add (S754_finite false m e) F32.one) = true.
Proof.
  intros Hv. rewrite add_one_spec. rewrite <- (valid_is_rounded false m e Hv) at 1.
  pose proof (plus_one_scaled_pos m e) as Hp.
  assert (0 < 2 ^ (- Z.min e (-23))) by (apply Z.pow_pos_nonneg; lia).
  apply (binary_round_mono m e _ (Z.min e (-23)) (Z.min e (-23))); [lia..|].
  rewrite Z2Pos.id by lia. rewrite Z.sub_diag. change (2 ^ 0) with 1.
  unfold plus_one_scaled. lia.
Qed.

Lemma of_int_sign dim : 1 ≤ dim → has_sign false (F32.of_int dim).
Proof.
  intros Hdim. unfold F32.of_int, binary_normalize. destruct dim as [|d|d]; try lia.
  apply binary_round_sign.
Qed.

Lemma outside_axis_low c :
  F32.ltb c F32.zero = true → F32.ltb (F32.sub c F32.one) F32.zero = true.
Proof.
  destruct c as [s|s| |s m e].
  - by destruct s.
  - by destruct s.
  - done.
  - destruct s; [|done]. intros _. apply below_zero_outside.
Qed.

Lemma outside_axis_high c dim :
  F32.valid c = true → 1 ≤ dim →
  F32.geb c (F32.of_int dim) = true → F32.geb (F32.add c F32.one) (F32.of_int dim) = true.
Proof.
  intros Hv Hdim. unfold F32.geb.
  change (SFleb (F32.of_int dim) c = true → SFleb (F32.of_int dim) (F32.add c F32.one) = true)
    with (F32.leb (F32.of_int dim) c = true → F32.leb (F32.of_int dim) (F32.add c F32.one) = true).
  intros Hge. pose proof (of_int_sign dim Hdim) as Hsign.
  destruct c as [s|s| |s m e].
  - destruct Hsign as [Hs|[Hs|(md & ed & Hs)]]; rewrite Hs in *; done.
  - destruct s; [|done]. destruct Hsign as [Hs|[Hs|(md & ed & Hs)]]; rewrite Hs in *; done.
  - by apply leb_nan_r in Hge.
  - destruct s.
    + destruct Hsign as [Hs|[Hs|(md & ed & Hs)]]; rewrite Hs in *; done.
    + eapply leb_trans; [exact Hge|]. by apply leb_add_one.
Qed.

Lemma outside_volume_margin d coord :
  1 ≤ ix d → 1 ≤ iy d → 1 ≤ iz d → valid3 coord →
  outside_volume d coord → outside_margin d coord.
Proof.
  intros Hx Hy Hz (Vx & Vy & Vz) Hout.
  unfold outside_volume in Hout. unfold outside_margin.
  destruct Hout as [H|[H|[H|[H|[H|H]]]]].
  - left. by apply outside_axis_low.
  - right; left. by apply outside_axis_low.
  - right; right; left. by apply outside_axis_low.
  - right; right; right; left. by apply outside_axis_high.
  - right; right; right; right; left. by apply outside_axis_high.
  - right; right; right; right; right. by apply outside_axis_high.
Qed.

(** X11. The margin of the trilinear query lies inside the volume: for
    extents of at least one, a coordinate the nearest-neighbour guard
    rejects as outside the volume is rejected by the trilinear guard as
    well, and both queries return the zero voxel for it. *)
Theorem outside_volume_is_outside_margin (gv : GradientVolume) (coord : vec3) :
  1 ≤ ix (m_dim gv) → 1 ≤ iy (m_dim gv) → 1 ≤ iz (m_dim gv) → valid3 coord →
  outside_volume (m_dim gv) coord →
  outside_margin (m_dim gv) coord ∧
  getGradientNearestNeighbor gv coord = Ok zeroVoxel ∧
  getGradientLinearInterpolate gv coord = Ok zeroVoxel.
Proof.
  intros Hx Hy Hz Hvalid Hout.
  pose proof (outside_volume_margin _ coord Hx Hy Hz Hvalid Hout) as Hmargin.
  split; [done|]. split.
  - unfold getGradientNearestNeighbor. apply nearest_guard in Hout. by rewrite Hout.
  - unfold getGradientLinearInterpolate. apply margin_guard in Hmargin. by rewrite Hmargin.
Qed.

Lemma outside_volume_is_outside_margin_witness :
  outside_volume (m_dim ramp_gradient) (Glm.of_ivec3 (IVec3 3 1 1)) ∧
  getGradientLinearInterpolate ramp_gradient (Glm.of_ivec3 (IVec3 3 1 1)) = Ok zeroVoxel.
Proof.
  assert (outside_volume (m_dim ramp_gradient) (Glm.of_ivec3 (IVec3 3 1 1))) as Hout.
  { unfold outside_volume. right; right; right; left. reflexivity. }
  split; [exact Hout|].
  apply (outside_volume_is_outside_margin ramp_gradient (Glm.of_ivec3 (IVec3 3 1 1)));
    [simpl; lia..|repeat split; reflexivity|exact Hout].
Defined.

(** ** Nearest neighbour on the lattice *)

Lemma digits2_pos_le p q : (p ≤ q)%positive → Zpos (digits2_pos p) ≤ Zpos (digits2_pos q).
Proof.
  intros Hle. pose proof (digits2_pos_bounds p) as [Hlo _].
  pose proof (digits2_pos_bounds q) as [_ Hhi].
  destruct (Z.le_gt_cases (Zpos (digits2_pos p)) (Zpos (digits2_pos q))) as [?|Hgt]; [done|].
  assert (2 ^ Zpos (digits2_pos q) ≤ 2 ^ (Zpos (digits2_pos p) - 1))
    by (apply Z.pow_le_mono_r; lia).
  lia.
Qed.

Lemma digits_below_24 p : Zpos p < 16777216 → Zpos (digits2_pos p) ≤ 24.
Proof.
  intros Hp. pose proof (digits2_pos_bounds p) as [Hlo Hhi].
  destruct (Z.le_gt_cases (Zpos (digits2_pos p)) 24) as [?|Hgt]; [done|].
  assert (2 ^ 24 ≤ 2 ^ (Zpos (digits2_pos p) - 1)) by (apply Z.pow_le_mono_r; lia).
  change (2 ^ 24) with 16777216 in *. lia.
Qed.

(** The float of an integer with at most 24 significant bits. *)
Lemma of_int_canonical p :
  Zpos p < 16777216 →
  F32.of_int (Zpos p) =
    S754_finite false (Z.to_pos (Zpos p * 2 ^ (24 - Zpos (digits2_pos p))))
                (Zpos (digits2_pos p) - 24).
Proof.
  intros Hp. pose proof (digits_below_24 p Hp) as Hd.
  set (d := Zpos (digits2_pos p)) in *.
  assert (0 < 2 ^ (24 - d)) by (apply Z.pow_pos_nonneg; lia).
  unfold F32.of_int, binary_normalize.
  apply (binary_round_exact false p 0 _ (d - 24) (d - 24)).
  - unfold bounded, canonical_mantissa. rewrite fexp_32.
    rewrite (digits2_pos_shift p (24 - d)) by lia. fold d.
    apply andb_true_iff. split; [apply Z.eqb_eq; lia|apply Z.leb_le].
    change (F32.emax - F32.prec) with 104. lia.
  - lia.
  - lia.
  - rewrite Z2Pos.id by nia. rewrite Z.sub_diag. change (2 ^ 0) with 1.
    rewrite Z.mul_1_r. replace (0 - (d - 24)) with (24 - d) by lia. done.
Qed.

(** Converted integers keep their strict order, below [2^24]. *)
Lemma of_int_lt n dim :
  0 ≤ n < dim → n < 8388608 → F32.leb (F32.of_int dim) (F32.of_int n) = false.
Proof.
  intros Hn Hsmall. apply not_true_is_false. intros Hle.
  assert (F32.leb (F32.of_int (n + 1)) (F32.of_int dim) = true) as Hmono.
  { unfold F32.of_int, binary_normalize.
    destruct (n + 1) as [|q|q] eqn:Hq; try lia. destruct dim as [|d|d]; try lia.
    apply (binary_round_mono q 0 d 0 0); lia. }
  pose proof (leb_trans _ _ _ Hmono Hle) as Hbad. clear Hmono Hle.
  destruct n as [|p|p]; [done| |lia].
  destruct (Zpos p + 1) as [|q|q] eqn:Hq; try lia.
  rewrite (of_int_canonical p), (of_int_canonical q) in Hbad by lia.
  pose proof (digits2_pos_le p q ltac:(lia)) as Hd.
  pose proof (digits_below_24 q ltac:(lia)) as Hdq.
  assert (0 < 2 ^ (24 - Zpos (digits2_pos p))) by (apply Z.pow_pos_nonneg; lia).
  assert (0 < 2 ^ (24 - Zpos (digits2_pos q))) by (apply Z.pow_pos_nonneg; lia).
  apply leb_key in Hbad; [|done..]. unfold lex_le in Hbad. simpl in Hbad.
  rewrite !Z2Pos.id in Hbad by nia.
  destruct Hbad as [?|[_ [?|[Heq Hm]]]]; try lia.
  assert (Zpos (digits2_pos q) = Zpos (digits2_pos p)) as Hsame by lia.
  rewrite Hsame in Hm. nia.
Qed.

Lemma add_half_spec m e :
  F32.add (S754_finite false m e) F32.half =
  binary_round F32.prec F32.emax false
    (Z.to_pos (Zpos m * 2 ^ (e - Z.min e (-24)) + 8388608 * 2 ^ (-24 - Z.min e (-24))))
    (Z.min e (-24)).
Proof.
  unfold F32.add, F32.half, SFadd. cbv zeta. simpl cond_Zopp.
  rewrite !shl_align_value by lia.
  assert (0 < 2 ^ (e - Z.min e (-24))) by (apply Z.pow_pos_nonneg; lia).
  assert (0 < 2 ^ (-24 - Z.min e (-24))) by (apply Z.pow_pos_nonneg; lia).
  destruct (Zpos m * 2 ^ (e - Z.min e (-24)) + 8388608 * 2 ^ (-24 - Z.min e (-24)))
    as [|p|p] eqn:Hs; try lia.
  done.
Qed.

(** Rounding half up gives a small integer back. *)
Lemma round_of_int n :
  0 ≤ n < 8388608 → roundToPositiveInt (F32.of_int n) = Ok n.
Proof.
  intros Hn. destruct n as [|p|p]; [reflexivity| |lia].
  unfold roundToPositiveInt. rewrite (of_int_canonical p) by lia.
  pose proof (digits_below_24 p ltac:(lia)) as Hd.
  pose proof (digits2_pos_bounds p) as [Hplo Hphi].
  set (d := Zpos (digits2_pos p)) in *.
  assert (0 < 2 ^ (24 - d)) by (apply Z.pow_pos_nonneg; lia).
  assert (0 < 2 ^ d) by (apply Z.pow_pos_nonneg; lia).
  assert (2 ^ (24 - d) * 2 ^ d = 16777216) as Hsplit.
  { rewrite <- Z.pow_add_r by lia. replace (24 - d + d) with 24 by lia. done. }
  rewrite add_half_spec. rewrite Z2Pos.id by nia.
  assert (Z.min (d - 24) (-24) = -24) as -> by lia.
  replace (d - 24 - -24) with d by lia. change (2 ^ (-24 - -24)) with 1.
  assert (Zpos p * 2 ^ (24 - d) * 2 ^ d + 8388608 * 1 = (2 * Zpos p + 1) * 8388608) as -> by nia.
  destruct (2 * Zpos p + 1) as [|q|q] eqn:Hq; try lia.
  pose proof (digits_below_24 q ltac:(lia)) as Hdq.
  pose proof (digits2_pos_bounds q) as [Hqlo Hqhi].
  set (d2 := Zpos (digits2_pos q)) in *.
  assert (0 < 2 ^ (24 - d2)) by (apply Z.pow_pos_nonneg; lia).
  assert (0 < 2 ^ (d2 - 1)) by (apply Z.pow_pos_nonneg; lia).
  assert (2 ^ (24 - d2) * 2 ^ (d2 - 1) = 8388608) as Hsplit2.
  { rewrite <- Z.pow_add_r by lia. replace (24 - d2 + (d2 - 1)) with 23 by lia. done. }
  rewrite (binary_round_exact false _ (-24) (Z.to_pos (Zpos q * 2 ^ (24 - d2))) (d2 - 25) (-24)).
  - unfold F32.to_int, F32.truncZ, F32.floorZ, F32.signed. simpl cond_Zopp.
    rewrite Z2Pos.id by nia.
    destruct (Z.leb_spec 0 (d2 - 25)); [lia|].
    rewrite Z.shiftr_div_pow2 by lia.
    replace (- (d2 - 25)) with (1 + (24 - d2)) by lia.
    rewrite Z.pow_add_r by lia. change (2 ^ 1) with 2.
    rewrite Z.div_mul_cancel_r by lia.
    assert (Zpos q / 2 = Zpos p) as ->.
    { rewrite <- Hq. rewrite Z.mul_comm, Z.div_add_l by lia. change (1 / 2) with 0. lia. }
    unfold Int.in_rangeb, Int.INT_MIN, Int.INT_MAX.
    destruct (Z.leb_spec (-2147483648) (Zpos p)), (Z.leb_spec (Zpos p) 2147483647); try lia.
    done.
  - unfold bounded, canonical_mantissa. rewrite fexp_32.
    rewrite (digits2_pos_shift q (24 - d2)) by lia. fold d2.
    apply andb_true_iff. split; [apply Z.eqb_eq; lia|apply Z.leb_le].
    change (F32.emax - F32.prec) with 104. lia.
  - lia.
  - lia.
  - rewrite !Z2Pos.id by nia. rewrite Z.sub_diag. change (2 ^ 0) with 1.
    replace (d2 - 25 - -24) with (d2 - 1) by lia. nia.
Qed.

Lemma of_int_not_negative n : 0 ≤ n → F32.ltb (F32.of_int n) F32.zero = false.
Proof.
  intros Hn. destruct n as [|p|p]; [done| |lia].
  pose proof (of_int_sign (Zpos p) ltac:(lia)) as [Hs|[Hs|(m & e & Hs)]]; rewrite Hs; done.
Qed.

(** X12. At a lattice point of the volume, given as converted integers
    below [2^23], the nearest-neighbour query passes its guard, rounds back
    to the same integers and is [getGradient] there. *)
Theorem nearest_neighbour_at_lattice_point (gv : GradientVolume) (x y z : Z) :
  in_volume (m_dim gv) x y z → x < 8388608 → y < 8388608 → z < 8388608 →
  ¬ outside_volume (m_dim gv) (Glm.of_ivec3 (IVec3 x y z)) ∧
  getGradientNearestNeighbor gv (Glm.of_ivec3 (IVec3 x y z)) = getGradient gv x y z.
Proof.
  intros (Hx & Hy & Hz) Sx Sy Sz.
  assert (¬ outside_volume (m_dim gv) (Glm.of_ivec3 (IVec3 x y z))) as Hin.
  { unfold outside_volume, F32.geb. simpl.
    change SFleb with F32.leb.
    rewrite !of_int_not_negative, !of_int_lt by lia. intuition discriminate. }
  split; [done|]. unfold getGradientNearestNeighbor.
  destruct (_ || _) eqn:Hguard; [apply nearest_guard in Hguard; contradiction|].
  simpl. rewrite !round_of_int by lia. done.
Qed.

Lemma nearest_neighbour_at_lattice_point_witness :
  in_volume (m_dim ramp_gradient) 1 2 0 ∧
  getGradientNearestNeighbor ramp_gradient (Glm.of_ivec3 (IVec3 1 2 0))
  = getGradient ramp_gradient 1 2 0.
Proof.
  assert (in_volume (m_dim ramp_gradient) 1 2 0) as Hin by (unfold in_volume; simpl; lia).
  split; [exact Hin|].
  apply (nearest_neighbour_at_lattice_point ramp_gradient 1 2 0 Hin); lia.
Defined.

(** ** Queries into an array of zero voxels *)

(** Rounding gives a float of the format. *)
Lemma binary_round_valid s m e : F32.valid (binary_round F32.prec F32.emax s m e) = true.
Proof.
  rewrite binary_round_spec.
  pose proof (mant_at_bounds m e) as [[Hq0 Hq1] Hbig].
  assert (-149 ≤ round_exp m e) as Hfe by (unfold round_exp; lia).
  unfold pack. destruct (Z.eqb_spec (mant_at m e (round_exp m e)) 0) as [|Hne]; [done|].
  destruct (Z.eqb_spec (mant_at m e (round_exp m e)) 16777216) as [|Hne2].
  - destruct (Z.leb_spec (round_exp m e + 1) 104) as [Hle|]; [|done].
    unfold F32.valid, valid_binary, bounded, canonical_mantissa. rewrite fexp_32.
    apply andb_true_iff. split; [apply Z.eqb_eq|apply Z.leb_le].
    + change (Zpos (digits2_pos 8388608)) with 24. lia.
    + change (F32.emax - F32.prec) with 104. lia.
  - destruct (Z.leb_spec (round_exp m e) 104) as [Hle|]; [|done].
    set (q := mant_at m e (round_exp m e)) in *.
    assert (Zpos (Z.to_pos q) = q) as Hq by (rewrite Z2Pos.id; lia).
    unfold F32.valid, valid_binary, bounded, canonical_mantissa. rewrite fexp_32.
    apply andb_true_iff. split; [apply Z.eqb_eq|apply Z.leb_le].
    + destruct (Z.le_gt_cases (-149) (Zpos (digits2_pos m) + e - 24)) as [Hn|Hs].
      * specialize (Hbig Hn).
        rewrite (digits2_pos_unique (Z.to_pos q) 24)
          by (rewrite Hq; change (2 ^ (24 - 1)) with 8388608; change (2 ^ 24) with 16777216; lia).
        lia.
      * pose proof (digits_below_24 (Z.to_pos q) ltac:(lia)).
        unfold round_exp in *. lia.
    + change (F32.emax - F32.prec) with 104. lia.
Qed.

Lemma binary_round_finite_sign s m e :
  F32.is_finite (binary_round F32.prec F32.emax s m e)
  = F32.is_finite (binary_round F32.prec F32.emax false m e).
Proof.
  rewrite !binary_round_spec. unfold pack.
  repeat destruct (_ =? _); repeat destruct (_ <=? _); done.
Qed.

(** A rounded value below a finite float is finite. *)
Lemma rounded_below_finite s m e x :
  F32.leb (binary_round F32.prec F32.emax false m e) x = true → F32.is_finite x = true →
  F32.is_finite (binary_round F32.prec F32.emax s m e) = true.
Proof.
  intros Hle Hx. rewrite binary_round_finite_sign.
  destruct (binary_round_sign false m e) as [Hr|[Hr|(mr & er & Hr)]]; rewrite Hr in *; try done.
  by destruct x as [sx|sx| |sx mx ex]; try destruct sx.
Qed.

(** The difference of two floats that are not negative is finite. *)
Lemma sub_nonneg_finite mx ex my ey :
  F32.valid (S754_finite false mx ex) = true → F32.valid (S754_finite false my ey) = true →
  F32.is_finite (F32.sub (S754_finite false mx ex) (S754_finite false my ey)) = true.
Proof.
  intros Vx Vy. unfold F32.sub, SFsub. cbv zeta. simpl cond_Zopp.
  rewrite !shl_align_value by lia.
  assert (0 < 2 ^ (ex - Z.min ex ey)) by (apply Z.pow_pos_nonneg; lia).
  assert (0 < 2 ^ (ey - Z.min ex ey)) by (apply Z.pow_pos_nonneg; lia).
  destruct (Zpos mx * 2 ^ (ex - Z.min ex ey) - Zpos my * 2 ^ (ey - Z.min ex ey))
    as [|p|p] eqn:Hd; [done| |]; unfold binary_normalize.
  - apply (rounded_below_finite false p _ (S754_finite false mx ex)); [|done].
    rewrite <- (valid_is_rounded false mx ex Vx).
    apply (binary_round_mono p _ mx ex (Z.min ex ey)); [lia..|].
    rewrite Z.sub_diag. change (2 ^ 0) with 1. lia.
  - apply (rounded_below_finite true p _ (S754_finite false my ey)); [|done].
    rewrite <- (valid_is_rounded false my ey Vy).
    apply (binary_round_mono p _ my ey (Z.min ex ey)); [lia..|].
    rewrite Z.sub_diag. change (2 ^ 0) with 1. lia.
Qed.

Lemma of_int_finite n : 0 ≤ n ≤ Int.INT_MAX →
  F32.of_int n = F32.zero ∨
  ∃ m e, F32.of_int n = S754_finite false m e ∧ F32.valid (S754_finite false m e) = true.
Proof.
  intros Hn. destruct n as [|p|p]; [by left| |lia]. right.
  unfold F32.of_int, binary_normalize.
  pose proof (binary_round_valid false p 0) as Hv.
  assert (F32.is_finite (binary_round F32.prec F32.emax false p 0) = true) as Hfin.
  { apply (rounded_below_finite false p 0 (S754_finite false 8388608 8)); [|done].
    change (S754_finite false 8388608 8) with (binary_round F32.prec F32.emax false 2147483648 0).
    apply (binary_round_mono p 0 2147483648 0 0); [lia..|].
    unfold Int.INT_MAX in Hn. lia. }
  destruct (binary_round_sign false p 0) as [Hr|[Hr|(m & e & Hr)]]; rewrite Hr in *; try done.
  - pose proof (mant_at_positive p 0 ltac:(lia)) as Hpos.
    rewrite binary_round_spec in Hr. unfold pack in Hr.
    destruct (Z.eqb_spec (mant_at p 0 (round_exp p 0)) 0); [lia|].
    repeat destruct (_ =? _); repeat destruct (_ <=? _); done.
  - by exists m, e.
Qed.

Lemma sub_of_int_finite m e n :
  F32.valid (S754_finite false m e) = true → 0 ≤ n ≤ Int.INT_MAX →
  F32.is_finite (F32.sub (S754_finite false m e) (F32.of_int n)) = true.
Proof.
  intros Hv Hn. destruct (of_int_finite n Hn) as [->|(my & ey & -> & Vy)]; [done|].
  by apply sub_nonneg_finite.
Qed.

(** The blend factors of a coordinate on which the lower margin test
    passes are finite floats. *)
Lemma fraction_finite c lo :
  F32.valid c = true → F32.ltb (F32.sub c F32.one) F32.zero = false →
  F32.to_int c = Ok lo → 0 ≤ lo →
  F32.is_finite (F32.sub c (F32.of_int lo)) = true ∧
  F32.is_finite (F32.sub c (F32.floor c)) = true.
Proof.
  intros Hv Hlow Hint Hlo. destruct c as [s|s| |s m e]; try done.
  destruct s; [by rewrite below_zero_outside in Hlow|].
  unfold F32.to_int, F32.truncZ in Hint. simpl cond_Zopp in Hint.
  destruct (Int.in_rangeb (F32.floorZ false m e)) eqn:Hrange; [|done].
  injection Hint as Hint. unfold Int.in_rangeb in Hrange.
  apply andb_true_iff in Hrange as [_ Hmax]. apply Z.leb_le in Hmax.
  split; [apply sub_of_int_finite; [done|lia]|].
  unfold F32.floor, F32.round_with. destruct (0 <=? e); [by rewrite sub_self|].
  cbv zeta. rewrite Hint. destruct (lo =? 0); [done|].
  apply sub_of_int_finite; [done|lia].
Qed.

Lemma linearInterpolate_zero t :
  F32.is_finite t = true → linearInterpolate zeroVoxel zeroVoxel t = zeroVoxel.
Proof. destruct t as [s|s| |s m e]; try done; by destruct s. Qed.

Lemma getGradient_all_zero gv x y z :
  well_sized (m_dim gv) → all_zero gv → in_volume (m_dim gv) x y z →
  getGradient gv x y z = Ok zeroVoxel.
Proof.
  intros Hd Hall Hin. unfold getGradient, vector_get. rewrite Hall.
  rewrite (linear_index_flat _ Hd x y z Hin).
  pose proof (flat_index_bounds _ Hd x y z Hin) as Hb.
  rewrite to_size_t_nonneg by (destruct Hd as (_ & _ & _ & ?); lia).
  rewrite lookup_replicate_2 by lia. done.
Qed.

Lemma biLinearInterpolation_zero gv cx cy z x0 x1 y0 y1 :
  F32.to_int (F32.floor cx) = Ok x0 → F32.to_int (F32.ceil cx) = Ok x1 →
  F32.to_int (F32.floor cy) = Ok y0 → F32.to_int (F32.ceil cy) = Ok y1 →
  (∀ x y, x = x0 ∨ x = x1 → y = y0 ∨ y = y1 → getGradient gv x y z = Ok zeroVoxel) →
  F32.is_finite (F32.sub cx (F32.of_int x0)) = true →
  F32.is_finite (F32.sub cy (F32.of_int y0)) = true →
  biLinearInterpolation gv (Vec2 cx cy) z = Ok zeroVoxel.
Proof.
  intros Hx0 Hx1 Hy0 Hy1 Hget Fx Fy. unfold biLinearInterpolation. simpl v2x. simpl v2y.
  rewrite Hx0, Hx1, Hy0, Hy1. simpl.
  rewrite !Hget by auto. simpl.
  rewrite !linearInterpolate_zero by done. done.
Qed.

(** In an array of zero voxels a nearest-neighbour read gives nothing but
    the zero voxel. *)
Lemma getGradient_zero_or_undefined gv x y z g :
  all_zero gv → getGradient gv x y z = Ok g → g = zeroVoxel.
Proof.
  intros Hall. unfold getGradient, vector_get. rewrite Hall.
  destruct (_ !! _) as [g'|] eqn:Hg; [|done].
  apply lookup_replicate in Hg as [-> _]. by intros [= <-].
Qed.

(** X13. A gradient volume whose array holds only zero voxels (the volume
    of a constant field, or of one with no interior position) answers
    every trilinear query with exactly the zero voxel: the blend factors
    are finite, so no blend turns the zeros into NaN.  A nearest-neighbour
    query that returns gives the zero voxel too. *)
Theorem queries_on_zero_field (gv : GradientVolume) (coord : vec3) :
  well_sized (m_dim gv) → all_zero gv → valid3 coord → not_nan3 coord →
  getGradientLinearInterpolate gv coord = Ok zeroVoxel ∧
  (∀ g, getGradientNearestNeighbor gv coord = Ok g → g = zeroVoxel).
Proof.
  intros Hd Hall (Vx & Vy & Vz) (Nx & Ny & Nz). split.
  - unfold getGradientLinearInterpolate.
    destruct (_ || _) eqn:Hguard; [done|].
    assert (¬ outside_margin (m_dim gv) coord) as Hin.
    { intros Hout. apply margin_guard in Hout. congruence. }
    destruct (extent_le_count _ Hd) as (Hcx & Hcy & Hcz).
    pose proof Hd as (Hdx & Hdy & Hdz & Hcount).
    unfold outside_margin in Hin.
    assert (F32.ltb (F32.sub (vx coord) F32.one) F32.zero = false) as Lx
      by (apply not_true_is_false; intros E; apply Hin; auto 7).
    assert (F32.ltb (F32.sub (vy coord) F32.one) F32.zero = false) as Ly
      by (apply not_true_is_false; intros E; apply Hin; auto 7).
    assert (F32.ltb (F32.sub (vz coord) F32.one) F32.zero = false) as Lz
      by (apply not_true_is_false; intros E; apply Hin; auto 7).
    destruct (margin_axis (vx coord) (ix (m_dim gv))) as (x0 & x1 & Ix & Hx0 & Hx1 & Bx);
      [done|done|lia|done|apply not_true_is_false; intros E; apply Hin; auto 7|].
    destruct (margin_axis (vy coord) (iy (m_dim gv))) as (y0 & y1 & Iy & Hy0 & Hy1 & By);
      [done|done|lia|done|apply not_true_is_false; intros E; apply Hin; auto 7|].
    destruct (margin_axis (vz coord) (iz (m_dim gv))) as (z0 & z1 & Iz & Hz0 & Hz1 & Bz);
      [done|done|lia|done|apply not_true_is_false; intros E; apply Hin; auto 7|].
    destruct (fraction_finite (vx coord) x0 Vx Lx Ix ltac:(lia)) as [Fx _].
    destruct (fraction_finite (vy coord) y0 Vy Ly Iy ltac:(lia)) as [Fy _].
    destruct (fraction_finite (vz coord) z0 Vz Lz Iz ltac:(lia)) as [_ Fz].
    rewrite Hz0, Hz1. simpl.
    rewrite !(biLinearInterpolation_zero gv (vx coord) (vy coord) _ x0 x1 y0 y1); try done.
    + simpl. by rewrite linearInterpolate_zero.
    + intros x y Hx Hy. apply getGradient_all_zero; [done|done|]. unfold in_volume. lia.
    + intros x y Hx Hy. apply getGradient_all_zero; [done|done|]. unfold in_volume. lia.
  - intros g. unfold getGradientNearestNeighbor.
    destruct (_ || _); [by intros [= <-]|].
    destruct (roundToPositiveInt (vx coord)) as [x| |]; [|done..].
    destruct (roundToPositiveInt (vy coord)) as [y| |]; [|done..].
    destruct (roundToPositiveInt (vz coord)) as [z| |]; [|done..].
    simpl. by apply getGradient_zero_or_undefined.
Qed.

Lemma queries_on_zero_field_witness :
  all_zero flat_gradient ∧
  getGradientLinearInterpolate flat_gradient ramp_off_lattice = Ok zeroVoxel.
Proof.
  assert (well_sized (m_dim flat_gradient)) as Hd
    by (unfold well_sized, voxel_count, Int.INT_MAX; simpl; lia).
  assert (all_zero flat_gradient) as Hall by reflexivity.
  split; [exact Hall|].
  apply (queries_on_zero_field flat_gradient ramp_off_lattice Hd Hall); repeat split; reflexivity.
Defined.

(** ** Nearest neighbour inside the margin *)






(** ** The sign of a magnitude *)

Lemma is_nan_eq x : F32.is_nan x = true → x = S754_nan.
Proof. by destruct x. Qed.

Lemma add_nan_l y : F32.add S754_nan y = S754_nan.
Proof. by destruct y. Qed.

Lemma add_nan_r x : F32.add x S754_nan = S754_nan.
Proof. by destruct x. Qed.

(** [glm::length] gives NaN or a float with a clear sign bit. *)
Lemma length_sign_or_nan v : has_sign false (Glm.length v) ∨ Glm.length v = S754_nan.
Proof.
  destruct (F32.is_nan (vx v)) eqn:Hx; [|destruct (F32.is_nan (vy v)) eqn:Hy;
    [|destruct (F32.is_nan (vz v)) eqn:Hz]].
  - right. unfold Glm.length, Glm.dot. rewrite (is_nan_eq _ Hx).
    change (F32.mul S754_nan S754_nan) with (S754_nan : float).
    by rewrite !add_nan_l.
  - right. unfold Glm.length, Glm.dot. rewrite (is_nan_eq _ Hy).
    change (F32.mul S754_nan S754_nan) with (S754_nan : float).
    by rewrite add_nan_r, add_nan_l.
  - right. unfold Glm.length, Glm.dot. rewrite (is_nan_eq _ Hz).
    change (F32.mul S754_nan S754_nan) with (S754_nan : float).
    by rewrite add_nan_r.
  - left. by apply length_sign.
Qed.

Lemma consistent_not_negative g :
  consistent g →
  F32.ltb (magnitude g) F32.zero = false ∧
  (has_sign false (magnitude g) ∨ magnitude g = S754_nan).
Proof.
  intros Hg. rewrite Hg.
  destruct (length_sign_or_nan (dir g)) as [Hs|Hn].
  - split; [|by left]. destruct Hs as [->|[->|(m & e & ->)]]; done.
  - rewrite Hn. split; [done|by right].
Qed.

(** X15. No query returns a magnitude below zero: for a gradient volume
    built by the constructor and any mode set on it afterwards, the
    magnitude of a returned voxel is NaN or a float with a clear sign bit
    (+0, a positive float or +infinity), never a negative float or -0. *)
Theorem returned_magnitude_not_negative
    (volume : Volume) (mode0 mode : InterpolationMode) (gv : GradientVolume)
    (coord : vec3) (g : GradientVoxel) :
  GradientVolume_new volume mode0 = Ok gv →
  getGradientInterpolate (with_mode gv mode) coord = Ok g →
  F32.ltb (magnitude g) F32.zero = false ∧
  (has_sign false (magnitude g) ∨ magnitude g = S754_nan).
Proof.
  intros Hnew Hq. apply GradientVolume_new_consistent in Hnew.
  apply consistent_not_negative.
  unfold getGradientInterpolate in Hq. destruct mode; simpl in Hq.
  - by eapply (getGradientNearestNeighbor_consistent (with_mode gv NearestNeighbour)).
  - by eapply getGradientLinearInterpolate_consistent.
  - by eapply getGradientLinearInterpolate_consistent.
  - done.
Qed.

Lemma returned_magnitude_not_negative_witness :
  GradientVolume_new ramp_volume Linear = Ok ramp_gradient ∧
  getGradientInterpolate (with_mode ramp_gradient Cubic) ramp_centre = Ok unit_x ∧
  F32.ltb (magnitude unit_x) F32.zero = false.
Proof.
  assert (GradientVolume_new ramp_volume Linear = Ok ramp_gradient) as Hnew
    by (vm_compute; reflexivity).
  assert (getGradientInterpolate (with_mode ramp_gradient Cubic) ramp_centre
          = Ok unit_x) as Hq by (vm_compute; reflexivity).
  split; [exact Hnew|]. split; [exact Hq|].
  exact (proj1 (returned_magnitude_not_negative ramp_volume Linear Cubic ramp_gradient
                  ramp_centre unit_x Hnew Hq)).
Defined.

(** ** Rounding half up, exactly *)

(** The integer part of a packed float that is not negative. *)
Lemma to_int_pack q fe :
  0 ≤ q ≤ 16777216 → fe ≤ 0 → F32.to_int (pack false q fe) = Ok (q / 2 ^ (- fe)).
Proof.
  intros Hq Hfe. assert (0 < 2 ^ (- fe)) as Hpos by (apply Z.pow_pos_nonneg; lia).
  assert (0 ≤ q / 2 ^ (- fe) ≤ 16777216) as Hdiv.
  { split; [apply Z.div_pos; lia|].
    apply Z.div_le_upper_bound; [lia|]. nia. }
  assert (Int.in_rangeb (q / 2 ^ (- fe)) = true) as Hrange.
  { unfold Int.in_rangeb, Int.INT_MIN, Int.INT_MAX.
    apply andb_true_iff. split; apply Z.leb_le; lia. }
  unfold pack. destruct (Z.eqb_spec q 0) as [->|Hne].
  - simpl. by rewrite Z.div_0_l by lia.
  - destruct (Z.eqb_spec q 16777216) as [->|Hne2].
    + destruct (Z.leb_spec (fe + 1) 104); [|lia].
      unfold F32.to_int, F32.truncZ, F32.floorZ, F32.signed. simpl cond_Zopp.
      assert ((if 0 <=? fe + 1 then Z.shiftl 8388608 (fe + 1)
               else Z.shiftr 8388608 (- (fe + 1))) = 16777216 / 2 ^ (- fe)) as ->.
      { destruct (Z.leb_spec 0 (fe + 1)).
        - destruct (decide (fe = 0)) as [->|?]; [reflexivity|].
          assert (fe = -1) as -> by lia. reflexivity.
        - rewrite Z.shiftr_div_pow2 by lia.
          replace (- fe) with (1 + - (fe + 1)) by lia.
          rewrite Z.pow_add_r by lia. change (2 ^ 1) with 2.
          change 16777216 with (2 * 8388608).
          assert (0 < 2 ^ (- (fe + 1))) by (apply Z.pow_pos_nonneg; lia).
          by rewrite Z.div_mul_cancel_l by lia. }
      by rewrite Hrange.
    + destruct (Z.leb_spec fe 104); [|lia].
      unfold F32.to_int, F32.truncZ, F32.floorZ, F32.signed. simpl cond_Zopp.
      rewrite Z2Pos.id by lia.
      assert ((if 0 <=? fe then Z.shiftl q fe else Z.shiftr q (- fe)) = q / 2 ^ (- fe)) as ->.
      { destruct (Z.leb_spec 0 fe).
        - assert (fe = 0) as -> by lia. simpl. by rewrite Z.div_1_r.
        - by rewrite Z.shiftr_div_pow2 by lia. }
      by rewrite Hrange.
Qed.

(** The integer part of a rounded value is the integer part of the value,
    as long as the value stays one unit of the result below the next
    integer.  [D] bounds the number of digits of [p]. *)
Lemma floor_of_rounded p ez D n0 :
  -149 ≤ ez → 8388608 ≤ Zpos p → Zpos p < 2 ^ D → D + ez - 24 ≤ 0 →
  n0 * 2 ^ (- ez) ≤ Zpos p → Zpos p + 2 ^ (D - 24) ≤ (n0 + 1) * 2 ^ (- ez) →
  F32.to_int (binary_round F32.prec F32.emax false p ez) = Ok n0.
Proof.
  intros Hez Hlo Hhi HD Hfloor Hgap.
  pose proof (digits2_pos_bounds p) as [Hdlo Hdhi].
  set (d := Zpos (digits2_pos p)) in *.
  assert (24 ≤ d) as Hd24.
  { destruct (Z.le_gt_cases 24 d) as [?|Hlt]; [done|].
    assert (2 ^ d ≤ 2 ^ 23) by (apply Z.pow_le_mono_r; lia).
    change (2 ^ 23) with 8388608 in *. lia. }
  assert (d ≤ D) as HdD.
  { destruct (Z.le_gt_cases d D) as [?|Hgt]; [done|].
    assert (2 ^ D ≤ 2 ^ (d - 1)) by (apply Z.pow_le_mono_r; lia). lia. }
  rewrite binary_round_spec.
  pose proof (mant_at_bounds p ez) as [Hq _].
  assert (round_exp p ez = d + ez - 24) as Hfe by (unfold round_exp; fold d; lia).
  rewrite Hfe in *. set (fe := d + ez - 24) in *.
  rewrite to_int_pack by (done || lia). f_equal.
  unfold mant_at in *. destruct (Z.ltb_spec fe ez) as [?|_]; [lia|].
  set (q := rne (Zpos p) (fe - ez)) in *.
  assert (0 < 2 ^ (- fe)) as Hpf by (apply Z.pow_pos_nonneg; lia).
  assert (0 < 2 ^ (fe - ez)) as Hpk by (apply Z.pow_pos_nonneg; lia).
  assert (2 ^ (- fe) * 2 ^ (fe - ez) = 2 ^ (- ez)) as Hsplit.
  { rewrite <- Z.pow_add_r by lia. f_equal. lia. }
  assert (2 ^ (fe - ez) ≤ 2 ^ (D - 24)) as Hunit by (apply Z.pow_le_mono_r; lia).
  assert (n0 * 2 ^ (- fe) ≤ q) as Hql.
  { apply rne_lower; [lia|]. rewrite <- Z.mul_assoc, Hsplit. done. }
  assert (q ≤ (n0 + 1) * 2 ^ (- fe) - 1) as Hqu.
  { apply rne_upper; [lia|].
    rewrite Z.mul_sub_distr_r, <- Z.mul_assoc, Hsplit. lia. }
  symmetry. apply (Z.div_unique q (2 ^ (- fe)) n0 (q - n0 * 2 ^ (- fe))); lia.
Qed.

(** [static_cast<int>(v + 0.5f)] rounds half up exactly, for every float
    from [2^-149] to below [2^23] other than the largest one below
    [0.5f]. *)
Lemma round_sum_exact m e :
  F32.valid (S754_finite false m e) = true → e < 0 →
  S754_finite false m e ≠ f32_below_half →
  roundToPositiveInt (S754_finite false m e) = round_half_up (S754_finite false m e).
Proof.
  intros Hv He Hne. destruct (valid_mantissa _ _ _ Hv) as (Hm & Hrange & _).
  unfold roundToPositiveInt, round_half_up. rewrite add_half_spec.
  destruct (Z.leb_spec 0 e) as [?|_]; [lia|]. cbv zeta.
  unfold F32.signed. simpl cond_Zopp.
  set (U := 2 ^ (- e)). set (h := 2 ^ (- e - 1)).
  assert (0 < h) as Hh by (apply Z.pow_pos_nonneg; lia).
  assert (U = 2 * h) as HU.
  { unfold U, h. rewrite <- Z.pow_succ_r by lia. f_equal. lia. }
  replace (2 ^ (1 - e)) with (2 * U)
    by (unfold U; rewrite <- Z.pow_succ_r by lia; f_equal; lia).
  replace (2 * Zpos m + U) with (2 * (Zpos m + h)) by lia.
  rewrite Z.div_mul_cancel_l by lia.
  set (T := Zpos m + h).
  pose proof (Z.div_mod T U ltac:(lia)) as Hdm.
  pose proof (Z.mod_pos_bound T U ltac:(lia)) as Hmod.
  set (n0 := T / U) in *. set (r := T mod U) in *.
  assert (0 ≤ n0) as Hn0 by (apply Z.div_pos; lia).
  assert (n0 ≤ 16777216) as Hn1 by nia.
  assert (Int.in_rangeb n0 = true) as ->.
  { unfold Int.in_rangeb, Int.INT_MIN, Int.INT_MAX.
    apply andb_true_iff. split; apply Z.leb_le; lia. }
  destruct (Z.le_gt_cases (-24) e) as [Hhigh|Hlow].
  - (* the sum is aligned at 2^-24 *)
    assert (Z.min e (-24) = -24) as -> by lia.
    change (2 ^ (-24 - -24)) with 1. change (2 ^ (- -24)) with 16777216.
    set (g := 2 ^ (e - -24)).
    assert (0 < g) as Hg by (apply Z.pow_pos_nonneg; lia).
    assert (U * g = 16777216) as HUg.
    { unfold U, g. rewrite <- Z.pow_add_r by lia.
      replace (- e + (e - -24)) with 24 by lia. done. }
    assert (h * g = 8388608) as Hhg by lia.
    assert (Zpos m * g + 8388608 * 1 = T * g) as Hp by (unfold T; lia).
    rewrite Hp.
    assert (0 < T * g) by nia.
    destruct (Z.lt_ge_cases T 16777216) as [Hsame|Hcross].
    + apply (floor_of_rounded _ (-24) (e + 48)); rewrite ?Z2Pos.id by lia.
      * lia.
      * nia.
      * replace (e + 48) with (24 + (e - -24)) by lia.
        rewrite Z.pow_add_r by lia. fold g. change (2 ^ 24) with 16777216. nia.
      * lia.
      * change (2 ^ (- -24)) with 16777216. nia.
      * replace (e + 48 - 24) with (e - -24) by lia. fold g.
        change (2 ^ (- -24)) with 16777216. nia.
    + assert (g ≤ n0) as Hk.
      { replace g with (16777216 / U)
          by (rewrite <- HUg, Z.mul_comm; apply Z.div_mul; lia).
        apply Z.div_le_mono; lia. }
      apply (floor_of_rounded _ (-24) (e + 49)); rewrite ?Z2Pos.id by lia.
      * lia.
      * nia.
      * replace (e + 49) with (25 + (e - -24)) by lia.
        rewrite Z.pow_add_r by lia. fold g. change (2 ^ 25) with 33554432. nia.
      * lia.
      * change (2 ^ (- -24)) with 16777216. nia.
      * replace (e + 49 - 24) with (1 + (e - -24)) by lia.
        rewrite Z.pow_add_r by lia. fold g. change (2 ^ 1) with 2.
        change (2 ^ (- -24)) with 16777216. nia.
  - (* the sum is aligned at the exponent of the coordinate *)
    assert (Z.min e (-24) = e) as -> by lia.
    rewrite Z.sub_diag. change (2 ^ 0) with 1. rewrite Z.mul_1_r.
    set (w := 2 ^ (- e - 25)).
    assert (0 < w) as Hw by (apply Z.pow_pos_nonneg; lia).
    assert (2 ^ (-24 - e) = 2 * w) as Hhalf.
    { unfold w. replace (-24 - e) with (1 + (- e - 25)) by lia.
      by rewrite Z.pow_add_r by lia. }
    assert (h = 16777216 * w) as Hhw.
    { unfold h, w. replace (- e - 1) with (24 + (- e - 25)) by lia.
      by rewrite Z.pow_add_r by lia. }
    rewrite Hhalf. replace (8388608 * (2 * w)) with h by lia. fold T.
    assert (n0 = 0) as Hzero by (unfold n0; apply Z.div_small; unfold T; lia).
    assert (Zpos m + 2 * w ≤ h) as Hroom.
    { destruct (Z.eq_dec w 1) as [Hw1|Hw1].
      - assert (e = -25) as ->.
        { unfold w in Hw1. destruct (Z.eq_dec (- e - 25) 0) as [?|?]; [lia|].
          assert (2 ^ 1 ≤ 2 ^ (- e - 25)) by (apply Z.pow_le_mono_r; lia).
          change (2 ^ 1) with 2 in *. lia. }
        assert (Zpos m ≠ 16777215).
        { intros E. apply Hne. unfold f32_below_half. by injection E as ->. }
        lia.
      - nia. }
    rewrite Hzero.
    apply (floor_of_rounded _ e (- e)); rewrite ?Z2Pos.id by (unfold T; lia).
    + lia.
    + unfold T. lia.
    + fold U. unfold T. lia.
    + lia.
    + unfold T. lia.
    + fold U. replace (- e - 24) with (-24 - e) by lia. rewrite Hhalf. unfold T. lia.
Qed.

Lemma below_two_23 m e :
  F32.valid (S754_finite false m e) = true →
  F32.ltb (S754_finite false m e) f32_two_23 = true → e < 0.
Proof.
  intros Hv Hlt. destruct (valid_mantissa _ _ _ Hv) as (Hm & Hrange & Hcanon).
  apply ltb_key in Hlt; [|done..]. unfold lex_lt in Hlt. simpl in Hlt.
  destruct Hlt as [?|[_ [?|[-> Hsmall]]]]; [lia|done|].
  destruct Hcanon as [?|Hd]; [lia|].
  pose proof (digits2_pos_bounds m) as [Hlo _]. rewrite Hd in Hlo.
  change (2 ^ (24 - 1)) with 8388608 in Hlo. lia.
Qed.

Lemma roundToPositiveInt_exact c :
  F32.valid c = true → F32.ltb c F32.zero = false → rounds_exactly c →
  roundToPositiveInt c = round_half_up c.
Proof.
  intros Hv Hlow [Hhigh Hne]. destruct c as [s|s| |s m e].
  - by destruct s.
  - by destruct s.
  - done.
  - destruct s; [done|]. apply round_sum_exact; [done| |done].
    by apply (below_two_23 m).
Qed.

(** X17. In NearestNeighbour mode the query returns the zero voxel when a
    component of the coordinate is below zero or at least the extent on its
    axis.  Otherwise, when every component is below [2^23] and none is the
    largest float below [0.5f], the query is [getGradient] at the
    coordinate rounded half up to the nearest integer, [floor(v + 0.5)]
    taken exactly, on every axis. *)
Theorem nearest_neighbour_query (gv : GradientVolume) (coord : vec3) :
  interpolationMode gv = NearestNeighbour →
  (outside_volume (m_dim gv) coord → getGradientInterpolate gv coord = Ok zeroVoxel) ∧
  (¬ outside_volume (m_dim gv) coord → valid3 coord → rounds_exactly3 coord →
     getGradientInterpolate gv coord =
       x ← round_half_up (vx coord);
       y ← round_half_up (vy coord);
       z ← round_half_up (vz coord);
       getGradient gv x y z).
Proof.
  intros Hmode. unfold getGradientInterpolate. rewrite Hmode.
  unfold getGradientNearestNeighbor. split.
  - intros Hout. apply nearest_guard in Hout. rewrite Hout. done.
  - intros Hout (Vx & Vy & Vz) (Ex & Ey & Ez).
    destruct (_ || _) eqn:Hguard; [apply nearest_guard in Hguard; contradiction|].
    unfold outside_volume in Hout.
    rewrite !roundToPositiveInt_exact; [done|done| |done|done| |done|done| |done];
      apply not_true_is_false; intros E; apply Hout; auto 7.
Qed.

Lemma nearest_neighbour_query_witness :
  interpolationMode (with_mode ramp_gradient NearestNeighbour) = NearestNeighbour ∧
  ¬ outside_volume (m_dim (with_mode ramp_gradient NearestNeighbour)) ramp_near_centre ∧
  getGradientInterpolate (with_mode ramp_gradient NearestNeighbour) ramp_near_centre
  = getGradient (with_mode ramp_gradient NearestNeighbour) 1 1 1.
Proof.
  assert (¬ outside_volume (m_dim (with_mode ramp_gradient NearestNeighbour)) ramp_near_centre)
    as Hin by (unfold outside_volume; vm_compute; intuition discriminate).
  assert (valid3 ramp_near_centre) as Hv by (repeat split; reflexivity).
  assert (rounds_exactly3 ramp_near_centre) as He
    by (repeat split; (reflexivity || discriminate)).
  split; [reflexivity|]. split; [exact Hin|].
  exact (proj2 (nearest_neighbour_query (with_mode ramp_gradient NearestNeighbour)
                  ramp_near_centre eq_refl) Hin Hv He).
Defined.
